(** * Business Discovery Engine v6.1: entity resolution, enrichment and
    scheduling, embedded from [engine.js].

    Strings are JavaScript strings restricted to the Latin-1 code units
    (one [ascii] per UTF-16 code unit below 256).  Record fields that the
    source reads through [(x || '')] are modelled as strings, the empty
    string standing for a missing field. *)

From Stdlib Require Import Ascii String QArith.
From stdpp Require Import gmap gmultiset strings list fin_maps.

Local Open Scope string_scope.
Local Open Scope list_scope.

(** ** JavaScript string primitives *)

Module Js.

Definition code (c : ascii) : N := N_of_ascii c.

Definition between (lo hi : N) (c : ascii) : bool :=
  ((lo <=? code c) && (code c <=? hi))%N.

(** [\d] *)
Definition isDigit : ascii -> bool := between 48 57.
(** [a-z] *)
Definition isLower : ascii -> bool := between 97 122.
(** [A-Z] *)
Definition isUpper : ascii -> bool := between 65 90.
(** [\w], that is [A-Za-z0-9_] *)
Definition isWordChar (c : ascii) : bool :=
  isLower c || isUpper c || isDigit c || (code c =? 95)%N.
(** [\s] below code unit 256: TAB, LF, VT, FF, CR, SP and NBSP; it is also
    the set removed by [trim]. *)
Definition isSpace (c : ascii) : bool :=
  between 9 13 c || (code c =? 32)%N || (code c =? 160)%N.
(** line terminators, the characters [.] does not match *)
Definition isLineTerm (c : ascii) : bool :=
  (code c =? 10)%N || (code c =? 13)%N.

(** [toLowerCase] on one code unit: A-Z, and the Latin-1 capitals
    U+00C0..U+00DE without the multiplication sign U+00D7. *)
Definition lowerChar (c : ascii) : ascii :=
  if isUpper c || (between 192 222 c && negb (code c =? 215)%N)
  then ascii_of_N (code c + 32) else c.

Fixpoint map (f : ascii -> ascii) (s : string) : string :=
  match s with
  | EmptyString => EmptyString
  | String c r => String (f c) (map f r)
  end.

Fixpoint filter (p : ascii -> bool) (s : string) : string :=
  match s with
  | EmptyString => EmptyString
  | String c r => if p c then String c (filter p r) else filter p r
  end.

Definition toLowerCase : string -> string := map lowerChar.

(** truthiness of a string: [!s] holds exactly for the empty string *)
Definition truthy (s : string) : bool :=
  match s with EmptyString => false | _ => true end.

Fixpoint drop (n : nat) (s : string) : string :=
  match n, s with
  | O, _ => s
  | S k, EmptyString => EmptyString
  | S k, String _ r => drop k r
  end.

(** [s.slice(-n)]: the last [n] code units *)
Definition sliceLast (n : nat) (s : string) : string :=
  drop (String.length s - n) s.

Fixpoint trimStart (s : string) : string :=
  match s with
  | String c r => if isSpace c then trimStart r else s
  | EmptyString => EmptyString
  end.

Fixpoint allSpace (s : string) : bool :=
  match s with
  | EmptyString => true
  | String c r => isSpace c && allSpace r
  end.

Fixpoint trimEnd (s : string) : string :=
  match s with
  | EmptyString => EmptyString
  | String c r => if allSpace s then EmptyString else String c (trimEnd r)
  end.

Definition trim (s : string) : string := trimEnd (trimStart s).

(** [s.startsWith(p)] *)
Definition startsWith (p s : string) : bool := String.prefix p s.

(** [s.replace(/^p/, '')] for a literal [p] *)
Definition stripPrefix (p s : string) : string :=
  if startsWith p s then drop (String.length p) s else s.

(** [s.split(sep)[0]] for a one-character separator *)
Fixpoint beforeChar (sep : ascii) (s : string) : string :=
  match s with
  | EmptyString => EmptyString
  | String c r => if Ascii.eqb c sep then EmptyString else String c (beforeChar sep r)
  end.

(** the text after the first [sep], or [None] when [sep] does not occur *)
Fixpoint afterChar (sep : ascii) (s : string) : option string :=
  match s with
  | EmptyString => None
  | String c r => if Ascii.eqb c sep then Some r else afterChar sep r
  end.

(** [s.split(sep)[1]]: [None] is [undefined] *)
Definition splitSecond (sep : ascii) (s : string) : option string :=
  match afterChar sep s with
  | Some r => Some (beforeChar sep r)
  | None => None
  end.

(** [s[0]] as a string; the empty string has none *)
Definition firstChar (s : string) : string :=
  match s with
  | EmptyString => EmptyString
  | String c _ => String c EmptyString
  end.

End Js.

(** ** JavaScript numbers produced by [dice]

    [dice] returns the quotient of two small non-negative integers.  An
    IEEE-754 division is correctly rounded and rounding is monotone, and two
    distinct quotients [2m/n] and [17/20] (or [7/10]) differ by at least
    [1/(20 n)], far above the spacing of doubles for any string length that
    fits in memory; so comparing the doubles agrees with comparing the exact
    rationals.  [0/0] is [NaN], for which every comparison is false. *)

Inductive jsnum : Type :=
| NaN : jsnum
| Num : Q -> jsnum.

Definition Qlt_bool (x y : Q) : bool := negb (Qle_bool y x).

(** [x > q] *)
Definition num_gt (x : jsnum) (q : Q) : bool :=
  match x with
  | NaN => false
  | Num p => Qlt_bool q p
  end.

(** the double is exactly the rational [q] *)
Definition num_is (x : jsnum) (q : Q) : Prop :=
  match x with
  | NaN => False
  | Num p => (p == q)%Q
  end.


(** ** Entity resolution: [normName], [normPhone], [normDomain], [dice],
    [sameEntity], [dedupe] *)

(** A business record as the discovery functions build it.  [sources] is
    [None] until [dedupe] sets it; [stateKey] is set by the scheduler. *)
Record Biz : Type := mkBiz {
  source : string;
  company_name : string;
  phone : string;
  address : string;
  city : string;
  state : string;
  website : string;
  industry : string;
  sources : option (list string);
  stateKey : string
}.

Module ER.

(** the alternatives of [/\b(llc|inc|...)\b/g], in the order of the source *)
Definition legalWords : list string :=
  ["llc"; "inc"; "corp"; "ltd"; "co"; "company"; "enterprises"; "services";
   "solutions"; "group"; "associates"; "partners"; "pllc"; "lp"; "llp"].

Definition startsWithWordChar (s : string) : bool :=
  match s with
  | String c _ => Js.isWordChar c
  | EmptyString => false
  end.

(** The alternation at the head of [s], the position before it being a word
    boundary: the first alternative that is a prefix of [s] and is followed
    by a word boundary; the result is the length of the match. *)
Fixpoint matchAlt (ws : list string) (s : string) : option nat :=
  match ws with
  | [] => None
  | w :: r =>
      if Js.startsWith w s && negb (startsWithWordChar (Js.drop (String.length w) s))
      then Some (String.length w)
      else matchAlt r s
  end.

(** [s.replace(/\b(llc|...)\b/g, '')], scanning left to right.  [skip] counts
    the code units of the current match still to be dropped; [prevWord] says
    whether the code unit before the head is a word character (every
    alternative starts with one, so a match needs [prevWord = false]). *)
Fixpoint replaceWords (skip : nat) (prevWord : bool) (s : string) : string :=
  match s with
  | EmptyString => EmptyString
  | String c r =>
      match skip with
      | S k => replaceWords k true r
      | O =>
          match (if prevWord then None else matchAlt legalWords s) with
          | Some n => replaceWords (Nat.pred n) true r
          | None => String c (replaceWords 0 (Js.isWordChar c) r)
          end
      end
  end.

(** [s.replace(/\s+/g, ' ')]; [inRun] says the previous code unit was
    white space, already replaced *)
Fixpoint collapseSpaces (inRun : bool) (s : string) : string :=
  match s with
  | EmptyString => EmptyString
  | String c r =>
      if Js.isSpace c
      then (if inRun then collapseSpaces true r else String " "%char (collapseSpaces true r))
      else String c (collapseSpaces false r)
  end.

(** the class [[a-z0-9\s]] *)
Definition keptInName (c : ascii) : bool :=
  Js.isLower c || Js.isDigit c || Js.isSpace c.

Definition normName (n : string) : string :=
  Js.trim (collapseSpaces false (Js.filter keptInName
    (replaceWords 0 false (Js.toLowerCase n)))).

Definition normPhone (p : string) : string :=
  Js.sliceLast 10 (Js.filter Js.isDigit p).

Fixpoint noLineTerm (s : string) : bool :=
  match s with
  | EmptyString => true
  | String c r => negb (Js.isLineTerm c) && noLineTerm r
  end.

(** [s.replace(/\/.*$/, '')]: the first slash that no line terminator
    follows starts the match, which runs to the end *)
Fixpoint stripPath (s : string) : string :=
  match s with
  | EmptyString => EmptyString
  | String c r =>
      if Ascii.eqb c "/"%char && noLineTerm r then EmptyString
      else String c (stripPath r)
  end.

(** [s.replace(/^https?:\/\//, '')] *)
Definition stripScheme (s : string) : string :=
  if Js.startsWith "http://" s then Js.drop 7 s
  else if Js.startsWith "https://" s then Js.drop 8 s
  else s.

Definition normDomain (u : string) : string :=
  Js.trim (Js.toLowerCase (stripPath (Js.stripPrefix "www." (stripScheme u)))).

Definition bigram : Type := ascii * ascii.

Definition bigram_eqb (x y : bigram) : bool :=
  Ascii.eqb (fst x) (fst y) && Ascii.eqb (snd x) (snd y).

(** [bg]: the [s.length - 1] two-character slices of [s] *)
Fixpoint bigrams (s : string) : list bigram :=
  match s with
  | String a r =>
      match r with
      | String b _ => (a, b) :: bigrams r
      | EmptyString => []
      end
  | EmptyString => []
  end.

(** the inner loop of [dice]: the first index [i] of [bb], not in [u], whose
    bigram equals [x] *)
Fixpoint findFree (x : bigram) (bb : list bigram) (i : nat) (u : gset nat) : option nat :=
  match bb with
  | [] => None
  | y :: r =>
      if negb (bool_decide (i ∈ u)) && bigram_eqb x y then Some i
      else findFree x r (S i) u
  end.

(** the outer loop of [dice], threading [m] and the used set [u] *)
Fixpoint countMatches (ab bb : list bigram) (m : nat) (u : gset nat) : nat :=
  match ab with
  | [] => m
  | x :: r =>
      match findFree x bb 0 u with
      | Some i => countMatches r bb (S m) ({[ i ]} ∪ u)
      | None => countMatches r bb m u
      end
  end.

(** [x / y] on non-negative integers ([x/0] with [x > 0] is [Infinity], which
    [dice] cannot produce: [m] never exceeds the number of bigrams) *)
Definition jsdiv (x y : nat) : jsnum :=
  match y with
  | O => NaN
  | S _ => Num (Z.of_nat x # Pos.of_nat y)
  end.

Definition dice (a b : string) : jsnum :=
  if negb (Js.truthy a) || negb (Js.truthy b) then Num 0
  else if String.eqb a b then Num 1
  else
    let ab := bigrams a in
    let bb := bigrams b in
    let m := countMatches ab bb 0 ∅ in
    jsdiv (2 * m) (length ab + length bb).

Definition sameEntity (a b : Biz) : bool :=
  let da := normDomain (website a) in
  let db := normDomain (website b) in
  if Js.truthy da && Js.truthy db && String.eqb da db then true else
  let pa := normPhone (phone a) in
  let pb := normPhone (phone b) in
  if Js.truthy pa && Js.truthy pb && Nat.leb 10 (String.length pa) && String.eqb pa pb
  then true else
  let na := normName (company_name a) in
  let nb := normName (company_name b) in
  let s := dice na nb in
  if num_gt s (85 # 100) then true else
  if num_gt s (7 # 10)
     && String.eqb (Js.toLowerCase (city a)) (Js.toLowerCase (city b))
  then true else false.

(** [if (!e[k] && b[k]) e[k] = b[k]] *)
Definition backfill (ek bk : string) : string :=
  if negb (Js.truthy ek) && Js.truthy bk then bk else ek.

Definition inList (x : string) (l : list string) : bool :=
  existsb (String.eqb x) l.

(** the body of the match branch of [dedupe]: backfill of [phone],
    [address], [city], [website], [industry], then the source list *)
Definition merge (e b : Biz) : Biz :=
  let srcs := match sources e with Some l => l | None => [source e] end in
  {| source := source e;
     company_name := company_name e;
     phone := backfill (phone e) (phone b);
     address := backfill (address e) (address b);
     city := backfill (city e) (city b);
     state := state e;
     website := backfill (website e) (website b);
     industry := backfill (industry e) (industry b);
     sources := Some (if inList (source b) srcs then srcs else srcs ++ [source b]);
     stateKey := stateKey e |}.

(** [b.sources = [b.source]] *)
Definition fresh (b : Biz) : Biz :=
  {| source := source b; company_name := company_name b; phone := phone b;
     address := address b; city := city b; state := state b;
     website := website b; industry := industry b;
     sources := Some [source b]; stateKey := stateKey b |}.

(** one iteration of the outer loop of [dedupe]: the scan of [uniq] stops at
    the first entity that matches [b]; without a match [b] is appended *)
Fixpoint dedupeStep (uniq : list Biz) (b : Biz) : list Biz :=
  match uniq with
  | [] => [fresh b]
  | e :: r => if sameEntity e b then merge e b :: r else e :: dedupeStep r b
  end.

(** [dedupe].  The source pushes the input object itself as the new entity
    and mutates it on later matches; here every element of the input is an
    object of its own, so an entity is the value built from the records
    merged into it. *)
Definition dedupe (l : list Biz) : list Biz := fold_left dedupeStep l [].

(** the index at which [dedupeStep] merges [b], if any *)
Fixpoint resolve (uniq : list Biz) (b : Biz) : option nat :=
  match uniq with
  | [] => None
  | e :: r => if sameEntity e b then Some 0 else option_map S (resolve r b)
  end.

End ER.


(** *** The matching signals of [sameEntity], stated on the normalized fields *)

(** the name-similarity score [sameEntity] computes *)
Definition score (a b : Biz) : jsnum :=
  ER.dice (ER.normName (company_name a)) (ER.normName (company_name b)).

(** a common non-empty website domain *)
Definition commonDomain (a b : Biz) : Prop :=
  ER.normDomain (website a) <> "" /\
  ER.normDomain (website a) = ER.normDomain (website b).

(** equal normalized phones of ten digits *)
Definition equalPhone10 (a b : Biz) : Prop :=
  ER.normPhone (phone a) = ER.normPhone (phone b) /\
  String.length (ER.normPhone (phone a)) = 10.

(** equal normalized phones that are not empty *)
Definition equalPhoneNonEmpty (a b : Biz) : Prop :=
  ER.normPhone (phone a) = ER.normPhone (phone b) /\
  ER.normPhone (phone a) <> "".

(** localities equal up to letter case *)
Definition sameLocality (a b : Biz) : Prop :=
  Js.toLowerCase (city a) = Js.toLowerCase (city b).

Definition noOtherSignal (a b : Biz) : Prop :=
  ~ commonDomain a b /\ ~ equalPhone10 a b /\ ~ sameLocality a b.


(** a raw record as a discovery function returns it *)
Definition rawBiz (src name ph cty st web : string) : Biz :=
  mkBiz src name ph "" cty st web "" None "".

Fixpoint repeatChar (c : ascii) (n : nat) : string :=
  match n with
  | O => EmptyString
  | S k => String c (repeatChar c k)
  end.

(** the four tests of [sameEntity], one boolean each *)
Definition domainTest (a b : Biz) : bool :=
  Js.truthy (ER.normDomain (website a)) && Js.truthy (ER.normDomain (website b))
  && String.eqb (ER.normDomain (website a)) (ER.normDomain (website b)).

Definition phoneTest (a b : Biz) : bool :=
  Js.truthy (ER.normPhone (phone a)) && Js.truthy (ER.normPhone (phone b))
  && Nat.leb 10 (String.length (ER.normPhone (phone a)))
  && String.eqb (ER.normPhone (phone a)) (ER.normPhone (phone b)).

Definition cityTest (a b : Biz) : bool :=
  String.eqb (Js.toLowerCase (city a)) (Js.toLowerCase (city b)).

(** *** Sample records *)

Module Samples.

(** two names of 21 letters: 20 bigrams each, 17 of them shared *)
Definition a85 : Biz := rawBiz "yelp" "abcdefghijklmnopqrstu" "" "Mesa" "Arizona" "".
Definition b85 : Biz := rawBiz "bbb" "abcdefghijklmnopqrxyz" "" "Tempe" "Arizona" "".

(** two names of 1001 letters: 1000 bigrams each, 849 of them shared *)
Definition a849 : Biz := rawBiz "yelp" (repeatChar "a" 1001) "" "Mesa" "Arizona" "".
Definition b849 : Biz :=
  rawBiz "bbb" (repeatChar "a" 850 +:+ repeatChar "b" 151) "" "Tempe" "Arizona" "".

(** equal seven-digit phones, nothing else in common *)
Definition p7a : Biz := rawBiz "yelp" "Alpha Plumbing" "555-1234" "Mesa" "Arizona" "".
Definition p7b : Biz := rawBiz "bbb" "Zeta Dental" "5551234" "Tempe" "Arizona" "".

(** equal ten-digit phones, nothing else in common *)
Definition p10a : Biz := rawBiz "yelp" "Alpha Plumbing" "(555) 111-2222" "Mesa" "Arizona" "".
Definition p10b : Biz := rawBiz "bbb" "Zeta Dental" "5551112222" "Tempe" "Ohio" "zeta.example".

(** the name of [p10a] under another ten-digit phone *)
Definition p10c : Biz := rawBiz "yp" "Alpha Plumbing" "(555) 999-0000" "Mesa" "Arizona" "".


Definition sunrise : Biz :=
  rawBiz "yelp" "Sunrise Bakery LLC" "(555) 111-2222" "Mesa" "Arizona" "".

(** a name match that depends on the locality, both localities empty *)
Definition e0 : Biz := rawBiz "yelp" "abcdefghijklmnopqrstu" "" "" "Arizona" "".
Definition r0 : Biz := rawBiz "bbb" "abcdefghijklmnopqrxyz" "" "" "Arizona" "".
Definition x0 : Biz := rawBiz "yp" "abcdefghijklmnopqrstu" "" "Mesa" "Arizona" "".

End Samples.

(** ** Enrichment: contacts, email-pattern inference, MX verification *)

(** the confidence tags of a contact *)
Inductive Confidence : Type :=
| Found | Verified | Inferred | InferredMxOk | InferredNoMx | NoMx | Whois.

Definition conf_eqb (x y : Confidence) : bool :=
  match x, y with
  | Found, Found | Verified, Verified | Inferred, Inferred
  | InferredMxOk, InferredMxOk | InferredNoMx, InferredNoMx
  | NoMx, NoMx | Whois, Whois => true
  | _, _ => false
  end.

(** the string the source stores for each tag *)
Definition confidenceTag (c : Confidence) : string :=
  match c with
  | Found => "found"
  | Verified => "verified"
  | Inferred => "inferred"
  | InferredMxOk => "inferred_mx_ok"
  | InferredNoMx => "inferred_no_mx"
  | NoMx => "no_mx"
  | Whois => "whois"
  end.

Record Contact : Type := mkContact {
  email : string;
  first_name : string;
  last_name : string;
  title : string;
  c_phone : string;
  confidence : Confidence;
  source_page : string
}.

(** an entry of [namesWithoutEmails] *)
Record Person : Type := mkPerson {
  p_first_name : string;
  p_last_name : string;
  p_title : string;
  p_phone : string;
  p_source_page : string
}.

Definition setConfidence (c : Contact) (k : Confidence) : Contact :=
  {| email := email c; first_name := first_name c; last_name := last_name c;
     title := title c; c_phone := c_phone c; confidence := k;
     source_page := source_page c |}.

Module Infer.

(** the keys of [patterns], in insertion order *)
Inductive Pattern : Type :=
| PFirst | PFirstDotLast | PFirstLast | PFLast | PFirst_Last | PFirstL | PLast.

Definition patternName (p : Pattern) : string :=
  match p with
  | PFirst => "first"
  | PFirstDotLast => "first.last"
  | PFirstLast => "firstlast"
  | PFLast => "flast"
  | PFirst_Last => "first_last"
  | PFirstL => "firstl"
  | PLast => "last"
  end.

Definition pattern_eqb (x y : Pattern) : bool :=
  match x, y with
  | PFirst, PFirst | PFirstDotLast, PFirstDotLast | PFirstLast, PFirstLast
  | PFLast, PFLast | PFirst_Last, PFirst_Last | PFirstL, PFirstL
  | PLast, PLast => true
  | _, _ => false
  end.

Definition allPatterns : list Pattern :=
  [PFirst; PFirstDotLast; PFirstLast; PFLast; PFirst_Last; PFirstL; PLast].

(** the object literal [patterns]: every key at count 0 *)
Definition noVotes : list (Pattern * nat) :=
  [(PFirst, 0); (PFirstDotLast, 0); (PFirstLast, 0); (PFLast, 0);
   (PFirst_Last, 0); (PFirstL, 0); (PLast, 0)].

(** [patterns[p]++] *)
Definition bump (p : Pattern) (t : list (Pattern * nat)) : list (Pattern * nat) :=
  List.map (fun e => if pattern_eqb (fst e) p then (fst e, S (snd e)) else e) t.

(** the body of the first loop of [detectEmailPattern]: the key whose count
    the contact increments, if any *)
Definition voteOf (c : Contact) : option Pattern :=
  if negb (Js.truthy (email c)) || negb (Js.truthy (first_name c))
     || negb (Js.truthy (last_name c)) then None else
  let local := Js.toLowerCase (Js.beforeChar "@" (email c)) in
  let f := Js.toLowerCase (first_name c) in
  let l := Js.toLowerCase (last_name c) in
  if negb (Js.truthy f) || negb (Js.truthy l) then None else
  if String.eqb local f then Some PFirst
  else if String.eqb local (f +:+ "." +:+ l) then Some PFirstDotLast
  else if String.eqb local (f +:+ l) then Some PFirstLast
  else if String.eqb local (Js.firstChar f +:+ l) then Some PFLast
  else if String.eqb local (f +:+ "_" +:+ l) then Some PFirst_Last
  else if String.eqb local (f +:+ Js.firstChar l) then Some PFirstL
  else if String.eqb local l then Some PLast
  else None.

Definition tally (contacts : list Contact) : list (Pattern * nat) :=
  fold_left (fun t c => match voteOf c with Some p => bump p t | None => t end)
            contacts noVotes.

(** the second loop: [if (count > bestCount) { best = pat; bestCount = count }] *)
Definition pickStep (st : option Pattern * nat) (e : Pattern * nat) : option Pattern * nat :=
  if Nat.ltb (snd st) (snd e) then (Some (fst e), snd e) else st.

Definition pickBest (t : list (Pattern * nat)) : option Pattern * nat :=
  fold_left pickStep t (None, 0).

Definition detectEmailPattern (contacts : list Contact) : option Pattern :=
  let r := pickBest (tally contacts) in
  if Nat.leb 1 (snd r) then fst r else None.

(** [[^a-z]] removed *)
Definition lettersOnly (s : string) : string := Js.filter Js.isLower s.

Definition generateEmail (p : Pattern) (fname lname domain : string) : option string :=
  let f := lettersOnly (Js.toLowerCase fname) in
  let l := lettersOnly (Js.toLowerCase lname) in
  if negb (Js.truthy f) || negb (Js.truthy l) then None else
  Some (match p with
        | PFirst => f +:+ "@" +:+ domain
        | PFirstDotLast => f +:+ "." +:+ l +:+ "@" +:+ domain
        | PFirstLast => f +:+ l +:+ "@" +:+ domain
        | PFLast => Js.firstChar f +:+ l +:+ "@" +:+ domain
        | PFirst_Last => f +:+ "_" +:+ l +:+ "@" +:+ domain
        | PFirstL => f +:+ Js.firstChar l +:+ "@" +:+ domain
        | PLast => l +:+ "@" +:+ domain
        end).

(** *** The vote count in words *)

(** the local part pattern [p] expects for the lowercased names [f] and [l] *)
Definition candidate (p : Pattern) (f l : string) : string :=
  match p with
  | PFirst => f
  | PFirstDotLast => f +:+ "." +:+ l
  | PFirstLast => f +:+ l
  | PFLast => Js.firstChar f +:+ l
  | PFirst_Last => f +:+ "_" +:+ l
  | PFirstL => f +:+ Js.firstChar l
  | PLast => l
  end.

(** One vote for each contact: a contact with an email, a first and a last
    name votes for the first candidate, in enumeration order, that its local
    part equals, and for no other. *)
Definition specVote (c : Contact) : option Pattern :=
  match email c, first_name c, last_name c with
  | String _ _, String _ _, String _ _ =>
      List.find (fun p => String.eqb (Js.toLowerCase (Js.beforeChar "@" (email c)))
                            (candidate p (Js.toLowerCase (first_name c))
                                         (Js.toLowerCase (last_name c))))
                allPatterns
  | _, _, _ => None
  end.

Definition votesFor (p : Pattern) (contacts : list Contact) : nat :=
  length (List.filter (fun c => match specVote c with
                                | Some q => pattern_eqb q p
                                | None => false
                                end) contacts).

(** the pattern with the highest vote count, at least 1, the first such in
    enumeration order; none when every count is zero *)
Definition specDetect (contacts : list Contact) : option Pattern :=
  let top := list_max (List.map (fun p => votesFor p contacts) allPatterns) in
  if Nat.eqb top 0 then None
  else List.find (fun p => Nat.eqb (votesFor p contacts) top) allPatterns.

(** *** The count of every exact match *)

(** the contact takes part: it has an email, a first and a last name *)
Definition takesPart (c : Contact) : bool :=
  Js.truthy (email c) && Js.truthy (first_name c) && Js.truthy (last_name c).

(** the local part of the contact's email equals the candidate of [p] *)
Definition matches (c : Contact) (p : Pattern) : bool :=
  String.eqb (Js.toLowerCase (Js.beforeChar "@" (email c)))
             (candidate p (Js.toLowerCase (first_name c)) (Js.toLowerCase (last_name c))).

(** the number of contacts whose local part equals the candidate of [p]; a
    contact whose local part equals several candidates counts for each *)
Definition matchCount (p : Pattern) (contacts : list Contact) : nat :=
  length (List.filter (fun c => takesPart c && matches c p) contacts).

(** the pattern with the highest match count, at least 1, the first such in
    enumeration order *)
Definition matchDetect (contacts : list Contact) : option Pattern :=
  let top := list_max (List.map (fun p => matchCount p contacts) allPatterns) in
  if Nat.eqb top 0 then None
  else List.find (fun p => Nat.eqb (matchCount p contacts) top) allPatterns.

(** the local part of the contact equals at most one candidate *)
Definition unambiguous (c : Contact) : Prop :=
  forall p q, matches c p = true -> matches c q = true -> p = q.

(** the vote of one contact for [p], as a number *)
Definition voteWeight (p : Pattern) (c : Contact) : nat :=
  match specVote c with
  | Some q => if pattern_eqb q p then 1 else 0
  | None => 0
  end.

(** the [patterns] object holding count [g p] under each key [p] *)
Definition table (g : Pattern -> nat) : list (Pattern * nat) :=
  List.map (fun p => (p, g p)) allPatterns.

End Infer.

Module Enrich.

(** [s.includes(t)] *)
Fixpoint includes (t s : string) : bool :=
  Js.startsWith t s ||
  match s with
  | EmptyString => false
  | String _ r => includes t r
  end.

Fixpoint lastChar (s : string) : option ascii :=
  match s with
  | EmptyString => None
  | String c EmptyString => Some c
  | String _ r => lastChar r
  end.

Definition SKIP_EMAILS : list string :=
  ["noreply"; "no-reply"; "donotreply"; "admin@"; "webmaster@"; "postmaster@";
   "hostmaster@"; "abuse@"; "privacy@"; "ssl@"; "info@example"; "test@";
   "example@"; "placeholder@"; "dummy@"; "fake@"; "sentry"; "wordpress";
   "wixpress"; "squarespace"; "godaddy"; "cloudflare"; "w3.org"; "schema.org";
   "googleapis"; "jquery"; "bootstrapcdn"; "cookie"; "email@email";
   "support@wix"; "sample@"; "demo@"; "user@"; "username@"; "@sentry";
   "change@me"; "your@email"; "name@company"; ".png"; ".jpg"; ".gif"; ".css";
   ".js"; ".svg"; ".woff"].

(** the number of ["@"] in [s]; [s.split('@').length] is one more *)
Fixpoint countAt (s : string) : nat :=
  match s with
  | EmptyString => 0
  | String c r => (if Ascii.eqb c "@" then 1 else 0) + countAt r
  end.

Definition validEmail (e : string) : bool :=
  if negb (Js.truthy e) || Nat.ltb 80 (String.length e) || Nat.ltb (String.length e) 6
  then false else
  let l := Js.toLowerCase e in
  if existsb (fun s => includes s l) SKIP_EMAILS then false else
  if negb (Nat.eqb (countAt l) 1) then false else
  match Js.afterChar "@" l with
  | None => false
  | Some domain =>
      if negb (includes "." domain)
         || match lastChar domain with Some c => Ascii.eqb c "." | None => false end
         || Js.startsWith "." domain
      then false else true
  end.

(** the non-empty pieces of [s.trim().split(/\s+/)] *)
Fixpoint words (cur : string) (s : string) : list string :=
  match s with
  | EmptyString => match cur with EmptyString => [] | _ => [cur] end
  | String c r =>
      if Js.isSpace c
      then match cur with EmptyString => words EmptyString r | _ => cur :: words EmptyString r end
      else words (cur +:+ String c EmptyString) r
  end.

Fixpoint joinSp (l : list string) : string :=
  match l with
  | [] => EmptyString
  | [w] => w
  | w :: r => w +:+ " " +:+ joinSp r
  end.

Definition firstName (full : string) : string :=
  match words EmptyString full with
  | [] => EmptyString
  | w :: _ => w
  end.

Definition lastName (full : string) : string :=
  match words EmptyString full with
  | _ :: (_ :: _) as r => joinSp r
  | _ => EmptyString
  end.

(** what [extractContacts] returns for one page, as far as contacts go *)
Record Extraction : Type := mkExtraction {
  ex_contacts : list Contact;
  ex_names : list Person
}.

(** the registrant of a [lookupWhois] result *)
Record Registrant : Type := mkRegistrant {
  reg_name : string;
  reg_email : string;
  reg_phone : string
}.

(** What the network returns during one call of [enrichBusiness]:
    [resolveUrl] ([None] is [null]; the string may be empty, which the guard
    [if (!baseUrl)] treats like [null]), the homepage, the pages of
    [findPages(...).slice(1)] in order ([None] is a failed fetch),
    [lookupWhois], and for each mail domain the number of MX records
    [dnsResolveMx] yields ([None] is a rejected lookup).  Within one call
    every domain is resolved at most once, since each lookup is cached. *)
Record Site : Type := mkSite {
  baseUrl : option string;
  homepage : option Extraction;
  subpages : list (option Extraction);
  whois : option Registrant;
  dns : string -> option nat
}.

(** the contacts collected so far and the set [allEmails] guarding them *)
Record Acc : Type := mkAcc {
  allContacts : list Contact;
  allEmails : gset string;
  allNamesNoEmail : list Person
}.

(** [if (!allEmails.has(c.email)) { allEmails.add(c.email); allContacts.push(c) }] *)
Definition addContact (a : Acc) (c : Contact) : Acc :=
  if bool_decide (email c ∈ allEmails a) then a
  else {| allContacts := allContacts a ++ [c];
          allEmails := {[ email c ]} ∪ allEmails a;
          allNamesNoEmail := allNamesNoEmail a |}.

(** the merge of one page: its contacts, then its names without email *)
Definition addPage (a : Acc) (x : Extraction) : Acc :=
  let a' := fold_left addContact (ex_contacts x) a in
  {| allContacts := allContacts a';
     allEmails := allEmails a';
     allNamesNoEmail := allNamesNoEmail a' ++ ex_names x |}.

Definition namedCount (a : Acc) : nat :=
  length (List.filter (fun c => Js.truthy (first_name c)) (allContacts a)).

(** the subpage loop: a failed fetch is skipped; after a merged page the loop
    ends as soon as five contacts have a first name *)
Fixpoint addSubpages (a : Acc) (pages : list (option Extraction)) : Acc :=
  match pages with
  | [] => a
  | None :: r => addSubpages a r
  | Some x :: r =>
      let a' := addPage a x in
      if Nat.leb 5 (namedCount a') then a' else addSubpages a' r
  end.

(** the registrant contact *)
Definition addWhois (a : Acc) (w : option Registrant) : Acc :=
  match w with
  | None => a
  | Some reg =>
      if Js.truthy (reg_email reg) && validEmail (reg_email reg)
         && negb (bool_decide (Js.toLowerCase (reg_email reg) ∈ allEmails a))
      then
        let e := Js.toLowerCase (reg_email reg) in
        {| allContacts := allContacts a ++
             [mkContact e (firstName (reg_name reg)) (lastName (reg_name reg))
                        "Owner (WHOIS)" (reg_phone reg) Whois "WHOIS/RDAP"];
           allEmails := {[ e ]} ∪ allEmails a;
           allNamesNoEmail := allNamesNoEmail a |}
      else a
  end.

(** one person of the inference loop *)
Definition inferOne (p : Infer.Pattern) (domain : string) (a : Acc) (person : Person) : Acc :=
  match Infer.generateEmail p (p_first_name person) (p_last_name person) domain with
  | None => a
  | Some inferredEmail =>
      if bool_decide (inferredEmail ∈ allEmails a) then a
      else {| allContacts := allContacts a ++
                [mkContact inferredEmail (p_first_name person) (p_last_name person)
                           (p_title person) (p_phone person) Inferred
                           (p_source_page person)];
              allEmails := {[ inferredEmail ]} ∪ allEmails a;
              allNamesNoEmail := allNamesNoEmail a |}
  end.

(** the inference step: the pattern is detected once, before the loop *)
Definition inferContacts (domain : string) (a : Acc) : Acc :=
  match Infer.detectEmailPattern (allContacts a) with
  | None => a
  | Some p => fold_left (inferOne p domain) (allNamesNoEmail a) a
  end.

(** [baseUrl] without scheme, [www.] and path *)
Definition domainOf (base : string) : string :=
  ER.stripPath (Js.stripPrefix "www." (ER.stripScheme base)).

(** *** MX verification *)

(** [verifyEmailMx], threading [mxCache] *)
Definition verifyEmailMx (dns : string -> option nat) (e : string)
    (cache : gmap string bool) : bool * gmap string bool :=
  match Js.splitSecond "@" e with
  | None => (false, cache)
  | Some domain =>
      if negb (Js.truthy domain) then (false, cache) else
      match cache !! domain with
      | Some v => (v, cache)
      | None =>
          match dns domain with
          | Some n => let valid := Nat.ltb 0 n in (valid, <[ domain := valid ]> cache)
          | None => (false, <[ domain := false ]> cache)
          end
      end
  end.

(** the two branches of the verification loop *)
Definition applyMx (mxValid : bool) (k : Confidence) : Confidence :=
  if mxValid then
    let k1 := if conf_eqb k Found then Verified else k in
    if conf_eqb k1 Inferred then InferredMxOk else k1
  else
    if conf_eqb k Inferred then InferredNoMx else NoMx.

(** the verification loop over [allContacts] *)
Fixpoint verifyAll (dns : string -> option nat) (cs : list Contact)
    (cache : gmap string bool) : list Contact * gmap string bool :=
  match cs with
  | [] => ([], cache)
  | c :: r =>
      let '(mxValid, cache1) := verifyEmailMx dns (email c) cache in
      let c' := setConfidence c (applyMx mxValid (confidence c)) in
      let '(r', cache2) := verifyAll dns r cache1 in
      (c' :: r', cache2)
  end.

(** the contacts gathered before verification: homepage, subpages, WHOIS,
    inference *)
Definition gather (site : Site) (base : string) (home : Extraction) : Acc :=
  let a0 := addPage (mkAcc [] ∅ []) home in
  let a1 := addSubpages a0 (subpages site) in
  let a2 := addWhois a1 (whois site) in
  inferContacts (domainOf base) a2.

(** [enrichBusiness], as far as the contact list goes: the [contacts] of the
    returned business and the cache left behind.  Company facts, the age
    fields and the backfill of [phone] and [address] do not touch the
    contacts and are not modelled. *)
Definition enrichBusiness (b : Biz) (site : Site) (cache : gmap string bool)
    : list Contact * gmap string bool :=
  if negb (Js.truthy (website b)) then ([], cache) else
  match baseUrl site with
  | None => ([], cache)
  | Some base =>
      if negb (Js.truthy base) then ([], cache) else
      match homepage site with
      | None => ([], cache)
      | Some home => verifyAll (dns site) (allContacts (gather site base home)) cache
      end
  end.

(** *** The verification step in the words of the specification *)




(** the emails of the contacts are pairwise distinct and all in [allEmails] *)
Definition accOk (a : Acc) : Prop :=
  NoDup (List.map email (allContacts a))
  /\ (forall e, In e (List.map email (allContacts a)) -> e ∈ allEmails a).




End Enrich.

(** *** Sample contacts *)

Module EnrichSamples.

Definition john : Contact :=
  mkContact "john.smith@x.com" "John" "Smith" "" "" Found "https://x.com".
Definition jane : Contact :=
  mkContact "jane.doe@x.com" "Jane" "Doe" "" "" Found "https://x.com".
Definition sarah : Person := mkPerson "Sarah" "Jones" "" "" "https://x.com/team".
Definition sarahInferred : Contact :=
  mkContact "sarah.jones@x.com" "Sarah" "Jones" "" "" Inferred "https://x.com/team".
(** an address already on the site under no name *)
Definition sarahKnown : Contact :=
  mkContact "sarah.jones@x.com" "" "" "" "" Found "https://x.com/contact".
Definition owner : Enrich.Registrant := Enrich.mkRegistrant "Pat Owner" "Pat@X.com" "".

(** two contacts whose first and last names agree, and one who writes
    under the last name *)
Definition lee : Contact := mkContact "lee@x.com" "Lee" "Lee" "" "" Found "https://x.com".
Definition kim : Contact := mkContact "kim@x.com" "Kim" "Kim" "" "" Found "https://x.com".
Definition park : Contact := mkContact "park@x.com" "Jo" "Park" "" "" Found "https://x.com".

(** a resolver that knows MX records for [x.com] only *)
Definition dnsX (d : string) : option nat :=
  if String.eqb d "x.com" then Some 2 else Some 0.
(** a resolver whose every lookup is rejected *)
Definition dnsNone (d : string) : option nat := None.

Definition siteX (dns : string -> option nat) : Enrich.Site :=
  Enrich.mkSite (Some "https://www.x.com")
    (Some (Enrich.mkExtraction [john; jane] []))
    [None; Some (Enrich.mkExtraction [jane] [sarah])]
    (Some owner) dns.

Definition bizX : Biz := rawBiz "yelp" "X Bakery" "" "Mesa" "Arizona" "x.com".

End EnrichSamples.

(** ** The scheduler of [run]: global dedup, resume, chunk output *)

Module Sched.

(** the classes [[a-z0-9]] and [[a-z]] kept by [dedupKey] *)
Definition isLowerOrDigit (c : ascii) : bool := Js.isLower c || Js.isDigit c.

Definition dedupKey (b : Biz) : string :=
  let n := Js.filter isLowerOrDigit (Js.toLowerCase (company_name b)) in
  let c := Js.filter Js.isLower (Js.toLowerCase (city b)) in
  let s := Js.filter Js.isLower (Js.toLowerCase (state b)) in
  n +:+ "|" +:+ c +:+ "|" +:+ s.

(** [biz.stateKey = stKey] *)
Definition tagState (stKey : string) (b : Biz) : Biz :=
  {| source := source b; company_name := company_name b; phone := phone b;
     address := address b; city := city b; state := state b;
     website := website b; industry := industry b; sources := sources b;
     stateKey := stKey |}.

(** the variables of [run] that discovery updates *)
Record State : Type := mkState {
  allBiz : list Biz;
  globalSeen : gset string;
  catCounts : gmap string nat;
  chunkBiz : list Biz
}.

(** [catCounts[cat] || 0] *)
Definition countOf (st : State) (cat : string) : nat :=
  default 0 (catCounts st !! cat).

(** The loop over the [results] of one work unit: a record whose key is in
    [globalSeen] is skipped; any other is tagged and pushed on [allBiz] and
    [chunkBiz]; the loop ends when the category reaches [maxPerCat]. *)
Fixpoint acceptResults (maxPerCat : nat) (cat stKey : string)
    (results : list Biz) (st : State) : State :=
  match results with
  | [] => st
  | biz :: rest =>
      let key := dedupKey biz in
      if bool_decide (key ∈ globalSeen st) then acceptResults maxPerCat cat stKey rest st
      else
        let biz' := tagState stKey biz in
        let st' := {| allBiz := allBiz st ++ [biz'];
                      globalSeen := {[ key ]} ∪ globalSeen st;
                      catCounts := <[ cat := countOf st cat + 1 ]> (catCounts st);
                      chunkBiz := chunkBiz st ++ [biz'] |} in
        if Nat.leb maxPerCat (countOf st' cat) then st'
        else acceptResults maxPerCat cat stKey rest st'
  end.

(** a work unit with the records its source returned *)
Record Unit : Type := mkUnit {
  u_cat : string;
  u_stKey : string;
  u_results : list Biz
}.

(** discovery replayed over a sequence of work units *)
Definition replay (maxPerCat : nat) (units : list Unit) (st : State) : State :=
  fold_left (fun s u => acceptResults maxPerCat (u_cat u) (u_stKey u) (u_results u) s)
            units st.

(** the state at the start of a fresh run *)
Definition freshState : State := mkState [] ∅ ∅ [].

(** The resume branch of [run]: [allBiz] and [catCounts] come from the
    checkpoint, [globalSeen] is filled with one key for each saved entity. *)
Definition resume (savedBiz : list Biz) (savedCounts : gmap string nat) : State :=
  {| allBiz := savedBiz;
     globalSeen := fold_left (fun s b => {[ dedupKey b ]} ∪ s) savedBiz ∅;
     catCounts := savedCounts;
     chunkBiz := [] |}.

(** *** Rows and the sheet sink *)

(** A row of [toRows], by its origin: the business and, for a business with
    contacts, the contact the row was built from. *)
Record Row : Type := mkRow {
  row_biz : Biz;
  row_contact : option Contact
}.

(** a business on its way to the sheet: the record and its [contacts] *)
Record Out : Type := mkOut {
  o_biz : Biz;
  o_contacts : list Contact
}.

Definition toRows (o : Out) : list Row :=
  match o_contacts o with
  | [] => [mkRow (o_biz o) None]
  | cs => List.map (fun c => mkRow (o_biz o) (Some c)) cs
  end.

(** what the run does to the outside, in order *)
Inductive Event : Type :=
| SinkAppend (tab : string) (rows : list Row)   (* an append request that succeeded *)
| SinkError (tab : string)                      (* an append request that threw *)
| EnrichBegin (b : Biz).                        (* a call of [enrichBusiness] *)

(** [rowBuffer], the events so far, and the outcomes of the append requests
    still to come ([true]: accepted; an exhausted list accepts) *)
Record Sink : Type := mkSink {
  rowBuffer : list Row;
  trace : list Event;
  outcomes : list bool
}.

Definition batchSize : nat := 10.

(** the append request shared by [batchPushRows] and [flushRows]: on success
    the buffer is emptied, on an error it is kept *)
Definition tryAppend (tab : string) (s : Sink) : Sink :=
  match outcomes s with
  | false :: os =>
      {| rowBuffer := rowBuffer s; trace := trace s ++ [SinkError tab]; outcomes := os |}
  | true :: os =>
      {| rowBuffer := []; trace := trace s ++ [SinkAppend tab (rowBuffer s)]; outcomes := os |}
  | [] =>
      {| rowBuffer := []; trace := trace s ++ [SinkAppend tab (rowBuffer s)]; outcomes := [] |}
  end.

(** [batchPushRows(tab, [o])], with [sheetsApi] set *)
Definition batchPushRows (tab : string) (o : Out) (s : Sink) : Sink :=
  let s' := {| rowBuffer := rowBuffer s ++ toRows o; trace := trace s;
               outcomes := outcomes s |} in
  if Nat.leb batchSize (length (rowBuffer s')) then tryAppend tab s' else s'.

(** [flushRows(tab)] *)
Definition flushRows (tab : string) (s : Sink) : Sink :=
  match rowBuffer s with
  | [] => s
  | _ => tryAppend tab s
  end.

(** [for (const k of targetStates) await flushRows(STATES[k].tab)] *)
Definition flushAll (tabs : list string) (s : Sink) : Sink :=
  fold_left (fun s t => flushRows t s) tabs s.

(** The environment of the output step: the tab of each state key
    ([STATES[k]?.tab]), [guessStateTab], the tabs of the target states, what
    [enrichBusiness] returns for a business ([None]: it throws) and
    [isStopped()] at each turn of the enrichment loop. *)
Record Env : Type := mkEnv {
  tabOf : string -> option string;
  guessStateTab : Biz -> string;
  targetTabs : list string;
  enrich : Biz -> option Out;
  stoppedAt : nat -> bool
}.

(** [b.stateKey ? STATES[b.stateKey]?.tab : guessStateTab(b)] *)
Definition tabFor (env : Env) (b : Biz) : option string :=
  if Js.truthy (stateKey b) then tabOf env (stateKey b) else Some (guessStateTab env b).

(** [if (tab) await batchPushRows(tab, [o])] *)
Definition pushTo (env : Env) (o : Out) (s : Sink) : Sink :=
  match tabFor env (o_biz o) with
  | Some (String _ _ as tab) => batchPushRows tab o s
  | _ => s
  end.

(** "Push no-website businesses immediately" *)
Definition pushNoSites (env : Env) (noSites : list Biz) (s : Sink) : Sink :=
  match noSites with
  | [] => s
  | _ => flushAll (targetTabs env)
           (fold_left (fun s b => pushTo env (mkOut b []) s) noSites s)
  end.

(** the enrichment loop from index [i]; the result says whether the run
    returned at a stop request *)
Fixpoint enrichLoop (env : Env) (i : nat) (withSites : list Biz) (s : Sink) : Sink * bool :=
  match withSites with
  | [] => (s, false)
  | b :: rest =>
      if stoppedAt env i then (flushAll (targetTabs env) s, true)
      else
        let s1 := {| rowBuffer := rowBuffer s; trace := trace s ++ [EnrichBegin b];
                     outcomes := outcomes s |} in
        let s2 := match enrich env b with
                  | Some eb => pushTo env eb s1
                  | None => pushTo env (mkOut b []) s1
                  end in
        enrichLoop env (S i) rest s2
  end.

(** step 3 of a category turn; an empty chunk ends the turn before it *)
Definition outputChunk (env : Env) (chunk : list Biz) (s : Sink) : Sink :=
  match chunk with
  | [] => s
  | _ =>
      let withSites := List.filter (fun b => Js.truthy (website b)) chunk in
      let noSites := List.filter (fun b => negb (Js.truthy (website b))) chunk in
      let s1 := pushNoSites env noSites s in
      let '(s2, stopped) := enrichLoop env 0 withSites s1 in
      if stopped then s2 else flushAll (targetTabs env) s2
  end.

(** the rows the sink has accepted, in order *)
Fixpoint delivered (tr : list Event) : list Row :=
  match tr with
  | [] => []
  | SinkAppend _ rows :: r => rows ++ delivered r
  | _ :: r => delivered r
  end.

(** the events before the first call of [enrichBusiness] *)
Fixpoint beforeEnrich (tr : list Event) : list Event :=
  match tr with
  | [] => []
  | EnrichBegin _ :: _ => []
  | e :: r => e :: beforeEnrich r
  end.

Definition isEnrichBegin (e : Event) : bool :=
  match e with EnrichBegin _ => true | _ => false end.

(** the rows of the chunk's businesses without a website *)
Definition noSiteRows (chunk : list Biz) : list Row :=
  List.map (fun b => mkRow b None)
           (List.filter (fun b => negb (Js.truthy (website b))) chunk).

(** the business has a sheet tab to go to *)
Definition hasTab (env : Env) (b : Biz) : bool :=
  match tabFor env b with
  | Some (String _ _) => true
  | _ => false
  end.

(** what the enrichment loop pushes for [b]: the result of
    [enrichBusiness], or [b] itself when the call throws *)
Definition enriched (env : Env) (b : Biz) : Out :=
  match enrich env b with
  | Some eb => eb
  | None => mkOut b []
  end.

(** the rows [pushTo] adds to the buffer *)
Definition pushedRows (env : Env) (o : Out) : list Row :=
  if hasTab env (o_biz o) then toRows o else [].

(** every row handed to the sheet code so far: accepted or still buffered *)
Definition pushed (s : Sink) : list Row := delivered (trace s) ++ rowBuffer s.

(** [tr'] continues [tr] with sink events only *)
Definition quietExt (tr tr' : list Event) : Prop :=
  exists evs, tr' = tr ++ evs /\ existsb isEnrichBegin evs = false.

(** the sink accepts every request still to come *)
Definition accepting (s : Sink) : Prop := forallb (fun o => o) (outcomes s) = true.

Definition withSitesOf (chunk : list Biz) : list Biz :=
  List.filter (fun b => Js.truthy (website b)) chunk.

Definition noSitesOf (chunk : list Biz) : list Biz :=
  List.filter (fun b => negb (Js.truthy (website b))) chunk.

End Sched.

(** *** Sample chunk *)

Module SchedSamples.

Definition plain1 : Biz := mkBiz "yelp" "Ace Roofing" "" "" "Mesa" "Arizona" "" "roofer" None "AZ".
Definition plain2 : Biz := mkBiz "bbb" "Bolt Electric" "" "" "Tempe" "Arizona" "" "roofer" None "AZ".
Definition plain3 : Biz := mkBiz "yp" "Cedar Fence" "" "" "Yuma" "Arizona" "" "roofer" None "AZ".
Definition site1 : Biz :=
  mkBiz "yp" "Delta Roofing" "" "" "Mesa" "Arizona" "delta.example" "roofer" None "AZ".
Definition site2 : Biz :=
  mkBiz "yp" "Echo Roofing" "" "" "Mesa" "Arizona" "echo.example" "roofer" None "AZ".

Definition chunk5 : list Biz := [plain1; site1; plain2; site2; plain3].

Definition env1 : Sched.Env :=
  Sched.mkEnv (fun k => if String.eqb k "AZ" then Some "Arizona" else None)
              (fun _ => "Other") ["Arizona"]
              (fun b => Some (Sched.mkOut b [EnrichSamples.john]))
              (fun _ => false).

End SchedSamples.

(** ** The per-unit discovery functions and the Yelp circuit breaker *)

Module Breaker.

Inductive Source : Type := YP | Yelp | BBB | GMaps.

(** what a page load can give a discovery function: no usable HTML (for
    Yelp also a page shorter than 2000 characters), a challenge page, or a
    page from which the listed businesses are parsed *)
Inductive Response : Type :=
| NoHtml
| Challenge
| Listing (found : list Biz).

(** the module-level counter [_yelpConsecutiveFails], the [skipped] counter
    of the Yelp statistics, and the number of page loads per source *)
Record Net : Type := mkNet {
  yelpConsecutiveFails : nat;
  yelpSkipped : nat;
  pageLoads : Source -> nat
}.

Definition source_eqb (x y : Source) : bool :=
  match x, y with
  | YP, YP | Yelp, Yelp | BBB, BBB | GMaps, GMaps => true
  | _, _ => false
  end.

(** one call of [navigateAndWait] for [src] *)
Definition load (src : Source) (n : Net) : Net :=
  {| yelpConsecutiveFails := yelpConsecutiveFails n;
     yelpSkipped := yelpSkipped n;
     pageLoads := fun s => if source_eqb s src then S (pageLoads n s) else pageLoads n s |}.

Definition setFails (k : nat) (n : Net) : Net :=
  {| yelpConsecutiveFails := k; yelpSkipped := yelpSkipped n; pageLoads := pageLoads n |}.

(** [discoverYelpSingle]; [resp] is what the page load returns if it is made *)
Definition discoverYelpSingle (resp : Response) (n : Net) : list Biz * Net :=
  if Nat.leb 5 (yelpConsecutiveFails n)
  then ([], {| yelpConsecutiveFails := yelpConsecutiveFails n;
               yelpSkipped := S (yelpSkipped n);
               pageLoads := pageLoads n |})
  else
    let n1 := load Yelp n in
    match resp with
    | NoHtml => ([], setFails (S (yelpConsecutiveFails n1)) n1)
    | Challenge => ([], setFails (S (yelpConsecutiveFails n1)) n1)
    | Listing biz =>
        match biz with
        | [] => ([], setFails (S (yelpConsecutiveFails n1)) n1)
        | _ => (biz, setFails 0 n1)
        end
    end.

(** [discoverBBBSingle] and [discoverGMapsSingle]: one page load, whatever
    happened before (these functions test no challenge page) *)
Definition discoverPlainSingle (src : Source) (resp : Response) (n : Net) : list Biz * Net :=
  let n1 := load src n in
  match resp with
  | Listing biz => (biz, n1)
  | _ => ([], n1)
  end.

(** [discoverYPSingle]: up to three pages; the loop ends at a page without
    HTML, a challenge page or a page with no new business *)
Fixpoint ypPages (pages : list Response) (acc : list Biz) (n : Net) : list Biz * Net :=
  match pages with
  | [] => (acc, n)
  | resp :: rest =>
      let n1 := load YP n in
      match resp with
      | Listing (b :: bs) => ypPages rest (acc ++ b :: bs) n1
      | _ => (acc, n1)
      end
  end.

Definition discoverYPSingle (p1 p2 p3 : Response) (n : Net) : list Biz * Net :=
  ypPages [p1; p2; p3] [] n.

(** the [switch (src)] of [run]; every page of a Yellow Pages unit answers
    with [resp] *)
Definition discoverSingle (src : Source) (resp : Response) (n : Net) : list Biz * Net :=
  match src with
  | YP => discoverYPSingle resp resp resp n
  | Yelp => discoverYelpSingle resp n
  | BBB => discoverPlainSingle BBB resp n
  | GMaps => discoverPlainSingle GMaps resp n
  end.

(** the work units of one source, run in order *)
Fixpoint runUnits (src : Source) (resps : list Response) (n : Net) : list (list Biz) * Net :=
  match resps with
  | [] => ([], n)
  | r :: rest =>
      let '(found, n1) := discoverSingle src r n in
      let '(others, n2) := runUnits src rest n1 in
      (found :: others, n2)
  end.

(** the variables of [discoverYelp]: [biz], [consecutiveFails], the page
    loads made and the [skipped] counter *)
Record YelpRun : Type := mkYelpRun {
  yr_biz : list Biz;
  yr_fails : nat;
  yr_loads : nat;
  yr_skipped : nat
}.

Definition MAX_FAILS : nat := 5.

(** the loop of [discoverYelp] over the cities of one category; [resps]
    holds what the page of each city returns if it is loaded, and a listing
    is pushed only up to [max] businesses *)
Fixpoint yelpCities (max : nat) (resps : list Response) (st : YelpRun) : YelpRun :=
  match resps with
  | [] => st
  | r :: rest =>
      if Nat.leb max (length (yr_biz st)) || Nat.leb MAX_FAILS (yr_fails st) then st
      else
        match r with
        | Listing found =>
            let new := firstn (max - length (yr_biz st)) found in
            yelpCities max rest
              {| yr_biz := yr_biz st ++ new;
                 yr_fails := match new with [] => S (yr_fails st) | _ => 0 end;
                 yr_loads := S (yr_loads st);
                 yr_skipped := yr_skipped st |}
        | _ =>
            yelpCities max rest
              {| yr_biz := yr_biz st; yr_fails := S (yr_fails st);
                 yr_loads := S (yr_loads st); yr_skipped := yr_skipped st |}
        end
  end.

(** the loop of [discoverYelp] over the categories, each with the responses
    of its cities; [total] is [categories.length * cities.length] *)
Fixpoint yelpCategories (max total : nat) (cats : list (list Response))
    (st : YelpRun) : YelpRun :=
  match cats with
  | [] => st
  | resps :: rest =>
      if Nat.leb MAX_FAILS (yr_fails st)
      then {| yr_biz := yr_biz st; yr_fails := yr_fails st; yr_loads := yr_loads st;
              yr_skipped := yr_skipped st + total |}
      else
        let st1 := yelpCities max (firstn 5 resps) st in
        if Nat.leb max (length (yr_biz st1)) then st1
        else yelpCategories max total rest st1
  end.

(** [discoverYelp], without the exception path *)
Definition discoverYelp (max total : nat) (cats : list (list Response)) : YelpRun :=
  yelpCategories max total cats (mkYelpRun [] 0 0 0).

(** a response that counts as a failure for Yelp *)
Definition failed (r : Response) : bool :=
  match r with
  | Listing (_ :: _) => false
  | _ => true
  end.

Definition startNet : Net := mkNet 0 0 (fun _ => 0).

End Breaker.

(** ** Further definitions: shapes of strings, the free bigrams of [dice] *)

Module Shape.

(** every code unit of [s] satisfies [p] *)
Fixpoint allChars (p : ascii -> bool) (s : string) : bool :=
  match s with
  | EmptyString => true
  | String c r => p c && allChars p r
  end.

Definition isBlank (c : ascii) : bool := Ascii.eqb c " ".

(** no two white-space code units in a row *)
Fixpoint noSpaceRun (s : string) : bool :=
  match s with
  | String a r =>
      match r with
      | String b _ => negb (Js.isSpace a && Js.isSpace b) && noSpaceRun r
      | EmptyString => true
      end
  | EmptyString => true
  end.

Definition startsWithSpace (s : string) : bool :=
  match s with
  | String c _ => Js.isSpace c
  | EmptyString => false
  end.

Fixpoint endsWithSpace (s : string) : bool :=
  match s with
  | EmptyString => false
  | String c EmptyString => Js.isSpace c
  | String _ r => endsWithSpace r
  end.

(** the alphabet of a normalized name: [a-z], [0-9] and the blank *)
Definition nameChar (c : ascii) : bool :=
  Js.isLower c || Js.isDigit c || isBlank c.

End Shape.

Module DiceFacts.

(** the bigrams of [bb], counted from index [i], whose index is not in [u]:
    what the inner loop of [dice] can still match *)
Fixpoint free (bb : list ER.bigram) (i : nat) (u : gset nat) : list ER.bigram :=
  match bb with
  | [] => []
  | y :: r => if bool_decide (i ∈ u) then free r (S i) u else y :: free r (S i) u
  end.

(** a bag of bigrams *)
Definition bag (l : list ER.bigram) : gmultiset ER.bigram := list_to_set_disj l.

(** the number of bigrams two strings share, counted with multiplicity *)
Definition shared (a b : string) : nat :=
  size (bag (ER.bigrams a) ∩ bag (ER.bigrams b)).

(** the value of a score as a rational, [None] for [NaN] *)
Definition value (x : jsnum) : option Q :=
  match x with
  | NaN => None
  | Num q => Some q
  end.

End DiceFacts.

Module DedupeFacts.

(** the source list of an entity, empty while [sources] is unset *)
Definition sourcesOf (e : Biz) : list string :=
  match sources e with
  | Some l => l
  | None => []
  end.


(** the entities of a well-formed entity list carry a source list without
    repetition that starts with their own source *)
Definition sourced (e : Biz) : Prop :=
  exists rest, sources e = Some (source e :: rest) /\ NoDup (source e :: rest).

(** some entity of [uniq] lists the source [s] *)
Definition covered (s : string) (uniq : list Biz) : Prop :=
  exists e, In e uniq /\ In s (sourcesOf e).

End DedupeFacts.

Module EnrichFacts.

(** [l] without the later repetitions of a string *)
Fixpoint firstOccurrences (seen : list string) (l : list string) : list string :=
  match l with
  | [] => []
  | x :: r =>
      if ER.inList x seen then firstOccurrences seen r
      else x :: firstOccurrences (x :: seen) r
  end.

(** the confidence has been settled by the MX step *)
Definition settled (k : Confidence) : bool :=
  match k with
  | Found | Inferred => false
  | _ => true
  end.

(** every entry of [c1] is an entry of [c2] *)
Definition cacheWithin (c1 c2 : gmap string bool) : Prop :=
  forall d v, c1 !! d = Some v -> c2 !! d = Some v.

(** the code units a generated local part is made of *)
Definition localChar (c : ascii) : bool :=
  Js.isLower c || Ascii.eqb c "." || Ascii.eqb c "_".

Definition notAt (c : ascii) : bool := negb (Ascii.eqb c "@").

(** a letter A-Z or a-z *)
Definition plainLetter (c : ascii) : bool := Js.isLower c || Js.isUpper c.

Definition notSpace (c : ascii) : bool := negb (Js.isSpace c).

(** a word: not empty and free of white space *)
Definition solid (w : string) : Prop :=
  w <> EmptyString /\ Shape.allChars notSpace w = true.

End EnrichFacts.

Module SchedFacts.

(** the three parts of a dedup key *)
Definition keyName (b : Biz) : string :=
  Js.filter Sched.isLowerOrDigit (Js.toLowerCase (company_name b)).
Definition keyCity (b : Biz) : string :=
  Js.filter Js.isLower (Js.toLowerCase (city b)).
Definition keyState (b : Biz) : string :=
  Js.filter Js.isLower (Js.toLowerCase (state b)).

Definition notBar (c : ascii) : bool := negb (Ascii.eqb c "|").

(** [globalSeen] holds exactly the keys of [allBiz], and no key twice *)
Definition keyed (st : Sched.State) : Prop :=
  NoDup (List.map Sched.dedupKey (Sched.allBiz st))
  /\ Sched.globalSeen st = list_to_set (List.map Sched.dedupKey (Sched.allBiz st)).

End SchedFacts.

Module BreakerFacts.


End BreakerFacts.

(** ** Further functions of [engine.js] *)

Module Util.

(** [s.substring(0, n)] *)
Fixpoint takeStr (n : nat) (s : string) : string :=
  match n, s with
  | O, _ => EmptyString
  | S k, EmptyString => EmptyString
  | S k, String c r => String c (takeStr k r)
  end.

(** an entry of [STATS.recentErrors] *)
Record ErrorEntry : Type := mkErrorEntry {
  err_time : string;
  err_source : string;
  err_msg : string
}.

(** [logError(source, msg)] on the list [STATS.recentErrors]; [time] is the
    clock reading the entry gets *)
Definition logError (time source msg : string) (log : list ErrorEntry) : list ErrorEntry :=
  let log' := log ++ [mkErrorEntry time source (takeStr 100 msg)] in
  if Nat.ltb 20 (length log') then List.tl log' else log'.

(** a series of calls, oldest first, each given as (time, source, message) *)
Definition logErrors (calls : list (string * string * string)) (log : list ErrorEntry)
    : list ErrorEntry :=
  fold_left (fun l c => logError (fst (fst c)) (snd (fst c)) (snd c) l) calls log.

(** the entry a call leaves in the log *)
Definition entryOf (c : string * string * string) : ErrorEntry :=
  mkErrorEntry (fst (fst c)) (snd (fst c)) (takeStr 100 (snd c)).

(** [s.replace(/\/+$/, '')] *)
Fixpoint stripSlashes (s : string) : string :=
  match s with
  | EmptyString => EmptyString
  | String c r =>
      match stripSlashes r with
      | EmptyString => if Ascii.eqb c "/" then EmptyString else String c EmptyString
      | t => String c t
      end
  end.

(** [s.replace(/\/$/, '')] *)
Fixpoint stripLastSlash (s : string) : string :=
  match s with
  | EmptyString => EmptyString
  | String c EmptyString => if Ascii.eqb c "/" then EmptyString else s
  | String c r => String c (stripLastSlash r)
  end.

(** the answer to one request of [resolveUrl]: the request throws, or it
    succeeds and reports a final URL or none *)
Inductive Probe : Type :=
| Throws
| Ok (responseUrl : option string).

Definition prefixes : list string :=
  ["https://www."; "https://"; "http://www."; "http://"].

Fixpoint probeAll (get : string -> Probe) (clean : string) (pres : list string) : option string :=
  match pres with
  | [] => None
  | pre :: rest =>
      match get (pre +:+ clean) with
      | Throws => probeAll get clean rest
      | Ok (Some (String c u)) => Some (stripSlashes (String c u))
      | Ok _ => Some (stripSlashes (pre +:+ clean))
      end
  end.

(** [resolveUrl(domain)] against the answers [get] of the network *)
Definition resolveUrl (get : string -> Probe) (domain : string) : option string :=
  let clean := stripLastSlash (Js.stripPrefix "www." (ER.stripScheme domain)) in
  probeAll get clean prefixes.

Fixpoint endsWithSlash (s : string) : bool :=
  match s with
  | EmptyString => false
  | String c EmptyString => Ascii.eqb c "/"
  | String _ r => endsWithSlash r
  end.

End Util.

Module Finder.

(** the fragments of the two deny patterns of the website step of [run],
    matched without regard to case *)
Definition denyGoogle : list string :=
  ["google."; "youtube."; "yelp."; "yellowpages."; "bbb.org"; "facebook.";
   "instagram."; "twitter."; "linkedin."; "mapquest"; "angi."; "homeadvisor";
   "thumbtack"; "nextdoor"; "tripadvisor"; "pinterest"; "tiktok"; "reddit";
   "wikipedia"].

Definition denyDdg : list string :=
  ["google."; "duckduckgo"; "youtube."; "yelp."; "yellowpages."; "bbb.org";
   "facebook."; "instagram."; "twitter."; "linkedin."; "mapquest"; "angi.";
   "homeadvisor"; "thumbtack"; "nextdoor"; "tripadvisor"; "pinterest";
   "tiktok"; "reddit"; "wikipedia"].

(** [/a|b|.../i.test(href)] for literal fragments *)
Definition denied (deny : list string) (href : string) : bool :=
  existsb (fun s => Enrich.includes s (Js.toLowerCase href)) deny.

(** the callback of the DuckDuckGo pass on a link whose [uddg] target, if
    it has one, has been decoded; [website] is [biz.website] *)
Definition ddgStep (website href : string) : string :=
  if Js.truthy website then website
  else if negb (Js.startsWith "http" href) then website
  else if denied denyDdg href then website
  else if Nat.ltb (String.length href) 200 then Js.beforeChar "?" href
  else website.

(** the callback of the Google pass *)
Definition googleStep (website href : string) : string :=
  if Js.truthy website then website
  else if denied denyGoogle href then website
  else if Js.startsWith "http" href && Nat.ltb (String.length href) 200
       then Js.beforeChar "?" href
  else website.

(** a link of the DuckDuckGo page as the callback gets it: the [href] with
    its [uddg] target decoded, or a link whose [uddg] value makes
    [decodeURIComponent] throw *)
Inductive Link : Type :=
| Decoded (href : string)
| Malformed.

(** how a pass over the links of a page ends: [biz.website] at its end, or
    at the exception that ends it *)
Inductive Pass : Type :=
| Done (website : string)
| Thrown (website : string).

(** The [each] loop over the links of the DuckDuckGo page: the callback
    returns at once when the website is set, and decodes the link before it
    looks at it otherwise. *)
Fixpoint ddgPass (links : list Link) (website : string) : Pass :=
  match links with
  | [] => Done website
  | Decoded href :: rest => ddgPass rest (ddgStep website href)
  | Malformed :: rest =>
      if Js.truthy website then ddgPass rest website else Thrown website
  end.

(** The website step for one business: the links of the DuckDuckGo page,
    then, if no website was found, those of the Google page ([None]: the page
    did not load).  An exception in the first pass leaves the [try] of the
    step, so the Google page is not asked for. *)
Definition findWebsite (ddg : option (list Link)) (google : option (list string))
    (website : string) : string :=
  match match ddg with
        | Some links => ddgPass links website
        | None => Done website
        end with
  | Thrown w => w
  | Done w1 =>
      if negb (Js.truthy w1)
      then match google with
           | Some hrefs => fold_left googleStep hrefs w1
           | None => w1
           end
      else w1
  end.

(** the links before the first malformed one *)
Fixpoint decodedPrefix (links : list Link) : list string :=
  match links with
  | Decoded href :: rest => href :: decodedPrefix rest
  | _ => []
  end.

(** no link is malformed *)
Definition intact (links : list Link) : bool :=
  forallb (fun l => match l with Decoded _ => true | Malformed => false end) links.

(** a link the step may take *)
Definition eligible (deny : list string) (href : string) : bool :=
  Js.startsWith "http" href && negb (denied deny href)
  && Nat.ltb (String.length href) 200.

End Finder.

Module Turn.

(** an entry of [catWork[cat]] with what its discovery call gives; [None]
    when the call throws *)
Record Work : Type := mkWork {
  w_stKey : string;
  w_results : option (list Biz)
}.

(** The discovery loop of one category turn, from index [i] on: [work] is
    [catWork[cat]] from [i], [idx] is [catWorkIdx[cat]], [stopped i] is
    [isStopped()] at index [i].  The result is the state and the cursor. *)
Fixpoint discoverTurn (maxPerCat chunkSize : nat) (cat : string) (stopped : nat -> bool)
    (i : nat) (work : list Work) (st : Sched.State) (idx : nat) : Sched.State * nat :=
  match work with
  | [] => (st, idx)
  | w :: rest =>
      if Nat.leb chunkSize (length (Sched.chunkBiz st)) then (st, idx)
      else if stopped i then (st, i)
      else
        match w_results w with
        | None => discoverTurn maxPerCat chunkSize cat stopped (S i) rest st (S i)
        | Some results =>
            let st' := Sched.acceptResults maxPerCat cat (w_stKey w) results st in
            if Nat.leb maxPerCat (Sched.countOf st' cat) then (st', S i)
            else discoverTurn maxPerCat chunkSize cat stopped (S i) rest st' (S i)
        end
  end.

(** the work units among [work] whose discovery call returned *)
Fixpoint unitsOf (cat : string) (work : list Work) : list Sched.Unit :=
  match work with
  | [] => []
  | w :: rest =>
      match w_results w with
      | Some results => Sched.mkUnit cat (w_stKey w) results :: unitsOf cat rest
      | None => unitsOf cat rest
      end
  end.

End Turn.

Module Tabs.

(** the keys, names and tabs of [STATES] *)
Definition STATES : list (string * (string * string)) :=
  [("AZ", ("Arizona", "Arizona")); ("NV", ("Nevada", "Nevada")); ("OH", ("Ohio", "Ohio"));
   ("ID", ("Idaho", "Idaho")); ("WA", ("Washington", "Washington"))].

(** [STATES[k]?.tab] *)
Fixpoint tabOfKey (table : list (string * (string * string))) (k : string) : option string :=
  match table with
  | [] => None
  | (key, (_, tab)) :: rest => if String.eqb key k then Some tab else tabOfKey rest k
  end.

Fixpoint guessIn (table : list (string * (string * string))) (s : string) : string :=
  match table with
  | [] => "Other"
  | (_, (name, tab)) :: rest =>
      if String.eqb (Js.toLowerCase name) s then tab else guessIn rest s
  end.

(** [guessStateTab(biz)] *)
Definition guessStateTab (b : Biz) : string :=
  guessIn STATES (Js.toLowerCase (state b)).

(** the environment of the output step as [run] sets it up *)
Definition engineEnv (targetKeys : list string) (enrich : Biz -> option Sched.Out)
    (stopped : nat -> bool) : Sched.Env :=
  Sched.mkEnv (tabOfKey STATES) guessStateTab
    (omap (tabOfKey STATES) targetKeys) enrich stopped.

Definition isStateKey (k : string) : bool :=
  existsb (fun e => String.eqb (fst e) k) STATES.

End Tabs.

(** * Theorems *)

(** ** Entity resolution *)

Section StringFacts.

Lemma truthy_true (s : string) : Js.truthy s = true <-> s <> "".
Proof. destruct s; simpl; split; congruence. Qed.

Lemma truthy_false (s : string) : Js.truthy s = false <-> s = "".
Proof. destruct s; simpl; split; congruence. Qed.

Lemma drop_length (n : nat) (s : string) :
  String.length (Js.drop n s) = String.length s - n.
Proof.
  revert s; induction n as [|n IH]; intros s; simpl.
  - lia.
  - destruct s; simpl; [reflexivity | apply IH].
Qed.

Lemma normPhone_length (p : string) : String.length (ER.normPhone p) <= 10.
Proof. unfold ER.normPhone, Js.sliceLast. rewrite drop_length. lia. Qed.

Lemma string_eqb_true (s t : string) : String.eqb s t = true <-> s = t.
Proof. apply String.eqb_eq. Qed.

Lemma string_eqb_false (s t : string) : String.eqb s t = false <-> s <> t.
Proof. apply String.eqb_neq. Qed.

Example normName_sunrise : ER.normName "Sunrise Bakery LLC" = "sunrise bakery".
Proof. reflexivity. Qed.

Example normName_words :
  ER.normName "  Joe's Co. & Company-Inc  " = "joes"
  /\ ER.normName "foo_llc inc." = "foollc".
Proof. split; reflexivity. Qed.

Example normPhone_last10 :
  ER.normPhone "(555) 111-2222" = "5551112222"
  /\ ER.normPhone "+1 555 111 2222" = "5551112222"
  /\ ER.normPhone "555-1234" = "5551234".
Proof. repeat split. Qed.

Example normDomain_url :
  ER.normDomain "https://www.SunriseBakery.com/about?x=1" = "sunrisebakery.com".
Proof. reflexivity. Qed.

Example dice_night_nacht : ER.dice "night" "nacht" = Num (2 # 8).
Proof. vm_compute. reflexivity. Qed.

Example dice_single_letters : ER.dice "a" "b" = NaN.
Proof. vm_compute. reflexivity. Qed.

(** the end-to-end scenario of the specification: one entity, the website
    backfilled, two sources, the phone of the record that came first *)
Example dedupe_sunrise :
  ER.dedupe [Samples.sunrise;
             rawBiz "bbb" "Sunrise Bakery" "5551112222" "Mesa" "Arizona" "sunrisebakery.com"]
  = [mkBiz "yelp" "Sunrise Bakery LLC" "(555) 111-2222" "" "Mesa" "Arizona"
           "sunrisebakery.com" "" (Some ["yelp"; "bbb"]) ""].
Proof. vm_compute. reflexivity. Qed.

End StringFacts.

Section Numbers.

Lemma num_gt_le (x : jsnum) (q t : Q) :
  num_is x q -> (q <= t)%Q -> num_gt x t = false.
Proof.
  destruct x as [|p]; simpl; [tauto|]. intros Hq Hle.
  unfold Qlt_bool. apply negb_false_iff, Qle_bool_iff.
  rewrite Hq. exact Hle.
Qed.

Lemma num_gt_lt (x : jsnum) (q t : Q) :
  num_is x q -> (t < q)%Q -> num_gt x t = true.
Proof.
  destruct x as [|p]; simpl; [tauto|]. intros Hq Hlt.
  unfold Qlt_bool. apply negb_true_iff.
  destruct (Qle_bool p t) eqn:E; [|reflexivity].
  apply Qle_bool_iff in E. rewrite Hq in E.
  exfalso. exact (Qlt_not_le _ _ Hlt E).
Qed.

End Numbers.

Section SameEntity.

Lemma sameEntity_tests (a b : Biz) :
  ER.sameEntity a b =
  domainTest a b || phoneTest a b || num_gt (score a b) (85 # 100)
  || (num_gt (score a b) (7 # 10) && cityTest a b).
Proof.
  unfold ER.sameEntity, domainTest, phoneTest, cityTest, score.
  repeat match goal with |- context [if ?c then _ else _] => destruct c end;
    reflexivity.
Qed.

Lemma domainTest_iff (a b : Biz) : domainTest a b = true <-> commonDomain a b.
Proof.
  unfold domainTest, commonDomain.
  rewrite !andb_true_iff, !truthy_true, string_eqb_true.
  split; [tauto|]. intros [Hne Heq]. rewrite <- Heq. tauto.
Qed.

Lemma phoneTest_iff (a b : Biz) : phoneTest a b = true <-> equalPhone10 a b.
Proof.
  unfold phoneTest, equalPhone10.
  rewrite !andb_true_iff, !truthy_true, string_eqb_true, Nat.leb_le.
  pose proof (normPhone_length (phone a)) as Hle.
  split.
  - intros [[[_ _] H10] Heq]. split; [assumption | lia].
  - intros [Heq H10]. rewrite <- Heq.
    assert (ER.normPhone (phone a) <> "") by (intros E; rewrite E in H10; discriminate).
    repeat split; (assumption || lia).
Qed.

Lemma cityTest_iff (a b : Biz) : cityTest a b = true <-> sameLocality a b.
Proof. unfold cityTest, sameLocality. apply string_eqb_true. Qed.

Lemma not_true_false (b : bool) : ~ (b = true) -> b = false.
Proof. destruct b; congruence. Qed.

End SameEntity.

Section Threshold.

Lemma sameEntity_no_other_signal (a b : Biz) :
  noOtherSignal a b -> ER.sameEntity a b = num_gt (score a b) (85 # 100).
Proof.
  intros (Hd & Hp & Hc). rewrite sameEntity_tests.
  rewrite (not_true_false (domainTest a b)) by (rewrite domainTest_iff; exact Hd).
  rewrite (not_true_false (phoneTest a b)) by (rewrite phoneTest_iff; exact Hp).
  rewrite (not_true_false (cityTest a b)) by (rewrite cityTest_iff; exact Hc).
  simpl. rewrite andb_false_r, orb_false_r. reflexivity.
Qed.

(** C1 (as the code has it): without another matching signal, two records
    are the same entity exactly when the Dice score of their normalized
    names is strictly above 0.85; at a score of exactly 0.85, and at 0.849,
    they are different entities. *)
Theorem sameEntity_threshold_strict (a b : Biz) :
  noOtherSignal a b ->
  ER.sameEntity a b = num_gt (score a b) (85 # 100)
  /\ (num_is (score a b) (85 # 100) -> ER.sameEntity a b = false)
  /\ (num_is (score a b) (849 # 1000) -> ER.sameEntity a b = false).
Proof.
  intros H. rewrite (sameEntity_no_other_signal a b H).
  split; [reflexivity|]. split; intros Hs.
  - apply (num_gt_le _ _ _ Hs). apply Qle_refl.
  - apply (num_gt_le _ _ _ Hs). unfold Qle; simpl; lia.
Qed.

Lemma noOtherSignal_a85 : noOtherSignal Samples.a85 Samples.b85.
Proof.
  repeat split.
  - intros [H _]. apply H. reflexivity.
  - intros [_ H]. vm_compute in H. discriminate.
  - intros H. vm_compute in H. discriminate.
Qed.

Lemma noOtherSignal_a849 : noOtherSignal Samples.a849 Samples.b849.
Proof.
  repeat split.
  - intros [H _]. apply H. reflexivity.
  - intros [_ H]. vm_compute in H. discriminate.
  - intros H. vm_compute in H. discriminate.
Qed.

Lemma score_a85 : score Samples.a85 Samples.b85 = Num (34 # 40).
Proof. vm_compute. reflexivity. Qed.

Lemma bigram_eqb_refl (x : ER.bigram) : ER.bigram_eqb x x = true.
Proof. unfold ER.bigram_eqb. rewrite !Ascii.eqb_refl. reflexivity. Qed.

Lemma findFree_app (x : ER.bigram) (l1 l2 : list ER.bigram) (i : nat) (u : gset nat) :
  ER.findFree x (l1 ++ l2) i u
  = match ER.findFree x l1 i u with
    | Some k => Some k
    | None => ER.findFree x l2 (i + length l1) u
    end.
Proof.
  revert i. induction l1 as [|y l1 IH]; intros i; simpl.
  - rewrite Nat.add_0_r. reflexivity.
  - destruct (negb (bool_decide (i ∈ u)) && ER.bigram_eqb x y); [reflexivity|].
    rewrite IH. replace (S i + length l1) with (i + S (length l1)) by lia. reflexivity.
Qed.

Lemma findFree_no_match (x : ER.bigram) (l : list ER.bigram) (i : nat) (u : gset nat) :
  forallb (fun y => negb (ER.bigram_eqb x y)) l = true -> ER.findFree x l i u = None.
Proof.
  revert i. induction l as [|y l IH]; intros i; simpl; [reflexivity|].
  intros [Hy Hl]%andb_true_iff. apply negb_true_iff in Hy.
  rewrite Hy, andb_false_r. apply IH, Hl.
Qed.

(** with the indices below [j] used, a run of copies of [x] starting at
    index [i] gives index [j], if the run reaches that far *)
Lemma findFree_repeat (x : ER.bigram) (p i j : nat) :
  i <= j ->
  ER.findFree x (repeat x p) i (set_seq 0 j)
  = if Nat.ltb j (i + p) then Some j else None.
Proof.
  revert i. induction p as [|p IH]; intros i Hij; simpl.
  - replace (Nat.ltb j (i + 0)) with false by (symmetry; apply Nat.ltb_ge; lia).
    reflexivity.
  - rewrite bigram_eqb_refl, andb_true_r.
    destruct (decide (i < j)) as [Hlt|Hge].
    + rewrite bool_decide_eq_true_2 by (apply elem_of_set_seq; lia). simpl.
      rewrite IH by lia. replace (S i + p) with (i + S p) by lia. reflexivity.
    + rewrite bool_decide_eq_false_2 by (rewrite elem_of_set_seq; lia). simpl.
      replace (Nat.ltb j (i + S p)) with true by (symmetry; apply Nat.ltb_lt; lia).
      f_equal. lia.
Qed.

(** [k] copies of [x] against [p] copies of [x] followed by other bigrams:
    each copy takes the next free index until the [p] are used up *)
Lemma countMatches_repeat (x : ER.bigram) (rest : list ER.bigram) (p k m j : nat) :
  forallb (fun y => negb (ER.bigram_eqb x y)) rest = true ->
  j <= p ->
  ER.countMatches (repeat x k) (repeat x p ++ rest) m (set_seq 0 j)
  = m + Nat.min k (p - j).
Proof.
  intros Hrest. revert m j. induction k as [|k IH]; intros m j Hj;
    cbn [repeat ER.countMatches].
  - lia.
  - rewrite findFree_app, findFree_repeat by lia. cbn [Nat.add].
    destruct (Nat.ltb j p) eqn:E.
    + apply Nat.ltb_lt in E.
      replace ({[ j ]} ∪ set_seq 0 j : gset nat) with (set_seq 0 (S j) : gset nat)
        by (rewrite set_seq_S_end_union_L; reflexivity).
      rewrite IH by lia. lia.
    + apply Nat.ltb_ge in E.
      rewrite (findFree_no_match x rest _ _ Hrest), IH by lia. lia.
Qed.

Lemma score_a849 : score Samples.a849 Samples.b849 = Num (1698 # 2000).
Proof.
  unfold score, Samples.a849, Samples.b849, rawBiz. cbn [company_name].
  assert (ER.normName (repeatChar "a" 1001) = repeatChar "a" 1001) as ->
    by (vm_compute; reflexivity).
  assert (ER.normName (repeatChar "a" 850 +:+ repeatChar "b" 151)
          = repeatChar "a" 850 +:+ repeatChar "b" 151) as ->
    by (vm_compute; reflexivity).
  unfold ER.dice.
  assert (negb (Js.truthy (repeatChar "a" 1001))
          || negb (Js.truthy (repeatChar "a" 850 +:+ repeatChar "b" 151)) = false) as ->
    by reflexivity.
  assert (String.eqb (repeatChar "a" 1001) (repeatChar "a" 850 +:+ repeatChar "b" 151)
          = false) as -> by (vm_compute; reflexivity).
  assert (ER.bigrams (repeatChar "a" 1001) = repeat ("a"%char, "a"%char) 1000) as ->
    by (vm_compute; reflexivity).
  assert (ER.bigrams (repeatChar "a" 850 +:+ repeatChar "b" 151)
          = repeat ("a"%char, "a"%char) 849
            ++ (("a"%char, "b"%char) :: repeat ("b"%char, "b"%char) 150)) as ->
    by (vm_compute; reflexivity).
  cbv zeta.
  change (∅ : gset nat) with (set_seq 0 0 : gset nat).
  rewrite countMatches_repeat by (vm_compute; (reflexivity || lia)).
  vm_compute. reflexivity.
Qed.

Lemma sameEntity_threshold_strict_witness :
  ER.sameEntity Samples.a85 Samples.b85 = false
  /\ ER.sameEntity Samples.a849 Samples.b849 = false.
Proof.
  split.
  - destruct (sameEntity_threshold_strict _ _ noOtherSignal_a85) as (_ & H & _).
    apply H. rewrite score_a85. reflexivity.
  - destruct (sameEntity_threshold_strict _ _ noOtherSignal_a849) as (_ & _ & H).
    apply H. rewrite score_a849. reflexivity.
Defined.

(** C1 as stated fails: the two sample names score exactly 0.85, the records
    share no other signal, and [sameEntity] answers that they differ. *)
Lemma sameEntity_at_085_differs :
  noOtherSignal Samples.a85 Samples.b85
  /\ num_is (score Samples.a85 Samples.b85) (85 # 100)
  /\ ER.sameEntity Samples.a85 Samples.b85 = false.
Proof.
  split; [exact noOtherSignal_a85|]. split.
  - rewrite score_a85. reflexivity.
  - vm_compute. reflexivity.
Qed.

End Threshold.

Section PhoneSignal.

Lemma sameEntity_fresh (a b : Biz) : ER.sameEntity (ER.fresh a) b = ER.sameEntity a b.
Proof. reflexivity. Qed.

Lemma sameEntity_phone (a b : Biz) : equalPhone10 a b -> ER.sameEntity a b = true.
Proof.
  intros H. rewrite sameEntity_tests.
  apply phoneTest_iff in H. rewrite H.
  rewrite orb_true_r. reflexivity.
Qed.

(** C2 (as the code has it): two records whose normalized phones are equal
    and ten digits long are the same entity for [sameEntity], whatever their
    names, websites and localities, and [dedupe] merges the second into the
    entity created by the first. *)
Theorem equal_phone10_same_entity (a b : Biz) :
  equalPhone10 a b ->
  ER.sameEntity a b = true
  /\ ER.dedupe [a; b] = [ER.merge (ER.fresh a) b].
Proof.
  intros H. pose proof (sameEntity_phone a b H) as Hs.
  split; [exact Hs|].
  unfold ER.dedupe. simpl. rewrite sameEntity_fresh, Hs. reflexivity.
Qed.

Lemma equal_phone10_same_entity_witness :
  ER.sameEntity Samples.p10a Samples.p10b = true
  /\ ER.dedupe [Samples.p10a; Samples.p10b]
     = [ER.merge (ER.fresh Samples.p10a) Samples.p10b].
Proof.
  apply (equal_phone10_same_entity Samples.p10a Samples.p10b).
  split; reflexivity.
Defined.

(** C2 as stated fails: equal, non-empty normalized phones of seven digits
    do not make two records the same entity. *)
Lemma equal_short_phone_differs :
  equalPhoneNonEmpty Samples.p7a Samples.p7b
  /\ ER.sameEntity Samples.p7a Samples.p7b = false
  /\ length (ER.dedupe [Samples.p7a; Samples.p7b]) = 2.
Proof.
  split; [|split].
  - split; [reflexivity | discriminate].
  - vm_compute. reflexivity.
  - vm_compute. reflexivity.
Qed.

(** In a longer input the two records need not meet: the first is merged,
    on its name, into an entity that keeps another phone, and the second then
    finds no entity with its phone. *)
Example dedupe_phone_shadowed :
  equalPhone10 Samples.p10a Samples.p10b
  /\ length (ER.dedupe [Samples.p10c; Samples.p10a; Samples.p10b]) = 2.
Proof. split; [split; reflexivity | vm_compute; reflexivity]. Qed.

End PhoneSignal.

Section Idempotence.













(** [resolve] names the entity [dedupeStep] merges into *)
Lemma dedupeStep_resolve (uniq : list Biz) (b : Biz) :
  match ER.resolve uniq b with
  | Some i => exists e, uniq !! i = Some e /\ ER.sameEntity e b = true
                        /\ ER.dedupeStep uniq b = <[ i := ER.merge e b ]> uniq
  | None => ER.dedupeStep uniq b = uniq ++ [ER.fresh b]
  end.
Proof.
  induction uniq as [|x u IH]; simpl; [reflexivity|].
  destruct (ER.sameEntity x b) eqn:E.
  - exists x. repeat split. exact E.
  - destruct (ER.resolve u b) as [i|]; simpl.
    + destruct IH as (e & H1 & H2 & H3). exists e. rewrite H3. repeat split; assumption.
    + rewrite IH. reflexivity.
Qed.





(** Two occurrences that are not adjacent can fall apart: the first is
    merged on a name score above 0.7 with both localities empty, a record in
    between backfills the locality of the entity, and the second occurrence
    no longer matches. *)
Example dedupe_twice_apart :
  length (ER.dedupe [Samples.e0; Samples.r0; Samples.x0]) = 1
  /\ length (ER.dedupe [Samples.e0; Samples.r0; Samples.x0; Samples.r0]) = 2.
Proof. vm_compute. split; reflexivity. Qed.

End Idempotence.

(** ** Email-pattern inference *)

Section PatternVoting.

Import Infer.

Lemma pattern_eqb_eq (p q : Pattern) : pattern_eqb p q = true <-> p = q.
Proof. destruct p, q; simpl; split; congruence. Qed.

Lemma toLowerCase_truthy (s : string) : Js.truthy (Js.toLowerCase s) = Js.truthy s.
Proof. destruct s; reflexivity. Qed.

(** the chain of comparisons is a search through the candidates in order *)
Lemma voteOf_specVote (c : Contact) : voteOf c = specVote c.
Proof.
  unfold voteOf, specVote.
  rewrite !toLowerCase_truthy.
  destruct (email c) as [|e0 e]; [reflexivity|].
  destruct (first_name c) as [|f0 f]; [reflexivity|].
  destruct (last_name c) as [|l0 l]; [reflexivity|].
  cbn [Js.truthy negb orb].
  unfold allPatterns, List.find, candidate.
  repeat match goal with
         | |- context [String.eqb ?x ?y] => destruct (String.eqb x y)
         end; reflexivity.
Qed.

Lemma votesFor_cons (p : Pattern) (c : Contact) (cs : list Contact) :
  votesFor p (c :: cs) = voteWeight p c + votesFor p cs.
Proof.
  unfold votesFor, voteWeight. simpl.
  destruct (specVote c) as [q|]; [|reflexivity].
  destruct (pattern_eqb q p); reflexivity.
Qed.

Lemma bump_table (q : Pattern) (g : Pattern -> nat) :
  bump q (table g) = table (fun p => g p + (if pattern_eqb q p then 1 else 0)).
Proof.
  unfold bump, table. rewrite List.map_map. apply List.map_ext.
  intros p. simpl. destruct p, q; simpl; f_equal; lia.
Qed.

Lemma tally_from (cs : list Contact) (g : Pattern -> nat) :
  fold_left (fun t c => match voteOf c with Some p => bump p t | None => t end)
            cs (table g)
  = table (fun p => g p + votesFor p cs).
Proof.
  revert g. induction cs as [|c cs IH]; intros g; cbn [fold_left].
  - unfold table. apply List.map_ext. intros p. unfold votesFor. simpl. f_equal. lia.
  - rewrite voteOf_specVote.
    assert (forall h, table h = table (fun p => g p + voteWeight p c) ->
              fold_left (fun t c => match voteOf c with Some p => bump p t | None => t end)
                        cs (table h)
              = table (fun p => g p + votesFor p (c :: cs))) as Hstep.
    { intros h Hh. rewrite Hh, IH. unfold table. apply List.map_ext.
      intros p. rewrite votesFor_cons. f_equal. lia. }
    destruct (specVote c) as [q|] eqn:E.
    + rewrite bump_table. apply Hstep. unfold table, voteWeight.
      apply List.map_ext. intros p. rewrite E. reflexivity.
    + apply Hstep. unfold table, voteWeight. apply List.map_ext.
      intros p. rewrite E. f_equal. lia.
Qed.

Lemma tally_table (cs : list Contact) : tally cs = table (fun p => votesFor p cs).
Proof.
  unfold tally. change noVotes with (table (fun _ => 0)).
  rewrite tally_from. reflexivity.
Qed.

(** the scan keeps the first entry that reaches the maximum *)
Lemma pick_from (t : list (Pattern * nat)) (b : option Pattern) (c : nat) :
  fold_left pickStep t (b, c)
  = let m := list_max (List.map snd t) in
    if Nat.leb m c then (b, c)
    else (option_map fst (List.find (fun e => Nat.eqb (snd e) m) t), m).
Proof.
  revert b c. induction t as [|[k n] r IH]; intros b c.
  - reflexivity.
  - cbn [fold_left List.map list_max fold_right snd fst].
    fold (list_max (List.map snd r)).
    set (mr := list_max (List.map snd r)) in *.
    unfold pickStep at 2. cbn [snd fst]. cbn zeta in IH.
    destruct (Nat.ltb c n) eqn:Hcn.
    + apply Nat.ltb_lt in Hcn. rewrite IH. fold mr.
      destruct (Nat.leb mr n) eqn:Hmr.
      * apply Nat.leb_le in Hmr.
        replace (Init.Nat.max n mr) with n by lia.
        replace (Nat.leb n c) with false by (symmetry; apply Nat.leb_gt; lia).
        cbn [List.find snd]. rewrite Nat.eqb_refl. reflexivity.
      * apply Nat.leb_gt in Hmr.
        replace (Init.Nat.max n mr) with mr by lia.
        replace (Nat.leb mr c) with false by (symmetry; apply Nat.leb_gt; lia).
        cbn [List.find snd].
        replace (Nat.eqb n mr) with false by (symmetry; apply Nat.eqb_neq; lia).
        reflexivity.
    + apply Nat.ltb_ge in Hcn. rewrite IH. fold mr.
      destruct (Nat.leb mr c) eqn:Hmr.
      * apply Nat.leb_le in Hmr.
        replace (Nat.leb (Init.Nat.max n mr) c) with true by (symmetry; apply Nat.leb_le; lia).
        reflexivity.
      * apply Nat.leb_gt in Hmr.
        replace (Init.Nat.max n mr) with mr by lia.
        replace (Nat.leb mr c) with false by (symmetry; apply Nat.leb_gt; lia).
        cbn [List.find snd].
        replace (Nat.eqb n mr) with false by (symmetry; apply Nat.eqb_neq; lia).
        reflexivity.
Qed.

Lemma find_table (g : Pattern -> nat) (f : nat -> bool) (l : list Pattern) :
  option_map fst (List.find (fun e => f (snd e)) (List.map (fun p => (p, g p)) l))
  = List.find (fun p => f (g p)) l.
Proof.
  induction l as [|p l IH]; simpl; [reflexivity|].
  destruct (f (g p)); [reflexivity | exact IH].
Qed.

Lemma table_max (g : Pattern -> nat) :
  list_max (List.map snd (table g)) = list_max (List.map g allPatterns).
Proof. reflexivity. Qed.

Lemma detect_specDetect (cs : list Contact) : detectEmailPattern cs = specDetect cs.
Proof.
  unfold detectEmailPattern, specDetect, pickBest.
  rewrite tally_table, pick_from. cbv zeta.
  rewrite table_max.
  set (top := list_max (List.map (fun p => votesFor p cs) allPatterns)).
  destruct top as [|k].
  - reflexivity.
  - cbn [Nat.leb Nat.eqb snd fst].
    apply (find_table (fun p => votesFor p cs) (fun n => Nat.eqb n (S k))).
Qed.

Lemma find_pointwise {A : Type} (f g : A -> bool) (l : list A) :
  (forall x, f x = g x) -> List.find f l = List.find g l.
Proof.
  intros H. induction l as [|x l IH]; [reflexivity|].
  cbn [List.find]. rewrite H, IH. reflexivity.
Qed.

(** a contact whose local part equals one candidate at most gives its one
    vote to that candidate *)
Lemma vote_matches (c : Contact) (p : Pattern) :
  unambiguous c ->
  match specVote c with Some q => pattern_eqb q p | None => false end
  = takesPart c && matches c p.
Proof.
  intros Hu. unfold specVote, takesPart.
  destruct (email c) as [|e0 e] eqn:He; [reflexivity|].
  destruct (first_name c) as [|f0 f] eqn:Hf; [reflexivity|].
  destruct (last_name c) as [|l0 l] eqn:Hl; [reflexivity|].
  cbn [Js.truthy andb].
  assert (forall q, String.eqb (Js.toLowerCase (Js.beforeChar "@" (String e0 e)))
                      (candidate q (Js.toLowerCase (String f0 f)) (Js.toLowerCase (String l0 l)))
                    = matches c q) as Hm
    by (intros q; unfold matches; rewrite He, Hf, Hl; reflexivity).
  rewrite (find_pointwise _ (matches c) allPatterns Hm).
  destruct (List.find (matches c) allPatterns) as [q|] eqn:F.
  - apply List.find_some in F as [_ Hq].
    destruct (matches c p) eqn:Hp.
    + apply pattern_eqb_eq. apply Hu; assumption.
    + destruct (pattern_eqb q p) eqn:E; [|reflexivity].
      apply pattern_eqb_eq in E. congruence.
  - symmetry. apply (List.find_none _ _ F). destruct p; simpl; tauto.
Qed.

Lemma votesFor_matchCount (p : Pattern) (cs : list Contact) :
  (forall c, In c cs -> unambiguous c) -> votesFor p cs = matchCount p cs.
Proof.
  intros H. unfold votesFor, matchCount. f_equal.
  induction cs as [|c cs IH]; [reflexivity|].
  cbn [List.filter]. rewrite (vote_matches c p) by (apply H; left; reflexivity).
  rewrite IH by (intros x Hx; apply H; right; exact Hx). reflexivity.
Qed.

End PatternVoting.

Section Inference.

Import Infer Enrich EnrichSamples.

(** C5 (as the code has it): every contact with an email, a first and a
    last name casts one vote at most, for the first candidate in the
    enumeration first, first.last, firstlast, flast, first_last, firstl, last
    that its local part equals; [detectEmailPattern] returns the candidate
    with the most votes, at least one, the first such in that enumeration,
    and none when no contact votes.  Where no local part equals two
    candidates this is the count of exact matches.  John Smith and Jane Doe
    at x.com give first.last, from which Sarah Jones gets sarah.jones@x.com
    as an [Inferred] contact, unless that address is already known. *)
Theorem detectEmailPattern_voting :
  (forall cs, detectEmailPattern cs = specDetect cs)
  /\ (forall cs, (forall c, In c cs -> unambiguous c) ->
                 detectEmailPattern cs = matchDetect cs)
  /\ detectEmailPattern [john; jane] = Some PFirstDotLast
  /\ generateEmail PFirstDotLast "Sarah" "Jones" "x.com" = Some "sarah.jones@x.com"
  /\ allContacts (inferContacts "x.com" (mkAcc [john; jane]
        {[ "john.smith@x.com"; "jane.doe@x.com" ]} [sarah]))
     = [john; jane; sarahInferred]
  /\ allContacts (inferContacts "x.com" (mkAcc [john; jane; sarahKnown]
        {[ "john.smith@x.com"; "jane.doe@x.com"; "sarah.jones@x.com" ]} [sarah]))
     = [john; jane; sarahKnown]
  /\ (forall p domain a person,
        allContacts (inferOne p domain a person)
        = match generateEmail p (p_first_name person) (p_last_name person) domain with
          | Some e =>
              if bool_decide (e ∈ allEmails a) then allContacts a
              else allContacts a ++
                   [mkContact e (p_first_name person) (p_last_name person)
                      (p_title person) (p_phone person) Inferred (p_source_page person)]
          | None => allContacts a
          end).
Proof.
  split; [exact detect_specDetect|].
  split.
  { intros cs H. rewrite detect_specDetect. unfold specDetect, matchDetect.
    assert (forall p, votesFor p cs = matchCount p cs) as Hv
      by (intros p; apply votesFor_matchCount, H).
    rewrite (List.map_ext _ _ Hv).
    rewrite (find_pointwise (fun p => Nat.eqb (votesFor p cs) _)
               (fun p => Nat.eqb (matchCount p cs)
                           (list_max (List.map (fun p => matchCount p cs) allPatterns)))
               allPatterns);
      [reflexivity|].
    intros p. rewrite Hv. reflexivity. }
  split; [vm_compute; reflexivity|].
  split; [vm_compute; reflexivity|].
  split; [vm_compute; reflexivity|].
  split; [vm_compute; reflexivity|].
  intros p domain a person. unfold inferOne.
  destruct (generateEmail p (p_first_name person) (p_last_name person) domain) as [e|];
    [|reflexivity].
  destruct (bool_decide (e ∈ allEmails a)); reflexivity.
Qed.

(** Lee Lee and Kim Kim write under a name that is their first and their
    last name, Jo Park under the last name: the code counts two votes for
    first and one for last, while last is matched three times. *)
Lemma first_match_takes_the_vote :
  detectEmailPattern [lee; kim; park] = Some PFirst
  /\ matchDetect [lee; kim; park] = Some PLast
  /\ matchCount PFirst [lee; kim; park] = 2
  /\ matchCount PLast [lee; kim; park] = 3.
Proof. vm_compute. repeat split. Qed.

End Inference.

(** ** MX verification *)

Section MxVerification.

Import Enrich EnrichSamples.








(** a pass on a fresh cache: both contacts follow the resolver *)
Example verifyAll_fresh :
  fst (verifyAll dnsX [john; sarahInferred] ∅)
  = [mkContact "john.smith@x.com" "John" "Smith" "" "" Verified "https://x.com";
     mkContact "sarah.jones@x.com" "Sarah" "Jones" "" "" InferredMxOk "https://x.com/team"]
  /\ fst (verifyAll dnsNone [john; sarahInferred] ∅)
     = [mkContact "john.smith@x.com" "John" "Smith" "" "" NoMx "https://x.com";
        mkContact "sarah.jones@x.com" "Sarah" "Jones" "" "" InferredNoMx "https://x.com/team"].
Proof. vm_compute. split; reflexivity. Qed.


(** one whole enrichment: two contacts on the homepage, a failed subpage, a
    team page with a known contact and a name without email, a registrant *)
Example enrichBusiness_siteX :
  fst (enrichBusiness bizX (siteX dnsX) ∅)
  = [mkContact "john.smith@x.com" "John" "Smith" "" "" Verified "https://x.com";
     mkContact "jane.doe@x.com" "Jane" "Doe" "" "" Verified "https://x.com";
     mkContact "pat@x.com" "Pat" "Owner" "Owner (WHOIS)" "" Whois "WHOIS/RDAP";
     mkContact "sarah.jones@x.com" "Sarah" "Jones" "" "" InferredMxOk "https://x.com/team"].
Proof. vm_compute. reflexivity. Qed.

End MxVerification.

(** ** Distinct emails among the contacts of a business *)

Section DistinctEmails.

Import Enrich.

Lemma accOk_push (a : Acc) (c : Contact) (names : list Person) :
  accOk a -> email c ∉ allEmails a ->
  accOk {| allContacts := allContacts a ++ [c];
           allEmails := {[ email c ]} ∪ allEmails a;
           allNamesNoEmail := names |}.
Proof.
  intros [Hnd Hin] Hfresh. split; simpl.
  - rewrite List.map_app. simpl.
    apply NoDup_app. split; [exact Hnd|]. split.
    + intros e He Hc. apply list_elem_of_In in Hc as [<-|[]].
      apply Hfresh, Hin. apply list_elem_of_In, He.
    + apply NoDup_singleton.
  - intros e. rewrite List.map_app, in_app_iff. simpl.
    intros [He | [<- | []]]; [|set_solver].
    apply Hin in He. set_solver.
Qed.

Lemma accOk_names (a : Acc) (names : list Person) :
  accOk a ->
  accOk {| allContacts := allContacts a; allEmails := allEmails a;
           allNamesNoEmail := names |}.
Proof. intros H. exact H. Qed.

Lemma addContact_ok (a : Acc) (c : Contact) : accOk a -> accOk (addContact a c).
Proof.
  intros H. unfold addContact. case_bool_decide as Hc; [exact H|].
  apply accOk_push; assumption.
Qed.

Lemma addContacts_ok (cs : list Contact) (a : Acc) :
  accOk a -> accOk (fold_left addContact cs a).
Proof.
  revert a. induction cs as [|c cs IH]; intros a H; simpl; [exact H|].
  apply IH, addContact_ok, H.
Qed.

Lemma addPage_ok (a : Acc) (x : Extraction) : accOk a -> accOk (addPage a x).
Proof.
  intros H. unfold addPage. apply accOk_names, addContacts_ok, H.
Qed.

Lemma addSubpages_ok (pages : list (option Extraction)) (a : Acc) :
  accOk a -> accOk (addSubpages a pages).
Proof.
  revert a. induction pages as [|[x|] r IH]; intros a H; cbn [addSubpages].
  - exact H.
  - destruct (Nat.leb 5 (namedCount (addPage a x))).
    + apply addPage_ok, H.
    + apply IH, addPage_ok, H.
  - apply IH, H.
Qed.

Lemma addWhois_ok (a : Acc) (w : option Registrant) : accOk a -> accOk (addWhois a w).
Proof.
  intros H. unfold addWhois. destruct w as [reg|]; [|exact H].
  destruct (Js.truthy (reg_email reg) && validEmail (reg_email reg)); simpl; [|exact H].
  case_bool_decide as Hc; simpl; [exact H|].
  apply (accOk_push a (mkContact _ _ _ _ _ _ _)); assumption.
Qed.

Lemma inferOne_ok (p : Infer.Pattern) (domain : string) (a : Acc) (person : Person) :
  accOk a -> accOk (inferOne p domain a person).
Proof.
  intros H. unfold inferOne.
  destruct (Infer.generateEmail _ _ _ _) as [e|]; [|exact H].
  case_bool_decide as Hc; [exact H|].
  apply (accOk_push a (mkContact _ _ _ _ _ _ _)); assumption.
Qed.

Lemma inferContacts_ok (domain : string) (a : Acc) : accOk a -> accOk (inferContacts domain a).
Proof.
  intros H. unfold inferContacts.
  destruct (Infer.detectEmailPattern (allContacts a)) as [p|]; [|exact H].
  generalize (allNamesNoEmail a) as names. intros names.
  revert a H. induction names as [|n names IH]; intros a H; simpl; [exact H|].
  apply IH, inferOne_ok, H.
Qed.

Lemma gather_ok (site : Site) (base : string) (home : Extraction) :
  accOk (gather site base home).
Proof.
  unfold gather.
  apply inferContacts_ok, addWhois_ok, addSubpages_ok, addPage_ok.
  split; simpl; [constructor | intros e []].
Qed.

Lemma verifyAll_emails (dns : string -> option nat) (cs : list Contact) (cache : gmap string bool) :
  List.map email (fst (verifyAll dns cs cache)) = List.map email cs.
Proof.
  revert cache. induction cs as [|c cs IH]; intros cache; simpl; [reflexivity|].
  destruct (verifyEmailMx dns (email c) cache) as [mx cache1].
  specialize (IH cache1).
  destruct (verifyAll dns cs cache1) as [r' cache2]. simpl in *.
  rewrite IH. reflexivity.
Qed.

(** C10: the contacts [enrichBusiness] returns carry pairwise distinct
    emails, whatever the pages, the registrant and the resolver give: every
    insertion (homepage, subpages, WHOIS, inference) is guarded by the one
    set [allEmails]. *)
Theorem enrichBusiness_distinct_emails
    (b : Biz) (site : Site) (cache : gmap string bool) :
  List.NoDup (List.map email (fst (enrichBusiness b site cache))).
Proof.
  unfold enrichBusiness.
  destruct (Js.truthy (website b)); simpl; [|constructor].
  destruct (baseUrl site) as [base|]; [|constructor].
  destruct (Js.truthy base); simpl; [|constructor].
  destruct (homepage site) as [home|]; [|constructor].
  rewrite verifyAll_emails. apply NoDup_ListNoDup, (gather_ok site base home).
Qed.

End DistinctEmails.

(** ** Global dedup and resume *)

Section GlobalDedup.

Import Sched.

Lemma resume_seen_from (l : list Biz) (s : gset string) :
  fold_left (fun s b => {[ dedupKey b ]} ∪ s) l s
  = list_to_set (List.map dedupKey l) ∪ s.
Proof.
  revert s. induction l as [|b l IH]; intros s; simpl.
  - rewrite (left_id_L ∅ (∪)). reflexivity.
  - rewrite IH, (assoc_L (∪)), (comm_L (∪) (list_to_set _) {[ dedupKey b ]}).
    reflexivity.
Qed.

Lemma resume_seen (saved : list Biz) (counts : gmap string nat) :
  globalSeen (resume saved counts) = list_to_set (List.map dedupKey saved).
Proof. unfold resume. simpl. rewrite resume_seen_from, (right_id_L ∅ (∪)). reflexivity. Qed.

Lemma dedupKey_tagState (k : string) (b : Biz) : dedupKey (tagState k b) = dedupKey b.
Proof. reflexivity. Qed.

(** what one work unit adds: records whose keys were not seen before *)
Lemma acceptResults_new (maxPerCat : nat) (cat stKey : string)
    (results : list Biz) (st : State) :
  exists new,
    allBiz (acceptResults maxPerCat cat stKey results st) = allBiz st ++ new
    /\ Forall (fun b => dedupKey b ∉ globalSeen st) new
    /\ globalSeen st ⊆ globalSeen (acceptResults maxPerCat cat stKey results st).
Proof.
  revert st. induction results as [|biz rest IH]; intros st; cbn [acceptResults].
  - exists []. rewrite app_nil_r. repeat split; [constructor | set_solver].
  - cbv zeta. case_bool_decide as Hseen; [apply IH|].
    set (st' := {| allBiz := allBiz st ++ [tagState stKey biz];
                   globalSeen := {[ dedupKey biz ]} ∪ globalSeen st;
                   catCounts := <[ cat := countOf st cat + 1 ]> (catCounts st);
                   chunkBiz := chunkBiz st ++ [tagState stKey biz] |}).
    destruct (Nat.leb maxPerCat (countOf st' cat)).
    + exists [tagState stKey biz]. repeat split.
      * constructor; [exact Hseen | constructor].
      * subst st'. simpl. set_solver.
    + destruct (IH st') as (new & Hall & Hnew & Hsub).
      exists (tagState stKey biz :: new). repeat split.
      * rewrite Hall. subst st'. simpl. rewrite <- app_assoc. reflexivity.
      * constructor; [exact Hseen|].
        eapply Forall_impl; [exact Hnew|]. intros b Hb. subst st'. simpl in Hb. set_solver.
      * subst st'. simpl in Hsub. set_solver.
Qed.

Lemma replay_new (maxPerCat : nat) (units : list Unit) (st : State) :
  exists new,
    allBiz (replay maxPerCat units st) = allBiz st ++ new
    /\ Forall (fun b => dedupKey b ∉ globalSeen st) new.
Proof.
  revert st. induction units as [|u units IH]; intros st; simpl.
  - exists []. rewrite app_nil_r. split; [reflexivity | constructor].
  - destruct (acceptResults_new maxPerCat (u_cat u) (u_stKey u) (u_results u) st)
      as (new1 & H1 & F1 & S1).
    destruct (IH (acceptResults maxPerCat (u_cat u) (u_stKey u) (u_results u) st))
      as (new2 & H2 & F2).
    exists (new1 ++ new2). split.
    + unfold replay in *. simpl in *. rewrite H2, H1, <- app_assoc. reflexivity.
    + apply Forall_app. split; [exact F1|].
      eapply Forall_impl; [exact F2|]. intros b Hb. set_solver.
Qed.

(** C8: on resume the seen-set holds exactly the keys of the saved
    entities, and discovery replayed from there, over any work units and
    results, only ever appends records whose key no saved entity has. *)
Theorem resume_never_reaccepts
    (maxPerCat : nat) (saved : list Biz) (counts : gmap string nat) (units : list Unit) :
  globalSeen (resume saved counts) = list_to_set (List.map dedupKey saved)
  /\ exists new,
       allBiz (replay maxPerCat units (resume saved counts)) = saved ++ new
       /\ Forall (fun b => ~ In (dedupKey b) (List.map dedupKey saved)) new.
Proof.
  split; [apply resume_seen|].
  destruct (replay_new maxPerCat units (resume saved counts)) as (new & H & F).
  exists new. split; [exact H|].
  eapply Forall_impl; [exact F|]. intros b Hb Hin. apply Hb.
  rewrite resume_seen. apply elem_of_list_to_set, list_elem_of_In, Hin.
Qed.




End GlobalDedup.

(** ** Output order within a chunk *)

Section ChunkOutput.

Import Sched.

Lemma delivered_app (a b : list Event) : delivered (a ++ b) = delivered a ++ delivered b.
Proof.
  induction a as [|e a IH]; simpl; [reflexivity|].
  destruct e; simpl; rewrite IH; [rewrite app_assoc|..]; reflexivity.
Qed.

Lemma quietExt_refl (tr : list Event) : quietExt tr tr.
Proof. exists []. rewrite app_nil_r. split; reflexivity. Qed.

Lemma quietExt_trans (a b c : list Event) : quietExt a b -> quietExt b c -> quietExt a c.
Proof.
  intros (e1 & -> & H1) (e2 & -> & H2). exists (e1 ++ e2). split.
  - rewrite app_assoc. reflexivity.
  - rewrite existsb_app, H1, H2. reflexivity.
Qed.

(** *** The sheet code keeps every row, in order *)

Lemma tryAppend_pushed (tab : string) (s : Sink) : pushed (tryAppend tab s) = pushed s.
Proof.
  unfold tryAppend, pushed. destruct (outcomes s) as [|[|] os]; simpl;
    rewrite delivered_app; simpl; rewrite ?app_nil_r; reflexivity.
Qed.

Lemma tryAppend_quiet (tab : string) (s : Sink) : quietExt (trace s) (trace (tryAppend tab s)).
Proof.
  unfold tryAppend. destruct (outcomes s) as [|[|] os]; simpl;
    eexists; (split; [reflexivity | reflexivity]).
Qed.

Lemma tryAppend_accepting (tab : string) (s : Sink) :
  accepting s -> accepting (tryAppend tab s) /\ rowBuffer (tryAppend tab s) = [].
Proof.
  unfold accepting, tryAppend. destruct (outcomes s) as [|[|] os]; simpl; intros H.
  - split; reflexivity.
  - split; [exact H | reflexivity].
  - discriminate.
Qed.

Lemma batchPushRows_pushed (tab : string) (o : Out) (s : Sink) :
  pushed (batchPushRows tab o s) = pushed s ++ toRows o.
Proof.
  unfold batchPushRows.
  match goal with |- context [if ?c then _ else _] => destruct c end.
  - rewrite tryAppend_pushed. unfold pushed. simpl. apply app_assoc.
  - unfold pushed. simpl. apply app_assoc.
Qed.

Lemma batchPushRows_quiet (tab : string) (o : Out) (s : Sink) :
  quietExt (trace s) (trace (batchPushRows tab o s)).
Proof.
  unfold batchPushRows.
  match goal with |- context [if ?c then _ else _] => destruct c end.
  - apply (tryAppend_quiet tab (mkSink _ _ _)).
  - apply quietExt_refl.
Qed.

Lemma batchPushRows_accepting (tab : string) (o : Out) (s : Sink) :
  accepting s -> accepting (batchPushRows tab o s).
Proof.
  intros H. unfold batchPushRows.
  match goal with |- context [if ?c then _ else _] => destruct c end.
  - apply (tryAppend_accepting tab (mkSink _ _ _)), H.
  - exact H.
Qed.

Lemma flushRows_pushed (tab : string) (s : Sink) : pushed (flushRows tab s) = pushed s.
Proof.
  unfold flushRows. destruct (rowBuffer s) eqn:E; [reflexivity|].
  apply tryAppend_pushed.
Qed.

Lemma flushRows_quiet (tab : string) (s : Sink) : quietExt (trace s) (trace (flushRows tab s)).
Proof.
  unfold flushRows. destruct (rowBuffer s); [apply quietExt_refl | apply tryAppend_quiet].
Qed.

Lemma flushRows_accepting (tab : string) (s : Sink) :
  accepting s -> accepting (flushRows tab s) /\ rowBuffer (flushRows tab s) = [].
Proof.
  intros H. unfold flushRows. destruct (rowBuffer s) eqn:E.
  - split; [exact H | exact E].
  - apply tryAppend_accepting, H.
Qed.

Lemma flushAll_pushed (tabs : list string) (s : Sink) : pushed (flushAll tabs s) = pushed s.
Proof.
  revert s. induction tabs as [|t tabs IH]; intros s; simpl; [reflexivity|].
  unfold flushAll in *. simpl. rewrite IH. apply flushRows_pushed.
Qed.

Lemma flushAll_quiet (tabs : list string) (s : Sink) :
  quietExt (trace s) (trace (flushAll tabs s)).
Proof.
  revert s. induction tabs as [|t tabs IH]; intros s; simpl; [apply quietExt_refl|].
  unfold flushAll in *. simpl.
  eapply quietExt_trans; [apply (flushRows_quiet t s) | apply IH].
Qed.

Lemma flushAll_accepting (tabs : list string) (s : Sink) :
  accepting s -> accepting (flushAll tabs s).
Proof.
  revert s. induction tabs as [|t tabs IH]; intros s H; simpl; [exact H|].
  unfold flushAll in *. simpl. apply IH, flushRows_accepting, H.
Qed.

Lemma flushAll_empty (tabs : list string) (s : Sink) :
  rowBuffer s = [] -> rowBuffer (flushAll tabs s) = [].
Proof.
  revert s. induction tabs as [|t tabs IH]; intros s H; simpl; [exact H|].
  unfold flushAll in *. simpl. apply IH. unfold flushRows. rewrite H. exact H.
Qed.

Lemma flushAll_flushes (tabs : list string) (s : Sink) :
  tabs <> [] -> accepting s -> rowBuffer (flushAll tabs s) = [].
Proof.
  intros Ht H. destruct tabs as [|t tabs]; [congruence|].
  unfold flushAll. simpl. apply (flushAll_empty tabs).
  apply flushRows_accepting, H.
Qed.

Lemma pushTo_pushed (env : Env) (o : Out) (s : Sink) :
  pushed (pushTo env o s) = pushed s ++ pushedRows env o.
Proof.
  unfold pushTo, pushedRows, hasTab.
  destruct (tabFor env (o_biz o)) as [[|c t]|].
  - rewrite app_nil_r. reflexivity.
  - apply batchPushRows_pushed.
  - rewrite app_nil_r. reflexivity.
Qed.

Lemma pushTo_quiet (env : Env) (o : Out) (s : Sink) :
  quietExt (trace s) (trace (pushTo env o s)).
Proof.
  unfold pushTo. destruct (tabFor env (o_biz o)) as [[|c t]|];
    (apply quietExt_refl || apply batchPushRows_quiet).
Qed.

Lemma pushTo_accepting (env : Env) (o : Out) (s : Sink) :
  accepting s -> accepting (pushTo env o s).
Proof.
  intros H. unfold pushTo. destruct (tabFor env (o_biz o)) as [[|c t]|];
    (exact H || apply batchPushRows_accepting, H).
Qed.

(** *** The businesses without a website *)

Lemma pushLoop_facts (env : Env) (l : list Biz) (s : Sink) :
  forallb (hasTab env) l = true ->
  let s' := fold_left (fun s b => pushTo env (mkOut b []) s) l s in
  pushed s' = pushed s ++ List.map (fun b => mkRow b None) l
  /\ quietExt (trace s) (trace s')
  /\ (accepting s -> accepting s').
Proof.
  revert s. induction l as [|b l IH]; intros s Ht; simpl.
  - rewrite app_nil_r. repeat split; [apply quietExt_refl | tauto].
  - simpl in Ht. apply andb_true_iff in Ht as [Hb Hl].
    destruct (IH (pushTo env (mkOut b []) s) Hl) as (H1 & H2 & H3).
    split; [|split].
    + rewrite H1, pushTo_pushed. unfold pushedRows. simpl. rewrite Hb.
      rewrite <- app_assoc. reflexivity.
    + eapply quietExt_trans; [apply pushTo_quiet | exact H2].
    + intros Ha. apply H3, pushTo_accepting, Ha.
Qed.

Lemma forallb_filter_sub (f g : Biz -> bool) (l : list Biz) :
  forallb f l = true -> forallb f (List.filter g l) = true.
Proof.
  induction l as [|b l IH]; simpl; [reflexivity|].
  intros [Hb Hl]%andb_true_iff. destruct (g b); simpl; [rewrite Hb|]; apply IH, Hl.
Qed.

Lemma pushNoSites_facts (env : Env) (chunk : list Biz) (s : Sink) :
  forallb (hasTab env) chunk = true ->
  let s1 := pushNoSites env (noSitesOf chunk) s in
  pushed s1 = pushed s ++ noSiteRows chunk
  /\ quietExt (trace s) (trace s1)
  /\ (noSiteRows chunk <> [] -> targetTabs env <> [] -> accepting s -> rowBuffer s1 = []).
Proof.
  intros Ht. cbv zeta. unfold pushNoSites, noSiteRows.
  fold (noSitesOf chunk).
  pose proof (forallb_filter_sub (hasTab env)
                (fun b => negb (Js.truthy (website b))) chunk Ht) as Hn.
  fold (noSitesOf chunk) in Hn.
  destruct (noSitesOf chunk) as [|b l] eqn:E.
  - simpl. rewrite app_nil_r. repeat split; [apply quietExt_refl | congruence].
  - rewrite <- E in *. clear E b l.
    destruct (pushLoop_facts env (noSitesOf chunk) s Hn) as (H1 & H2 & H3).
    split; [|split].
    + rewrite flushAll_pushed. exact H1.
    + eapply quietExt_trans; [exact H2 | apply flushAll_quiet].
    + intros _ Htabs Ha. apply flushAll_flushes; [exact Htabs | apply H3, Ha].
Qed.

(** *** The enrichment loop *)

Lemma enrichLoop_facts (env : Env) (ws : list Biz) (i : nat) (s : Sink) :
  (exists later, trace (fst (enrichLoop env i ws s)) = trace s ++ later)
  /\ (exists k, pushed (fst (enrichLoop env i ws s))
               = pushed s ++ concat (List.map (fun b => pushedRows env (enriched env b))
                                              (firstn k ws))).
Proof.
  revert i s. induction ws as [|b ws IH]; intros i s; cbn [enrichLoop].
  - split; [exists []; simpl; rewrite app_nil_r; reflexivity|].
    exists 0. simpl. rewrite app_nil_r. reflexivity.
  - destruct (stoppedAt env i).
    + simpl. split.
      * destruct (flushAll_quiet (targetTabs env) s) as (evs & -> & _). exists evs. reflexivity.
      * exists 0. simpl. rewrite app_nil_r. apply flushAll_pushed.
    + set (s1 := {| rowBuffer := rowBuffer s; trace := trace s ++ [EnrichBegin b];
                    outcomes := outcomes s |}).
      set (s2 := match enrich env b with
                 | Some eb => pushTo env eb s1
                 | None => pushTo env (mkOut b []) s1
                 end).
      assert (s2 = pushTo env (enriched env b) s1) as Hs2
        by (subst s2; unfold enriched; destruct (enrich env b); reflexivity).
      destruct (IH (S i) s2) as ((later & Hl) & (k & Hk)). split.
      * destruct (pushTo_quiet env (enriched env b) s1) as (evs & He & _).
        exists ([EnrichBegin b] ++ evs ++ later).
        rewrite Hl, Hs2, He. subst s1. simpl. rewrite <- !app_assoc. reflexivity.
      * exists (S k). rewrite Hk, Hs2, pushTo_pushed.
        assert (pushed s1 = pushed s) as ->.
        { subst s1. unfold pushed. simpl. rewrite delivered_app. simpl.
          rewrite app_nil_r. reflexivity. }
        simpl. rewrite <- !app_assoc. reflexivity.
Qed.

Lemma outputChunk_split (env : Env) (chunk : list Biz) (s0 : Sink) :
  exists later,
    trace (outputChunk env chunk s0)
    = trace (pushNoSites env (noSitesOf chunk) s0) ++ later
    /\ pushed (outputChunk env chunk s0)
       = pushed (fst (enrichLoop env 0 (withSitesOf chunk)
                        (pushNoSites env (noSitesOf chunk) s0))).
Proof.
  destruct chunk as [|b0 chunk0].
  - exists []. simpl. rewrite app_nil_r. split; reflexivity.
  - unfold outputChunk.
    change (List.filter (fun b => Js.truthy (website b)) (b0 :: chunk0))
      with (withSitesOf (b0 :: chunk0)).
    change (List.filter (fun b => negb (Js.truthy (website b))) (b0 :: chunk0))
      with (noSitesOf (b0 :: chunk0)).
    set (s1 := pushNoSites env (noSitesOf (b0 :: chunk0)) s0).
    destruct (enrichLoop_facts env (withSitesOf (b0 :: chunk0)) 0 s1) as ((later & Hl) & _).
    destruct (enrichLoop env 0 (withSitesOf (b0 :: chunk0)) s1) as [s2 stopped].
    simpl in Hl |- *. destruct stopped.
    + exists later. split; [exact Hl | reflexivity].
    + destruct (flushAll_quiet (targetTabs env) s2) as (e2 & -> & _).
      exists (later ++ e2). rewrite Hl, flushAll_pushed, app_assoc. split; reflexivity.
Qed.

(** C6 (as the code has it): in the output step of a chunk every row of a
    business without a website is handed to the sheet code, and the flush of
    all target tabs is requested, before the first call of [enrichBusiness];
    when the sink accepts the requests these rows are in the sink at that
    point, and when a request fails they stay buffered in front of the
    enrichment rows, so that the sink always receives them first. *)
Theorem chunk_flush_order
    (env : Env) (chunk : list Biz) (buf : list Row) (outs : list bool) :
  forallb (hasTab env) chunk = true ->
  let s0 := mkSink buf [] outs in
  let s1 := pushNoSites env (noSitesOf chunk) s0 in
  let s := outputChunk env chunk s0 in
  existsb isEnrichBegin (trace s1) = false
  /\ (exists later, trace s = trace s1 ++ later)
  /\ delivered (trace s1) ++ rowBuffer s1 = buf ++ noSiteRows chunk
  /\ (noSiteRows chunk <> [] -> targetTabs env <> [] ->
      forallb (fun o => o) outs = true ->
      delivered (trace s1) = buf ++ noSiteRows chunk)
  /\ (exists k, delivered (trace s) ++ rowBuffer s
                = buf ++ noSiteRows chunk
                  ++ concat (List.map (fun b => pushedRows env (enriched env b))
                                      (firstn k (withSitesOf chunk)))).
Proof.
  intros Ht s0 s1 s.
  destruct (pushNoSites_facts env chunk s0 Ht) as (H1 & (evs & He & Hq) & H3).
  fold s1 in H1, He, H3. change (pushed s0) with (buf) in H1.
  assert (trace s1 = evs) as Htr by (rewrite He; reflexivity).
  split; [rewrite Htr; exact Hq|].
  destruct (enrichLoop_facts env (withSitesOf chunk) 0 s1) as ((later & Hl) & (k & Hk)).
  destruct (outputChunk_split env chunk s0) as (l' & Hs & Hp).
  fold s s1 in Hs, Hp.
  split; [exists l'; exact Hs|].
  split; [exact H1|].
  split.
  - intros Hn Htabs Hout. specialize (H3 Hn Htabs Hout).
    unfold pushed in H1. rewrite H3, app_nil_r in H1. exact H1.
  - exists k. change (delivered (trace s) ++ rowBuffer s) with (pushed s).
    rewrite Hp, Hk, H1, <- app_assoc. reflexivity.
Qed.

Lemma chunk_flush_order_witness :
  delivered (trace (pushNoSites SchedSamples.env1 (noSitesOf SchedSamples.chunk5)
                      (mkSink [] [] [])))
  = [] ++ noSiteRows SchedSamples.chunk5.
Proof.
  assert (forallb (hasTab SchedSamples.env1) SchedSamples.chunk5 = true) as Ht
    by reflexivity.
  destruct (chunk_flush_order SchedSamples.env1 SchedSamples.chunk5 [] [] Ht)
    as (_ & _ & _ & H & _).
  apply H.
  - vm_compute. discriminate.
  - vm_compute. discriminate.
  - reflexivity.
Defined.

(** C6 as stated fails when the sink rejects the flush: with three
    businesses without a website and two with one, the first call of
    [enrichBusiness] is made while no row has reached the sink; the three
    rows arrive later, ahead of the enrichment rows. *)
Lemma rejected_flush_defers_rows :
  length (noSiteRows SchedSamples.chunk5) = 3
  /\ existsb isEnrichBegin
       (trace (outputChunk SchedSamples.env1 SchedSamples.chunk5 (mkSink [] [] [false])))
     = true
  /\ delivered (beforeEnrich
       (trace (outputChunk SchedSamples.env1 SchedSamples.chunk5 (mkSink [] [] [false]))))
     = []
  /\ firstn 3 (delivered
       (trace (outputChunk SchedSamples.env1 SchedSamples.chunk5 (mkSink [] [] [false]))))
     = noSiteRows SchedSamples.chunk5.
Proof. vm_compute. repeat split. Qed.

End ChunkOutput.

(** ** The Yelp circuit breaker *)

Section CircuitBreaker.

Import Breaker.

Lemma yelp_tripped_unit (r : Response) (n : Net) :
  5 <= yelpConsecutiveFails n ->
  discoverYelpSingle r n
  = ([], mkNet (yelpConsecutiveFails n) (S (yelpSkipped n)) (pageLoads n)).
Proof.
  intros H. unfold discoverYelpSingle.
  replace (Nat.leb 5 (yelpConsecutiveFails n)) with true
    by (symmetry; apply Nat.leb_le; exact H).
  reflexivity.
Qed.

Lemma yelp_tripped_units (resps : list Response) (n : Net) :
  5 <= yelpConsecutiveFails n ->
  runUnits Yelp resps n
  = (List.map (fun _ => []) resps,
     mkNet (yelpConsecutiveFails n) (yelpSkipped n + length resps) (pageLoads n)).
Proof.
  revert n. induction resps as [|r rest IH]; intros n H; cbn [runUnits discoverSingle].
  - destruct n as [f s p]. simpl. rewrite Nat.add_0_r. reflexivity.
  - rewrite (yelp_tripped_unit r n H), IH by exact H. simpl.
    do 2 f_equal. lia.
Qed.

Lemma yelp_failed_unit (r : Response) (n : Net) :
  yelpConsecutiveFails n < 5 -> failed r = true ->
  discoverYelpSingle r n
  = ([], setFails (S (yelpConsecutiveFails n)) (load Yelp n)).
Proof.
  intros H Hf. unfold discoverYelpSingle.
  replace (Nat.leb 5 (yelpConsecutiveFails n)) with false
    by (symmetry; apply Nat.leb_gt; exact H).
  destruct r as [| |[|b l]]; try reflexivity. discriminate.
Qed.

Lemma yelp_failures_trip (fs rest : list Response) (n : Net) :
  forallb failed fs = true ->
  5 <= yelpConsecutiveFails n + length fs ->
  fst (runUnits Yelp (fs ++ rest) n) = List.map (fun _ => []) (fs ++ rest)
  /\ pageLoads (snd (runUnits Yelp (fs ++ rest) n)) Yelp
     = pageLoads n Yelp + (5 - yelpConsecutiveFails n)
  /\ yelpSkipped (snd (runUnits Yelp (fs ++ rest) n))
     = yelpSkipped n + (length fs + length rest - (5 - yelpConsecutiveFails n)).
Proof.
  revert n. induction fs as [|r fs IH]; intros n Hf Hlen.
  - simpl in Hlen. rewrite yelp_tripped_units by lia. simpl.
    repeat split; lia.
  - destruct (le_lt_dec 5 (yelpConsecutiveFails n)) as [Ht|Hlt].
    + rewrite yelp_tripped_units by exact Ht. simpl.
      rewrite length_app. repeat split; lia.
    + simpl in Hf. apply andb_true_iff in Hf as [Hr Hfs].
      cbn [app runUnits discoverSingle].
      rewrite (yelp_failed_unit r n Hlt Hr).
      set (n1 := setFails (S (yelpConsecutiveFails n)) (load Yelp n)).
      destruct (IH n1 Hfs) as (H1 & H2 & H3).
      { subst n1. simpl in *. lia. }
      destruct (runUnits Yelp (fs ++ rest) n1) as [out n2]. simpl in H1, H2, H3 |- *.
      rewrite H1, H2, H3. subst n1. simpl.
      repeat split; lia.
Qed.

Lemma yelpCities_tripped (max : nat) (resps : list Response) (st : YelpRun) :
  5 <= yr_fails st -> yelpCities max resps st = st.
Proof.
  intros H. destruct resps as [|r rest]; [reflexivity|]. cbn [yelpCities].
  replace (Nat.leb MAX_FAILS (yr_fails st)) with true
    by (symmetry; apply Nat.leb_le; exact H).
  rewrite orb_true_r. reflexivity.
Qed.

Lemma yelpCategories_tripped (max total : nat) (cats : list (list Response)) (st : YelpRun) :
  5 <= yr_fails st ->
  yr_loads (yelpCategories max total cats st) = yr_loads st
  /\ yr_biz (yelpCategories max total cats st) = yr_biz st.
Proof.
  intros H. destruct cats as [|resps rest]; [split; reflexivity|]. cbn [yelpCategories].
  replace (Nat.leb MAX_FAILS (yr_fails st)) with true
    by (symmetry; apply Nat.leb_le; exact H).
  split; reflexivity.
Qed.

(** C9 (as the code has it): for the Yelp source, once the failures seen in
    a row reach 5, every later Yelp work unit returns nothing, is counted as
    skipped and loads no page, whatever the site would answer; a successful
    response resets the counter to zero only while the breaker has not
    tripped.  The loop of [discoverYelp] likewise loads no page once its own
    counter has reached 5. *)
Theorem yelp_breaker (fs rest : list Response) (n : Net) :
  forallb failed fs = true ->
  5 <= yelpConsecutiveFails n + length fs ->
  fst (runUnits Yelp (fs ++ rest) n) = List.map (fun _ => []) (fs ++ rest)
  /\ pageLoads (snd (runUnits Yelp (fs ++ rest) n)) Yelp
     = pageLoads n Yelp + (5 - yelpConsecutiveFails n)
  /\ yelpSkipped (snd (runUnits Yelp (fs ++ rest) n))
     = yelpSkipped n + (length fs + length rest - (5 - yelpConsecutiveFails n))
  /\ (forall b found m,
        yelpConsecutiveFails (snd (discoverYelpSingle (Listing (b :: found)) m))
        = if Nat.leb 5 (yelpConsecutiveFails m) then yelpConsecutiveFails m else 0)
  /\ (forall max total cats biz k loads skipped,
        yr_loads (yelpCategories max total cats (mkYelpRun biz (5 + k) loads skipped)) = loads
        /\ yr_biz (yelpCategories max total cats (mkYelpRun biz (5 + k) loads skipped)) = biz).
Proof.
  intros Hf Hlen.
  destruct (yelp_failures_trip fs rest n Hf Hlen) as (H1 & H2 & H3).
  split; [exact H1|]. split; [exact H2|]. split; [exact H3|]. split.
  - intros b found m. unfold discoverYelpSingle.
    destruct (Nat.leb 5 (yelpConsecutiveFails m)); reflexivity.
  - intros max total cats biz k loads skipped.
    apply (yelpCategories_tripped max total cats (mkYelpRun biz (5 + k) loads skipped)).
    simpl. lia.
Qed.

Lemma yelp_breaker_witness :
  fst (runUnits Yelp ([NoHtml; Challenge; Listing []; NoHtml; NoHtml]
                      ++ [Listing [Samples.sunrise]; NoHtml]) startNet)
  = [[]; []; []; []; []; []; []]
  /\ pageLoads (snd (runUnits Yelp ([NoHtml; Challenge; Listing []; NoHtml; NoHtml]
                      ++ [Listing [Samples.sunrise]; NoHtml]) startNet)) Yelp = 5
  /\ yelpSkipped (snd (runUnits Yelp ([NoHtml; Challenge; Listing []; NoHtml; NoHtml]
                      ++ [Listing [Samples.sunrise]; NoHtml]) startNet)) = 2.
Proof.
  assert (forallb failed [NoHtml; Challenge; Listing []; NoHtml; NoHtml] = true) as Hf
    by reflexivity.
  assert (5 <= yelpConsecutiveFails startNet
               + length [NoHtml; Challenge; Listing []; NoHtml; NoHtml]) as Hl
    by (simpl; lia).
  destruct (yelp_breaker [NoHtml; Challenge; Listing []; NoHtml; NoHtml]
              [Listing [Samples.sunrise]; NoHtml] startNet Hf Hl) as (H1 & H2 & H3 & _ & _).
  split; [exact H1 | split; [exact H2 | exact H3]].
Defined.

(** C9 as stated fails for the other sources: after five failed BBB calls
    in a row the sixth BBB work unit still loads a page and nothing is
    marked skipped. *)
Lemma bbb_has_no_breaker :
  pageLoads (snd (runUnits BBB [NoHtml; NoHtml; NoHtml; NoHtml; NoHtml] startNet)) BBB = 5
  /\ pageLoads (snd (runUnits BBB ([NoHtml; NoHtml; NoHtml; NoHtml; NoHtml] ++ [NoHtml])
                       startNet)) BBB = 6
  /\ yelpSkipped (snd (runUnits BBB ([NoHtml; NoHtml; NoHtml; NoHtml; NoHtml] ++ [NoHtml])
                         startNet)) = 0.
Proof. vm_compute. repeat split. Qed.

End CircuitBreaker.

(** * Further properties of the code *)

(** ** Normalization *)

Section CharFacts.

Lemma allChars_filter (p : ascii -> bool) (s : string) : Shape.allChars p (Js.filter p s) = true.
Proof.
  induction s as [|c s IH]; simpl; [reflexivity|].
  destruct (p c) eqn:E; simpl; [rewrite E|]; exact IH.
Qed.

Lemma filter_allChars (p : ascii -> bool) (s : string) :
  Shape.allChars p s = true -> Js.filter p s = s.
Proof.
  induction s as [|c s IH]; simpl; [reflexivity|].
  intros [Hc Hs]%andb_true_iff. rewrite Hc, IH by exact Hs. reflexivity.
Qed.

Lemma allChars_drop (p : ascii -> bool) (n : nat) (s : string) :
  Shape.allChars p s = true -> Shape.allChars p (Js.drop n s) = true.
Proof.
  revert s. induction n as [|n IH]; intros s H; [exact H|].
  destruct s as [|c s]; [reflexivity|]. simpl in *.
  apply andb_true_iff in H as [_ H]. apply IH, H.
Qed.

Lemma allChars_impl (p q : ascii -> bool) (s : string) :
  (forall c, p c = true -> q c = true) ->
  Shape.allChars p s = true -> Shape.allChars q s = true.
Proof.
  intros Hpq. induction s as [|c s IH]; simpl; [reflexivity|].
  intros [Hc Hs]%andb_true_iff. rewrite (Hpq c Hc), IH by exact Hs. reflexivity.
Qed.

End CharFacts.

Section PhoneShape.

(** X1: a normalized phone holds digits only, at most ten of them, and
    normalizing it again changes nothing. *)
Theorem normPhone_shape (p : string) :
  Shape.allChars Js.isDigit (ER.normPhone p) = true
  /\ String.length (ER.normPhone p) <= 10
  /\ ER.normPhone (ER.normPhone p) = ER.normPhone p.
Proof.
  assert (Shape.allChars Js.isDigit (ER.normPhone p) = true) as Hd
    by (apply allChars_drop, allChars_filter).
  pose proof (normPhone_length p) as Hl.
  split; [exact Hd|]. split; [exact Hl|].
  unfold ER.normPhone at 1. rewrite (filter_allChars _ _ Hd).
  unfold Js.sliceLast.
  replace (String.length (ER.normPhone p) - 10) with 0 by lia. reflexivity.
Qed.

End PhoneShape.

Section NameShape.

Import Shape.

Lemma noSpaceRun_cons (a : ascii) (t : string) :
  noSpaceRun (String a t) = negb (Js.isSpace a && startsWithSpace t) && noSpaceRun t.
Proof. destruct t as [|b t]; simpl; [rewrite andb_false_r|]; reflexivity. Qed.

Lemma kept_not_space (c : ascii) :
  ER.keptInName c = true -> Js.isSpace c = false -> nameChar c = true.
Proof.
  unfold ER.keptInName, nameChar. intros H Hs. rewrite Hs, orb_false_r in H.
  rewrite H. reflexivity.
Qed.

Lemma collapse_chars (b : bool) (s : string) :
  allChars ER.keptInName s = true -> allChars nameChar (ER.collapseSpaces b s) = true.
Proof.
  revert b. induction s as [|c s IH]; intros b; simpl; [reflexivity|].
  intros [Hc Hs]%andb_true_iff.
  destruct (Js.isSpace c) eqn:E.
  - destruct b; simpl; apply IH, Hs.
  - simpl. rewrite (kept_not_space c Hc E). apply IH, Hs.
Qed.

Lemma collapse_start (s : string) : startsWithSpace (ER.collapseSpaces true s) = false.
Proof.
  induction s as [|c s IH]; simpl; [reflexivity|].
  destruct (Js.isSpace c) eqn:E; [exact IH | simpl; exact E].
Qed.

Lemma collapse_noRun (b : bool) (s : string) : noSpaceRun (ER.collapseSpaces b s) = true.
Proof.
  revert b. induction s as [|c s IH]; intros b; [reflexivity|].
  cbn [ER.collapseSpaces]. destruct (Js.isSpace c) eqn:E.
  - destruct b; [apply IH|].
    rewrite noSpaceRun_cons, collapse_start, andb_false_r. apply IH.
  - rewrite noSpaceRun_cons, E. apply IH.
Qed.

Lemma trimStart_chars (p : ascii -> bool) (s : string) :
  allChars p s = true -> allChars p (Js.trimStart s) = true.
Proof.
  induction s as [|c s IH]; simpl; [reflexivity|].
  intros H. destruct (Js.isSpace c); [|exact H].
  apply andb_true_iff in H as [_ H]. apply IH, H.
Qed.

Lemma trimStart_noRun (s : string) : noSpaceRun s = true -> noSpaceRun (Js.trimStart s) = true.
Proof.
  induction s as [|c s IH]; [reflexivity|]. intros H.
  cbn [Js.trimStart]. destruct (Js.isSpace c); [|exact H].
  rewrite noSpaceRun_cons in H. apply andb_true_iff in H as [_ H]. apply IH, H.
Qed.

Lemma trimStart_start (s : string) : startsWithSpace (Js.trimStart s) = false.
Proof.
  induction s as [|c s IH]; simpl; [reflexivity|].
  destruct (Js.isSpace c) eqn:E; [exact IH | simpl; exact E].
Qed.

Lemma trimEnd_cases (c : ascii) (r : string) :
  Js.trimEnd (String c r) = EmptyString /\ Js.allSpace (String c r) = true
  \/ Js.trimEnd (String c r) = String c (Js.trimEnd r) /\ Js.allSpace (String c r) = false.
Proof.
  cbn [Js.trimEnd]. destruct (Js.allSpace (String c r)); [left | right]; split; reflexivity.
Qed.

Lemma trimEnd_empty (s : string) : Js.trimEnd s = EmptyString -> Js.allSpace s = true.
Proof.
  destruct s as [|c r]; [reflexivity|].
  destruct (trimEnd_cases c r) as [[_ H] | [H _]]; [intros _; exact H|].
  rewrite H. discriminate.
Qed.

Lemma trimEnd_start (s : string) :
  startsWithSpace (Js.trimEnd s) = true -> startsWithSpace s = true.
Proof.
  destruct s as [|c r]; [discriminate|].
  destruct (trimEnd_cases c r) as [[-> _] | [-> _]]; [discriminate | exact (fun H => H)].
Qed.

Lemma trimEnd_chars (p : ascii -> bool) (s : string) :
  allChars p s = true -> allChars p (Js.trimEnd s) = true.
Proof.
  induction s as [|c r IH]; [reflexivity|]. intros H.
  destruct (trimEnd_cases c r) as [[-> _] | [-> _]]; [reflexivity|].
  simpl in *. apply andb_true_iff in H as [Hc Hr]. rewrite Hc. apply IH, Hr.
Qed.

Lemma trimEnd_noRun (s : string) : noSpaceRun s = true -> noSpaceRun (Js.trimEnd s) = true.
Proof.
  induction s as [|c r IH]; [reflexivity|]. intros H.
  destruct (trimEnd_cases c r) as [[-> _] | [-> _]]; [reflexivity|].
  rewrite noSpaceRun_cons in H |- *. apply andb_true_iff in H as [H1 H2].
  rewrite IH by exact H2. rewrite andb_true_r.
  destruct (startsWithSpace (Js.trimEnd r)) eqn:E; [|rewrite andb_false_r; reflexivity].
  rewrite (trimEnd_start r E) in H1. exact H1.
Qed.

Lemma trimEnd_end (s : string) : endsWithSpace (Js.trimEnd s) = false.
Proof.
  induction s as [|c r IH]; [reflexivity|].
  destruct (trimEnd_cases c r) as [[-> _] | [-> Hn]]; [reflexivity|].
  destruct (Js.trimEnd r) as [|d t] eqn:E.
  - apply trimEnd_empty in E. simpl in Hn. rewrite E, andb_true_r in Hn.
    simpl. exact Hn.
  - exact IH.
Qed.

(** X2: a normalized name consists of the letters a-z, digits and single
    blanks only, and neither starts nor ends with a blank. *)
Theorem normName_shape (n : string) :
  allChars nameChar (ER.normName n) = true
  /\ noSpaceRun (ER.normName n) = true
  /\ startsWithSpace (ER.normName n) = false
  /\ endsWithSpace (ER.normName n) = false.
Proof.
  unfold ER.normName, Js.trim.
  set (s := Js.filter ER.keptInName (ER.replaceWords 0 false (Js.toLowerCase n))).
  assert (allChars ER.keptInName s = true) as Hs by apply allChars_filter.
  split; [|split; [|split]].
  - apply trimEnd_chars, trimStart_chars, collapse_chars, Hs.
  - apply trimEnd_noRun, trimStart_noRun, collapse_noRun.
  - destruct (startsWithSpace (Js.trimEnd (Js.trimStart (ER.collapseSpaces false s)))) eqn:E;
      [|reflexivity].
    apply trimEnd_start in E. rewrite trimStart_start in E. discriminate.
  - apply trimEnd_end.
Qed.

End NameShape.

(** ** The Dice score *)

Section DiceScore.

Import DiceFacts.

Lemma bigram_eqb_eq (x y : ER.bigram) : ER.bigram_eqb x y = true <-> x = y.
Proof.
  destruct x as [a b], y as [c d]. unfold ER.bigram_eqb. simpl.
  rewrite andb_true_iff, !Ascii.eqb_eq. split; [intros [-> ->]; reflexivity|].
  intros [= -> ->]. split; reflexivity.
Qed.

(** an index below the start of the scan plays no role *)
Lemma free_below (bb : list ER.bigram) (i k : nat) (u : gset nat) :
  k < i -> free bb i ({[ k ]} ∪ u) = free bb i u.
Proof.
  revert i. induction bb as [|y r IH]; intros i Hk; simpl; [reflexivity|].
  rewrite IH by lia.
  destruct (decide (i ∈ u)) as [Hi|Hi].
  - rewrite !bool_decide_eq_true_2; [reflexivity | exact Hi |].
    apply elem_of_union. right. exact Hi.
  - rewrite !bool_decide_eq_false_2; [reflexivity | exact Hi |].
    intros [Hs|Hu]%elem_of_union; [|exact (Hi Hu)].
    apply elem_of_singleton in Hs. lia.
Qed.

Lemma bag_cons (x : ER.bigram) (l : list ER.bigram) : bag (x :: l) = {[+ x +]} ⊎ bag l.
Proof. reflexivity. Qed.

Lemma inter_skip (x : ER.bigram) (R A : gmultiset ER.bigram) :
  x ∉ A -> ({[+ x +]} ⊎ R) ∩ A = R ∩ A.
Proof.
  intros H. apply not_elem_of_multiplicity in H. apply gmultiset_eq. intros y.
  rewrite !multiplicity_intersection, multiplicity_disj_union, multiplicity_singleton.
  destruct (decide (y = x)) as [->|]; lia.
Qed.

Lemma inter_empty (A : gmultiset ER.bigram) : ∅ ∩ A = ∅.
Proof.
  apply gmultiset_eq. intros y.
  rewrite multiplicity_intersection, multiplicity_empty. lia.
Qed.

Lemma findFree_none (x : ER.bigram) (bb : list ER.bigram) (i : nat) (u : gset nat) :
  ER.findFree x bb i u = None -> x ∉ bag (free bb i u).
Proof.
  revert i. induction bb as [|y r IH]; intros i; cbn [ER.findFree free].
  - intros _. apply gmultiset_not_elem_of_empty.
  - destruct (decide (i ∈ u)) as [Hi|Hi].
    + rewrite bool_decide_eq_true_2 by exact Hi. cbn [negb andb]. apply IH.
    + rewrite bool_decide_eq_false_2 by exact Hi. cbn [negb andb].
      destruct (ER.bigram_eqb x y) eqn:E; [discriminate|].
      intros H. specialize (IH _ H). rewrite bag_cons.
      assert (x <> y) as Hxy by (intros ->; rewrite bigram_eqb_refl in E; discriminate).
      rewrite gmultiset_elem_of_disj_union, gmultiset_elem_of_singleton. tauto.
Qed.

Lemma findFree_some (x : ER.bigram) (bb : list ER.bigram) (i k : nat) (u : gset nat) :
  ER.findFree x bb i u = Some k ->
  (i <= k /\ k < i + length bb) /\ (k ∉ u)
  /\ bag (free bb i u) = {[+ x +]} ⊎ bag (free bb i ({[ k ]} ∪ u)).
Proof.
  revert i. induction bb as [|y r IH]; intros i; cbn [ER.findFree free length];
    [discriminate|].
  destruct (decide (i ∈ u)) as [Hi|Hi].
  - rewrite bool_decide_eq_true_2 by exact Hi. cbn [negb andb]. intros H.
    destruct (IH _ H) as (Hk & Hu & Hb).
    rewrite (bool_decide_eq_true_2 (i ∈ {[ k ]} ∪ u))
      by (apply elem_of_union; right; exact Hi).
    split; [lia|]. split; [exact Hu | exact Hb].
  - rewrite bool_decide_eq_false_2 by exact Hi. cbn [negb andb].
    destruct (ER.bigram_eqb x y) eqn:E.
    + intros [= <-]. apply bigram_eqb_eq in E as <-.
      rewrite (bool_decide_eq_true_2 (i ∈ {[ i ]} ∪ u))
        by (apply elem_of_union; left; apply elem_of_singleton; reflexivity).
      rewrite free_below by lia. rewrite bag_cons.
      split; [lia|]. split; [exact Hi | reflexivity].
    + intros H. destruct (IH _ H) as (Hk & Hu & Hb).
      rewrite (bool_decide_eq_false_2 (i ∈ {[ k ]} ∪ u)).
      2:{ intros [Hs|Hu']%elem_of_union; [|exact (Hi Hu')].
          apply elem_of_singleton in Hs. lia. }
      rewrite !bag_cons, Hb.
      split; [lia|]. split; [exact Hu|].
      rewrite !(assoc_L (⊎)), (comm_L (⊎) {[+ y +]} {[+ x +]}). reflexivity.
Qed.

(** the loop of [dice] counts the bigrams shared with the free part of [bb] *)
Lemma countMatches_bag (ab bb : list ER.bigram) (m : nat) (u : gset nat) :
  ER.countMatches ab bb m u = m + size (bag ab ∩ bag (free bb 0 u)).
Proof.
  revert m u. induction ab as [|x r IH]; intros m u; cbn [ER.countMatches].
  - change (bag []) with (∅ : gmultiset ER.bigram).
    rewrite inter_empty, gmultiset_size_empty. lia.
  - rewrite bag_cons.
    destruct (ER.findFree x bb 0 u) as [k|] eqn:E.
    + destruct (findFree_some x bb 0 k u E) as (_ & _ & Hb).
      rewrite IH, Hb, <- gmultiset_disj_union_intersection_l.
      rewrite gmultiset_size_disj_union, gmultiset_size_singleton. lia.
    + rewrite IH, (inter_skip x _ _ (findFree_none x bb 0 u E)). reflexivity.
Qed.

Lemma free_all (bb : list ER.bigram) (i : nat) : free bb i ∅ = bb.
Proof.
  revert i. induction bb as [|y r IH]; intros i; simpl; [reflexivity|].
  rewrite bool_decide_eq_false_2 by apply not_elem_of_empty. rewrite IH. reflexivity.
Qed.

Lemma bag_size (l : list ER.bigram) : size (bag l) = length l.
Proof.
  induction l as [|x l IH].
  - apply gmultiset_size_empty.
  - rewrite bag_cons, gmultiset_size_disj_union, gmultiset_size_singleton, IH. reflexivity.
Qed.

Lemma countMatches_shared (a b : string) :
  ER.countMatches (ER.bigrams a) (ER.bigrams b) 0 ∅ = shared a b.
Proof. rewrite countMatches_bag, free_all. reflexivity. Qed.

Lemma shared_comm (a b : string) : shared a b = shared b a.
Proof. unfold shared. f_equal. apply (comm_L (∩)). Qed.

Lemma shared_le (a b : string) :
  shared a b <= length (ER.bigrams a) /\ shared a b <= length (ER.bigrams b).
Proof.
  unfold shared. rewrite <- !bag_size.
  split; apply gmultiset_subseteq_size.
  - intros y. rewrite multiplicity_intersection. lia.
  - intros y. rewrite multiplicity_intersection. lia.
Qed.

(** X4: the Dice score does not depend on the order of its two arguments. *)
Theorem dice_symmetric (a b : string) : ER.dice a b = ER.dice b a.
Proof.
  unfold ER.dice. rewrite !countMatches_shared.
  rewrite (orb_comm (negb (Js.truthy b))), (String.eqb_sym b a), (shared_comm b a),
    (Nat.add_comm (length (ER.bigrams b))).
  reflexivity.
Qed.

(** X3: the Dice score is [NaN] or a rational between 0 and 1; it is 0
    when a name is empty and 1 when the names are equal and not empty, and it
    is twice the number of shared bigrams over the number of all bigrams
    otherwise. *)
Theorem dice_range (a b : string) :
  match ER.dice a b with
  | NaN => a <> b /\ String.length a = 1 /\ String.length b = 1
  | Num q => (0 <= q)%Q /\ (q <= 1)%Q
  end
  /\ ER.dice a b
     = if negb (Js.truthy a) || negb (Js.truthy b) then Num 0
       else if String.eqb a b then Num 1
       else ER.jsdiv (2 * shared a b) (length (ER.bigrams a) + length (ER.bigrams b)).
Proof.
  assert (ER.dice a b
          = if negb (Js.truthy a) || negb (Js.truthy b) then Num 0
            else if String.eqb a b then Num 1
            else ER.jsdiv (2 * shared a b) (length (ER.bigrams a) + length (ER.bigrams b)))
    as Hd by (unfold ER.dice; rewrite countMatches_shared; reflexivity).
  split; [|exact Hd]. rewrite Hd.
  destruct (negb (Js.truthy a) || negb (Js.truthy b)) eqn:Et.
  - split; [apply Qle_refl | unfold Qle; simpl; lia].
  - destruct (String.eqb a b) eqn:Ee.
    + split; [unfold Qle; simpl; lia | apply Qle_refl].
    + apply orb_false_iff in Et as [Ha Hb].
      apply negb_false_iff in Ha, Hb.
      destruct (shared_le a b) as [H1 H2].
      unfold ER.jsdiv.
      destruct (length (ER.bigrams a) + length (ER.bigrams b)) as [|n] eqn:En.
      * split; [apply String.eqb_neq, Ee|].
        destruct a as [|a0 [|a1 a]]; try discriminate;
          destruct b as [|b0 [|b1 b]]; try discriminate; split; reflexivity.
      * split; unfold Qle; cbn [Qnum Qden].
        -- lia.
        -- rewrite <- Pos.of_nat_succ, Zpos_P_of_succ_nat. lia.
Qed.

End DiceScore.

(** ** The match predicate and [dedupe] *)

Section MatchSymmetry.

Lemma domainTest_sym (a b : Biz) : domainTest a b = domainTest b a.
Proof.
  unfold domainTest.
  rewrite (String.eqb_sym (ER.normDomain (website b))).
  destruct (Js.truthy (ER.normDomain (website a))),
           (Js.truthy (ER.normDomain (website b))); reflexivity.
Qed.

Lemma phoneTest_sym (a b : Biz) : phoneTest a b = phoneTest b a.
Proof.
  unfold phoneTest.
  rewrite (String.eqb_sym (ER.normPhone (phone b))).
  destruct (String.eqb (ER.normPhone (phone a)) (ER.normPhone (phone b))) eqn:E.
  - apply String.eqb_eq in E. rewrite E.
    destruct (Js.truthy (ER.normPhone (phone b))); reflexivity.
  - rewrite !andb_false_r. reflexivity.
Qed.

Lemma score_sym (a b : Biz) : score a b = score b a.
Proof.
  unfold score, ER.dice. rewrite !countMatches_shared.
  rewrite (orb_comm (negb (Js.truthy (ER.normName (company_name b))))),
    (String.eqb_sym (ER.normName (company_name b))),
    (shared_comm (ER.normName (company_name b))),
    (Nat.add_comm (length (ER.bigrams (ER.normName (company_name b))))).
  reflexivity.
Qed.

(** X5: [sameEntity] is symmetric. *)
Theorem sameEntity_symmetric (a b : Biz) : ER.sameEntity a b = ER.sameEntity b a.
Proof.
  rewrite !sameEntity_tests. unfold cityTest.
  rewrite (domainTest_sym a b), (phoneTest_sym a b), (score_sym a b),
    (String.eqb_sym (Js.toLowerCase (city a))).
  reflexivity.
Qed.

End MatchSymmetry.

Section DedupeInvariants.

Import DedupeFacts.

Lemma dedupeStep_length (uniq : list Biz) (b : Biz) :
  length uniq <= length (ER.dedupeStep uniq b) <= S (length uniq).
Proof.
  induction uniq as [|e u IH]; simpl; [lia|].
  destruct (ER.sameEntity e b); simpl; lia.
Qed.

Lemma dedupe_from_length (l uniq : list Biz) :
  length uniq <= length (fold_left ER.dedupeStep l uniq) <= length uniq + length l.
Proof.
  revert uniq. induction l as [|b l IH]; intros uniq; simpl; [lia|].
  pose proof (dedupeStep_length uniq b). specialize (IH (ER.dedupeStep uniq b)). lia.
Qed.

Lemma dedupe_from_head (l : list Biz) (e : Biz) (uniq : list Biz) :
  exists e' rest, fold_left ER.dedupeStep l (e :: uniq) = e' :: rest
                  /\ company_name e' = company_name e.
Proof.
  revert e uniq. induction l as [|b l IH]; intros e uniq; simpl.
  - exists e, uniq. split; reflexivity.
  - destruct (ER.sameEntity e b).
    + destruct (IH (ER.merge e b) uniq) as (e' & rest & H1 & H2).
      exists e', rest. split; [exact H1 | exact H2].
    + apply IH.
Qed.

(** X6: [dedupe] never returns more entities than it was given records, an
    input that is not empty gives at least one entity, and the first entity
    carries the name of the first record. *)
Theorem dedupe_size (l : list Biz) :
  length (ER.dedupe l) <= length l
  /\ match l with
     | [] => ER.dedupe l = []
     | b :: _ => exists e rest, ER.dedupe l = e :: rest
                                /\ company_name e = company_name b
     end.
Proof.
  split.
  - pose proof (dedupe_from_length l []). unfold ER.dedupe. simpl in *. lia.
  - destruct l as [|b l]; [reflexivity|].
    unfold ER.dedupe. simpl. apply (dedupe_from_head l (ER.fresh b) []).
Qed.








Lemma inList_In (x : string) (l : list string) : ER.inList x l = true <-> In x l.
Proof.
  unfold ER.inList. rewrite existsb_exists. split.
  - intros (y & Hy & E). apply String.eqb_eq in E. subst. exact Hy.
  - intros H. exists x. split; [exact H | apply String.eqb_refl].
Qed.

Lemma merge_sourced (e b : Biz) : sourced e -> sourced (ER.merge e b).
Proof.
  intros (rest & Hs & Hn). unfold sourced, ER.merge. simpl. rewrite Hs.
  destruct (ER.inList (source b) (source e :: rest)) eqn:E.
  - exists rest. split; [reflexivity | exact Hn].
  - exists (rest ++ [source b]). split; [reflexivity|].
    change (NoDup ((source e :: rest) ++ [source b])).
    apply NoDup_app. split; [exact Hn|]. split; [|apply NoDup_singleton].
    intros x Hx Hb. apply list_elem_of_In in Hb. destruct Hb as [Hb|[]]. subst x.
    apply list_elem_of_In in Hx. apply inList_In in Hx. congruence.
Qed.

Lemma merge_sources_grow (e b : Biz) (s : string) :
  In s (sourcesOf e) -> In s (sourcesOf (ER.merge e b)).
Proof.
  unfold sourcesOf, ER.merge. simpl. destruct (sources e) as [l|]; [|intros []].
  intros H. destruct (ER.inList (source b) l); [exact H|].
  apply in_or_app. left. exact H.
Qed.

Lemma merge_sources_new (e b : Biz) : sourced e -> In (source b) (sourcesOf (ER.merge e b)).
Proof.
  intros (rest & Hs & _). unfold sourcesOf, ER.merge. simpl. rewrite Hs.
  destruct (ER.inList (source b) (source e :: rest)) eqn:E.
  - apply inList_In, E.
  - apply in_or_app. right. left. reflexivity.
Qed.

Lemma dedupeStep_sourced (uniq : list Biz) (b : Biz) :
  Forall sourced uniq -> Forall sourced (ER.dedupeStep uniq b).
Proof.
  induction uniq as [|e u IH]; intros H; cbn [ER.dedupeStep].
  - constructor; [|constructor]. exists []. split; [reflexivity|].
    apply NoDup_singleton.
  - apply Forall_cons in H as [He Hu]. destruct (ER.sameEntity e b).
    + constructor; [apply merge_sourced, He | exact Hu].
    + constructor; [exact He | apply IH, Hu].
Qed.

Lemma dedupeStep_covered_old (uniq : list Biz) (b : Biz) (s : string) :
  covered s uniq -> covered s (ER.dedupeStep uniq b).
Proof.
  induction uniq as [|e u IH]; intros (x & Hx & Hs); [destruct Hx|].
  cbn [ER.dedupeStep]. destruct Hx as [<-|Hx].
  - destruct (ER.sameEntity e b).
    + exists (ER.merge e b). split; [left; reflexivity | apply merge_sources_grow, Hs].
    + exists e. split; [left; reflexivity | exact Hs].
  - destruct (ER.sameEntity e b).
    + exists x. split; [right; exact Hx | exact Hs].
    + destruct IH as (y & Hy & Hys); [exists x; split; assumption|].
      exists y. split; [right; exact Hy | exact Hys].
Qed.

Lemma dedupeStep_covered_new (uniq : list Biz) (b : Biz) :
  Forall sourced uniq -> covered (source b) (ER.dedupeStep uniq b).
Proof.
  induction uniq as [|e u IH]; intros H; cbn [ER.dedupeStep].
  - exists (ER.fresh b). split; [left; reflexivity | left; reflexivity].
  - apply Forall_cons in H as [He Hu]. destruct (ER.sameEntity e b).
    + exists (ER.merge e b). split; [left; reflexivity | apply merge_sources_new, He].
    + destruct (IH Hu) as (y & Hy & Hys). exists y. split; [right; exact Hy | exact Hys].
Qed.

Lemma dedupe_from_sources (l uniq : list Biz) :
  Forall sourced uniq ->
  Forall sourced (fold_left ER.dedupeStep l uniq)
  /\ (forall s, covered s uniq -> covered s (fold_left ER.dedupeStep l uniq))
  /\ (forall r, In r l -> covered (source r) (fold_left ER.dedupeStep l uniq)).
Proof.
  revert uniq. induction l as [|b l IH]; intros uniq H; simpl.
  - split; [exact H|]. split; [tauto | intros r []].
  - destruct (IH _ (dedupeStep_sourced uniq b H)) as (H1 & H2 & H3).
    split; [exact H1|]. split.
    + intros s Hs. apply H2, dedupeStep_covered_old, Hs.
    + intros r [<-|Hr]; [apply H2, dedupeStep_covered_new, H | apply H3, Hr].
Qed.

(** X8: every entity [dedupe] returns lists its own source first and lists
    no source twice, and the source of every input record is listed by some
    entity: no sighting is lost. *)
Theorem dedupe_sources (l : list Biz) :
  Forall sourced (ER.dedupe l)
  /\ (forall r, In r l -> covered (source r) (ER.dedupe l)).
Proof.
  destruct (dedupe_from_sources l [] (List.Forall_nil sourced)) as (H1 & _ & H3).
  split; [exact H1 | exact H3].
Qed.

End DedupeInvariants.

(** ** Email validity and names *)

Section ValidEmail.

Import Enrich.

Lemma lowerChar_at (c : ascii) : Ascii.eqb (Js.lowerChar c) "@" = Ascii.eqb c "@".
Proof. destruct c as [[] [] [] [] [] [] [] []]; reflexivity. Qed.

Lemma countAt_lower (s : string) : countAt (Js.toLowerCase s) = countAt s.
Proof.
  unfold Js.toLowerCase. induction s as [|c s IH]; cbn [Js.map countAt]; [reflexivity|].
  rewrite lowerChar_at, IH. reflexivity.
Qed.

(** X9: [validEmail] rejects every address that contains one of the
    fragments of [SKIP_EMAILS] in any letter case, and accepts only addresses
    of 6 to 80 code units with exactly one [@] whose part after the [@]
    holds a dot and neither starts nor ends with one. *)
Theorem validEmail_facts (e : string) :
  validEmail e && existsb (fun s => includes s (Js.toLowerCase e)) SKIP_EMAILS = false
  /\ (if validEmail e
      then 6 <= String.length e <= 80 /\ countAt e = 1
           /\ exists domain,
                Js.afterChar "@" (Js.toLowerCase e) = Some domain
                /\ includes "." domain = true
                /\ Js.startsWith "." domain = false
                /\ lastChar domain <> Some "."%char
      else True).
Proof.
  split.
  - unfold validEmail.
    destruct (negb (Js.truthy e) || Nat.ltb 80 (String.length e)
              || Nat.ltb (String.length e) 6); [reflexivity|].
    destruct (existsb (fun s => includes s (Js.toLowerCase e)) SKIP_EMAILS);
      [reflexivity | apply andb_false_r].
  - unfold validEmail.
    destruct (negb (Js.truthy e)); [exact I|]. cbn [orb].
    destruct (Nat.ltb 80 (String.length e)) eqn:E1; [exact I|].
    destruct (Nat.ltb (String.length e) 6) eqn:E2; [exact I|]. cbn [orb].
    destruct (existsb _ SKIP_EMAILS); [exact I|].
    rewrite countAt_lower.
    destruct (Nat.eqb (countAt e) 1) eqn:E3; [|exact I]. cbn [negb].
    apply Nat.ltb_ge in E1, E2. apply Nat.eqb_eq in E3.
    destruct (Js.afterChar "@" (Js.toLowerCase e)) as [d|]; [|exact I].
    destruct (includes "." d) eqn:Hd; cbn [negb orb]; [|exact I].
    destruct (lastChar d) as [c|] eqn:Hl.
    + destruct (Ascii.eqb c ".") eqn:Hc; cbn [orb]; [exact I|].
      destruct (Js.startsWith "." d) eqn:Hs; [exact I|].
      split; [lia|]. split; [exact E3|]. exists d.
      split; [reflexivity|]. split; [exact Hd|]. split; [exact Hs|].
      rewrite Hl. intros H. injection H as H. subst c. cbv in Hc. discriminate Hc.
    + cbn [orb]. destruct (Js.startsWith "." d) eqn:Hs; [exact I|].
      split; [lia|]. split; [exact E3|]. exists d.
      split; [reflexivity|]. split; [exact Hd|]. split; [exact Hs|].
      rewrite Hl. discriminate.
Qed.

End ValidEmail.

Section Names.

Import Enrich EnrichFacts.

Lemma append_cons (c : ascii) (a b : string) : String c a +:+ b = String c (a +:+ b).
Proof. reflexivity. Qed.

Lemma append_nil_r (s : string) : s +:+ EmptyString = s.
Proof.
  induction s as [|c s IH]; [reflexivity|]. rewrite append_cons, IH. reflexivity.
Qed.

Lemma append_assoc (a b c : string) : (a +:+ b) +:+ c = a +:+ (b +:+ c).
Proof.
  induction a as [|x a IH]; [reflexivity|]. rewrite !append_cons, IH. reflexivity.
Qed.

Lemma append_empty (a b : string) : a +:+ b = EmptyString -> a = EmptyString.
Proof. destruct a; [reflexivity | discriminate]. Qed.

Lemma allChars_app (p : ascii -> bool) (a b : string) :
  Shape.allChars p (a +:+ b) = Shape.allChars p a && Shape.allChars p b.
Proof.
  induction a as [|x a IH]; [reflexivity|].
  rewrite append_cons. cbn [Shape.allChars]. rewrite IH, andb_assoc. reflexivity.
Qed.

Lemma words_solid (s cur : string) :
  Shape.allChars notSpace cur = true -> Forall solid (words cur s).
Proof.
  revert cur. induction s as [|c s IH]; intros cur Hc; cbn [words].
  - destruct cur as [|x cur]; [constructor|].
    constructor; [split; [discriminate | exact Hc] | constructor].
  - destruct (Js.isSpace c) eqn:E.
    + destruct cur as [|x cur]; [apply IH; reflexivity|].
      constructor; [split; [discriminate | exact Hc] | apply IH; reflexivity].
    + apply IH. rewrite allChars_app, Hc. cbn [Shape.allChars]. unfold notSpace. rewrite E. reflexivity.
Qed.

Lemma words_word (w s cur : string) :
  Shape.allChars notSpace w = true -> words cur (w +:+ s) = words (cur +:+ w) s.
Proof.
  revert cur. induction w as [|c w IH]; intros cur H.
  - rewrite append_nil_r. reflexivity.
  - cbn [Shape.allChars] in H. apply andb_true_iff in H as [Hc Hw].
    unfold notSpace in Hc. apply negb_true_iff in Hc.
    rewrite append_cons. cbn [words]. rewrite Hc.
    rewrite IH by exact Hw. rewrite append_assoc. reflexivity.
Qed.

Lemma words_single (w : string) : solid w -> words EmptyString w = [w].
Proof.
  intros [Hne Hw]. rewrite <- (append_nil_r w) at 1.
  rewrite words_word by exact Hw. destruct w; [congruence | reflexivity].
Qed.

Lemma joinSp_cons (w w2 : string) (r : list string) :
  joinSp (w :: w2 :: r) = w +:+ String " " (joinSp (w2 :: r)).
Proof. reflexivity. Qed.

Lemma words_blank (x : ascii) (w s : string) :
  words (String x w) (String " " s) = String x w :: words EmptyString s.
Proof. reflexivity. Qed.

Lemma words_joinSp (ws : list string) :
  Forall solid ws -> words EmptyString (joinSp ws) = ws.
Proof.
  induction ws as [|w r IH]; intros H; [reflexivity|].
  apply Forall_cons in H as [Hw Hr]. destruct r as [|w2 r].
  - apply words_single, Hw.
  - rewrite joinSp_cons. destruct Hw as [Hne Hw].
    rewrite words_word by exact Hw.
    destruct w as [|x w]; [congruence|].
    change (EmptyString +:+ String x w) with (String x w).
    rewrite words_blank. f_equal. apply IH, Hr.
Qed.

(** X10: [firstName] is the first word of a name and holds no white space,
    and the words of [firstName] followed by the words of [lastName] are the
    words of the name, in order: splitting a name drops only white space. *)
Theorem name_split_keeps_words (full : string) :
  Shape.allChars notSpace (firstName full) = true
  /\ words EmptyString (firstName full) ++ words EmptyString (lastName full)
     = words EmptyString full.
Proof.
  pose proof (words_solid full EmptyString eq_refl) as Hs.
  unfold firstName, lastName.
  destruct (words EmptyString full) as [|w [|w2 r]].
  - split; reflexivity.
  - apply Forall_cons in Hs as [Hw _]. split; [apply Hw|].
    rewrite (words_single w Hw). reflexivity.
  - apply Forall_cons in Hs as [Hw Hr]. split; [apply Hw|].
    rewrite (words_single w Hw), (words_joinSp _ Hr). reflexivity.
Qed.

End Names.

(** ** Pattern detection and generation *)

Section PatternFacts.

Import Infer EnrichFacts.

Lemma votesFor_perm (p : Pattern) (cs cs' : list Contact) :
  Permutation cs cs' -> votesFor p cs = votesFor p cs'.
Proof.
  intros H. unfold votesFor. apply Permutation_length.
  induction H as [|x l l' H IH|x y l|l l' l'' H1 IH1 H2 IH2]; simpl.
  - constructor.
  - destruct (match specVote x with Some q => pattern_eqb q p | None => false end);
      [constructor|]; exact IH.
  - destruct (match specVote x with Some q => pattern_eqb q p | None => false end),
             (match specVote y with Some q => pattern_eqb q p | None => false end);
      try reflexivity. apply perm_swap.
  - exact (perm_trans IH1 IH2).
Qed.

(** X11: the detected pattern depends only on which contacts are given, not
    on their order. *)
Theorem detectEmailPattern_order (cs cs' : list Contact) :
  Permutation cs cs' -> detectEmailPattern cs = detectEmailPattern cs'.
Proof.
  intros H. rewrite !detect_specDetect. unfold specDetect.
  assert (forall p, votesFor p cs = votesFor p cs') as Hv
    by (intros p; apply votesFor_perm, H).
  rewrite (List.map_ext _ _ Hv).
  destruct (Nat.eqb _ 0); [reflexivity|].
  unfold allPatterns, List.find. rewrite !Hv. reflexivity.
Qed.

Lemma detectEmailPattern_order_witness :
  detectEmailPattern [EnrichSamples.john; EnrichSamples.jane; EnrichSamples.sarahKnown]
  = detectEmailPattern [EnrichSamples.sarahKnown; EnrichSamples.jane; EnrichSamples.john].
Proof.
  apply detectEmailPattern_order.
  apply (perm_trans (perm_swap _ _ _)), (perm_trans (perm_skip _ (perm_swap _ _ _))).
  apply perm_swap.
Defined.

Lemma lowerChar_local (c : ascii) : localChar c = true -> Js.lowerChar c = c.
Proof. destruct c as [[] [] [] [] [] [] [] []]; (reflexivity || discriminate). Qed.

Lemma localChar_notAt (c : ascii) : localChar c = true -> notAt c = true.
Proof. destruct c as [[] [] [] [] [] [] [] []]; (reflexivity || discriminate). Qed.

Lemma toLowerCase_local (s : string) :
  Shape.allChars localChar s = true -> Js.toLowerCase s = s.
Proof.
  unfold Js.toLowerCase. induction s as [|c s IH]; [reflexivity|].
  cbn [Shape.allChars Js.map]. intros [Hc Hs]%andb_true_iff.
  rewrite (lowerChar_local c Hc), IH by exact Hs. reflexivity.
Qed.

Lemma beforeChar_app (s d : string) :
  Shape.allChars notAt s = true -> Js.beforeChar "@" (s +:+ String "@" d) = s.
Proof.
  induction s as [|c s IH]; [reflexivity|].
  cbn [Shape.allChars]. intros [Hc Hs]%andb_true_iff.
  rewrite append_cons. cbn [Js.beforeChar].
  unfold notAt in Hc. apply negb_true_iff in Hc. rewrite Hc, IH by exact Hs. reflexivity.
Qed.

Lemma afterChar_app (s d : string) :
  Shape.allChars notAt s = true -> Js.afterChar "@" (s +:+ String "@" d) = Some d.
Proof.
  induction s as [|c s IH]; [reflexivity|].
  cbn [Shape.allChars]. intros [Hc Hs]%andb_true_iff.
  rewrite append_cons. cbn [Js.afterChar].
  unfold notAt in Hc. apply negb_true_iff in Hc. rewrite Hc. apply IH, Hs.
Qed.

Lemma lettersOnly_local (s : string) : Shape.allChars localChar (lettersOnly s) = true.
Proof.
  unfold lettersOnly. apply (allChars_impl Js.isLower); [|apply allChars_filter].
  intros c H. unfold localChar. rewrite H. reflexivity.
Qed.

Lemma firstChar_local (s : string) :
  Shape.allChars localChar s = true -> Shape.allChars localChar (Js.firstChar s) = true.
Proof.
  destruct s as [|c s]; [reflexivity|]. cbn [Shape.allChars Js.firstChar].
  intros [Hc _]%andb_true_iff. rewrite Hc. reflexivity.
Qed.

Lemma candidate_local (p : Pattern) (f l : string) :
  Shape.allChars localChar f = true -> Shape.allChars localChar l = true ->
  Shape.allChars localChar (candidate p f l) = true.
Proof.
  intros Hf Hl. pose proof (firstChar_local f Hf). pose proof (firstChar_local l Hl).
  destruct p; cbn [candidate]; rewrite ?allChars_app; cbn [Shape.allChars];
    rewrite ?Hf, ?Hl, ?H, ?H0; reflexivity.
Qed.

Lemma generateEmail_candidate (p : Pattern) (fname lname domain : string) :
  generateEmail p fname lname domain
  = let f := lettersOnly (Js.toLowerCase fname) in
    let l := lettersOnly (Js.toLowerCase lname) in
    if negb (Js.truthy f) || negb (Js.truthy l) then None
    else Some (candidate p f l +:+ String "@" domain).
Proof.
  unfold generateEmail. cbv zeta.
  destruct (negb (Js.truthy _) || negb (Js.truthy _)); [reflexivity|].
  destruct p; cbn [candidate]; rewrite ?append_assoc; reflexivity.
Qed.

Lemma lowerChar_plain (c : ascii) : plainLetter c = true -> Js.isLower (Js.lowerChar c) = true.
Proof. destruct c as [[] [] [] [] [] [] [] []]; (reflexivity || discriminate). Qed.

(** a name of letters keeps all its code units in [generateEmail] *)
Lemma lettersOnly_plain (s : string) :
  Shape.allChars plainLetter s = true ->
  lettersOnly (Js.toLowerCase s) = Js.toLowerCase s.
Proof.
  unfold lettersOnly, Js.toLowerCase. induction s as [|c s IH]; [reflexivity|].
  cbn [Shape.allChars Js.map Js.filter]. intros [Hc Hs]%andb_true_iff.
  rewrite (lowerChar_plain c Hc), IH by exact Hs. reflexivity.
Qed.

(** X12: for a person whose names consist of letters A-Z and a-z, the
    address made by [generateEmail] has the candidate of the pattern, built
    from the lower-cased names, before its [@] and the domain after it, and
    the contact that the inference step builds from the address and the
    names of the person votes in [detectEmailPattern] for a pattern with
    that very candidate.  No address is made when a name is empty. *)
Theorem generateEmail_round_trip
    (p : Pattern) (fname lname domain ttl ph page : string) (k : Confidence) :
  Shape.allChars plainLetter fname = true ->
  Shape.allChars plainLetter lname = true ->
  match generateEmail p fname lname domain with
  | None => fname = EmptyString \/ lname = EmptyString
  | Some e =>
      Js.beforeChar "@" e = candidate p (Js.toLowerCase fname) (Js.toLowerCase lname)
      /\ Js.afterChar "@" e = Some domain
      /\ exists q, voteOf (mkContact e fname lname ttl ph k page) = Some q
                   /\ candidate q (Js.toLowerCase fname) (Js.toLowerCase lname)
                      = candidate p (Js.toLowerCase fname) (Js.toLowerCase lname)
  end.
Proof.
  intros Hpf Hpl. rewrite generateEmail_candidate. cbv zeta.
  rewrite (lettersOnly_plain fname Hpf), (lettersOnly_plain lname Hpl), !toLowerCase_truthy.
  assert (Shape.allChars localChar (Js.toLowerCase fname) = true) as Hf
    by (rewrite <- (lettersOnly_plain fname Hpf); apply lettersOnly_local).
  assert (Shape.allChars localChar (Js.toLowerCase lname) = true) as Hl
    by (rewrite <- (lettersOnly_plain lname Hpl); apply lettersOnly_local).
  destruct fname as [|f0 f']; [left; reflexivity|].
  destruct lname as [|l0 l']; [right; reflexivity|].
  cbn [Js.truthy negb orb].
  set (f := Js.toLowerCase (String f0 f')) in *.
  set (l := Js.toLowerCase (String l0 l')) in *.
  pose proof (candidate_local p f l Hf Hl) as Hc.
  assert (Shape.allChars notAt (candidate p f l) = true) as Hn
    by (apply (allChars_impl localChar); [apply localChar_notAt | exact Hc]).
  split; [apply beforeChar_app, Hn|]. split; [apply afterChar_app, Hn|].
  rewrite voteOf_specVote. unfold specVote. cbn [email first_name last_name].
  change (Js.toLowerCase (String f0 f')) with f.
  change (Js.toLowerCase (String l0 l')) with l.
  rewrite (beforeChar_app _ _ Hn), (toLowerCase_local _ Hc).
  destruct (candidate p f l +:+ String "@" domain) as [|e0 e'] eqn:Ee.
  { apply append_empty in Ee. subst f l. unfold Js.toLowerCase in Ee.
    cbn [Js.map] in Ee. destruct p; discriminate. }
  destruct (List.find (fun q => String.eqb (candidate p f l) (candidate q f l)) allPatterns)
    as [q|] eqn:Eq.
  - exists q. split; [reflexivity|].
    apply List.find_some in Eq as [_ Eq]. apply String.eqb_eq in Eq. congruence.
  - exfalso. assert (In p allPatterns) as Hin by (destruct p; simpl; tauto).
    pose proof (List.find_none _ _ Eq p Hin) as Hp. cbv beta in Hp.
    rewrite String.eqb_refl in Hp. discriminate.
Qed.

Lemma generateEmail_round_trip_witness :
  match generateEmail PFirstDotLast "Sarah" "Jones" "x.com" with
  | None => True
  | Some e =>
      Js.beforeChar "@" e = "sarah.jones"
      /\ Js.afterChar "@" e = Some "x.com"
      /\ exists q, voteOf (mkContact e "Sarah" "Jones" "" "" Inferred "") = Some q
                   /\ candidate q "sarah" "jones" = "sarah.jones"
  end.
Proof.
  exact (generateEmail_round_trip PFirstDotLast "Sarah" "Jones" "x.com" "" "" "" Inferred
           eq_refl eq_refl).
Defined.

(** a name with an apostrophe: the address is made of its letters, and the
    contact that carries the name as it is written casts no vote *)
Example apostrophe_casts_no_vote :
  generateEmail PFirstDotLast "Pat" "O'Brien" "x.com" = Some "pat.obrien@x.com"
  /\ voteOf (mkContact "pat.obrien@x.com" "Pat" "O'Brien" "" "" Inferred "") = None.
Proof. vm_compute. split; reflexivity. Qed.

End PatternFacts.

(** ** The MX cache and the enriched contacts *)

Section CacheFacts.

Import Enrich EnrichFacts.

Lemma cacheWithin_refl (c : gmap string bool) : cacheWithin c c.
Proof. intros d v H. exact H. Qed.

Lemma cacheWithin_trans (a b c : gmap string bool) :
  cacheWithin a b -> cacheWithin b c -> cacheWithin a c.
Proof. intros H1 H2 d v H. apply H2, H1, H. Qed.

Lemma cacheWithin_insert (c : gmap string bool) (d : string) (v : bool) :
  c !! d = None -> cacheWithin c (<[ d := v ]> c).
Proof.
  intros Hn d' v' H. destruct (decide (d = d')) as [<-|Hne].
  - congruence.
  - rewrite lookup_insert_ne by exact Hne. exact H.
Qed.

Lemma verifyEmailMx_within (dns : string -> option nat) (e : string) (cache : gmap string bool) :
  cacheWithin cache (snd (verifyEmailMx dns e cache)).
Proof.
  unfold verifyEmailMx.
  destruct (Js.splitSecond "@" e) as [d|]; [|apply cacheWithin_refl].
  destruct (negb (Js.truthy d)); [apply cacheWithin_refl|].
  destruct (cache !! d) eqn:Ec; [apply cacheWithin_refl|].
  destruct (dns d); apply cacheWithin_insert, Ec.
Qed.

Lemma verifyEmailMx_again (dns : string -> option nat) (e : string) (cache : gmap string bool) :
  verifyEmailMx dns e (snd (verifyEmailMx dns e cache)) = verifyEmailMx dns e cache.
Proof.
  unfold verifyEmailMx.
  destruct (Js.splitSecond "@" e) as [d|]; [|reflexivity].
  destruct (negb (Js.truthy d)); [reflexivity|].
  destruct (cache !! d) eqn:Ec; cbn [snd]; [rewrite Ec; reflexivity|].
  destruct (dns d); cbn [snd]; rewrite lookup_insert_eq; reflexivity.
Qed.

Lemma verifyAll_within (dns : string -> option nat) (cs : list Contact) (cache : gmap string bool) :
  cacheWithin cache (snd (verifyAll dns cs cache)).
Proof.
  revert cache. induction cs as [|c cs IH]; intros cache; cbn [verifyAll].
  - apply cacheWithin_refl.
  - pose proof (verifyEmailMx_within dns (email c) cache) as H1.
    destruct (verifyEmailMx dns (email c) cache) as [mx cache1]. cbn [snd] in H1.
    specialize (IH cache1).
    destruct (verifyAll dns cs cache1) as [r' cache2]. cbn [snd] in IH |- *.
    exact (cacheWithin_trans _ _ _ H1 IH).
Qed.

(** X13: an answer in the MX cache is never replaced: a lookup and a whole
    verification pass only add entries, and asking again for the same
    address gives the same answer and leaves the cache as it is. *)
Theorem mxCache_stable (dns : string -> option nat) (cache : gmap string bool) :
  (forall e, cacheWithin cache (snd (verifyEmailMx dns e cache)))
  /\ (forall cs, cacheWithin cache (snd (verifyAll dns cs cache)))
  /\ (forall e, verifyEmailMx dns e (snd (verifyEmailMx dns e cache))
                = verifyEmailMx dns e cache).
Proof.
  split; [|split].
  - intros e. apply verifyEmailMx_within.
  - intros cs. apply verifyAll_within.
  - intros e. apply verifyEmailMx_again.
Qed.

Lemma applyMx_settled (mx : bool) (k : Confidence) : settled (applyMx mx k) = true.
Proof. destruct mx, k; reflexivity. Qed.

Lemma verifyAll_settled (dns : string -> option nat) (cs : list Contact) (cache : gmap string bool) :
  forallb (fun c => settled (confidence c)) (fst (verifyAll dns cs cache)) = true.
Proof.
  revert cache. induction cs as [|c cs IH]; intros cache; cbn [verifyAll]; [reflexivity|].
  destruct (verifyEmailMx dns (email c) cache) as [mx cache1].
  specialize (IH cache1).
  destruct (verifyAll dns cs cache1) as [r' cache2]. cbn [fst] in IH |- *.
  cbn [forallb setConfidence confidence]. rewrite applyMx_settled, IH. reflexivity.
Qed.

(** X14: no contact leaves [enrichBusiness] with the confidence [found] or
    [inferred]: the MX step settles every one of them. *)
Theorem enrichBusiness_settles (b : Biz) (site : Site) (cache : gmap string bool) :
  forallb (fun c => settled (confidence c)) (fst (enrichBusiness b site cache)) = true.
Proof.
  unfold enrichBusiness.
  destruct (negb (Js.truthy (website b))); [reflexivity|].
  destruct (baseUrl site) as [base|]; [|reflexivity].
  destruct (negb (Js.truthy base)); [reflexivity|].
  destruct (homepage site); [|reflexivity].
  apply verifyAll_settled.
Qed.

End CacheFacts.

Section GatherFacts.

Import Enrich EnrichFacts.

Lemma addContacts_emails (cs : list Contact) (a : Acc) (seen : list string) :
  (forall x, x ∈ allEmails a <-> In x seen) ->
  List.map email (allContacts (fold_left addContact cs a))
  = List.map email (allContacts a) ++ firstOccurrences seen (List.map email cs).
Proof.
  revert a seen. induction cs as [|c cs IH]; intros a seen Hs; cbn [fold_left List.map firstOccurrences].
  - rewrite app_nil_r. reflexivity.
  - unfold addContact at 2. destruct (decide (email c ∈ allEmails a)) as [Hin|Hout].
    + rewrite bool_decide_eq_true_2 by exact Hin.
      replace (ER.inList (email c) seen) with true
        by (symmetry; apply inList_In, Hs, Hin).
      apply IH, Hs.
    + rewrite bool_decide_eq_false_2 by exact Hout.
      replace (ER.inList (email c) seen) with false.
      2:{ symmetry. apply not_true_is_false. intros H. apply Hout, Hs, inList_In, H. }
      rewrite (IH _ (email c :: seen)).
      * cbn [allContacts]. rewrite List.map_app, <- app_assoc. reflexivity.
      * intros x. cbn [allEmails]. rewrite elem_of_union, elem_of_singleton, Hs.
        simpl. split; intros [H|H]; auto.
Qed.

Lemma addContact_prefix (a : Acc) (c : Contact) :
  exists new, allContacts (addContact a c) = allContacts a ++ new.
Proof.
  unfold addContact. destruct (bool_decide (email c ∈ allEmails a)).
  - exists []. rewrite app_nil_r. reflexivity.
  - exists [c]. reflexivity.
Qed.

Lemma addContacts_prefix (cs : list Contact) (a : Acc) :
  exists new, allContacts (fold_left addContact cs a) = allContacts a ++ new.
Proof.
  revert a. induction cs as [|c cs IH]; intros a; cbn [fold_left].
  - exists []. rewrite app_nil_r. reflexivity.
  - destruct (IH (addContact a c)) as (n2 & H2).
    destruct (addContact_prefix a c) as (n1 & H1).
    exists (n1 ++ n2). rewrite H2, H1, <- app_assoc. reflexivity.
Qed.

Lemma addPage_prefix (a : Acc) (x : Extraction) :
  exists new, allContacts (addPage a x) = allContacts a ++ new.
Proof. unfold addPage. cbn [allContacts]. apply addContacts_prefix. Qed.

Lemma addSubpages_prefix (pages : list (option Extraction)) (a : Acc) :
  exists new, allContacts (addSubpages a pages) = allContacts a ++ new.
Proof.
  revert a. induction pages as [|[x|] r IH]; intros a; cbn [addSubpages].
  - exists []. rewrite app_nil_r. reflexivity.
  - destruct (addPage_prefix a x) as (n1 & H1).
    destruct (Nat.leb 5 (namedCount (addPage a x))).
    + exists n1. exact H1.
    + destruct (IH (addPage a x)) as (n2 & H2). exists (n1 ++ n2).
      rewrite H2, H1, <- app_assoc. reflexivity.
  - apply IH.
Qed.

Lemma addWhois_prefix (a : Acc) (w : option Registrant) :
  exists new, allContacts (addWhois a w) = allContacts a ++ new.
Proof.
  unfold addWhois. destruct w as [reg|]; [|exists []; rewrite app_nil_r; reflexivity].
  match goal with |- context [if ?c then _ else _] => destruct c end.
  - eexists. reflexivity.
  - exists []. rewrite app_nil_r. reflexivity.
Qed.

Lemma inferOne_new (p : Infer.Pattern) (domain : string) (a : Acc) (n : Person) :
  exists new,
    allContacts (inferOne p domain a n) = allContacts a ++ new
    /\ forallb (fun c => conf_eqb (confidence c) Inferred) new = true
    /\ length new <= 1.
Proof.
  unfold inferOne.
  destruct (Infer.generateEmail p (p_first_name n) (p_last_name n) domain) as [e|].
  - destruct (bool_decide (e ∈ allEmails a)).
    + exists []. rewrite app_nil_r. repeat split. simpl. lia.
    + eexists [_]. split; [reflexivity|]. split; [reflexivity | simpl; lia].
  - exists []. rewrite app_nil_r. repeat split. simpl. lia.
Qed.

Lemma inferLoop_new (p : Infer.Pattern) (domain : string) (names : list Person) (a : Acc) :
  exists new,
    allContacts (fold_left (inferOne p domain) names a) = allContacts a ++ new
    /\ forallb (fun c => conf_eqb (confidence c) Inferred) new = true
    /\ length new <= length names.
Proof.
  revert a. induction names as [|n names IH]; intros a; cbn [fold_left].
  - exists []. rewrite app_nil_r. repeat split. simpl. lia.
  - destruct (IH (inferOne p domain a n)) as (n2 & H2 & C2 & L2).
    destruct (inferOne_new p domain a n) as (n1 & H1 & C1 & L1).
    exists (n1 ++ n2). split; [|split].
    + rewrite H2, H1, <- app_assoc. reflexivity.
    + rewrite forallb_app, C1, C2. reflexivity.
    + rewrite length_app. simpl. lia.
Qed.

Lemma inferContacts_prefix (domain : string) (a : Acc) :
  exists new, allContacts (inferContacts domain a) = allContacts a ++ new.
Proof.
  unfold inferContacts.
  destruct (Infer.detectEmailPattern (allContacts a)) as [p|].
  - destruct (inferLoop_new p domain (allNamesNoEmail a) a) as (new & H & _).
    exists new. exact H.
  - exists []. rewrite app_nil_r. reflexivity.
Qed.

(** X15: the inference step leaves the contacts it finds as they are and
    appends only contacts of confidence [inferred], at most one for each
    name without email. *)
Theorem inferContacts_appends (domain : string) (a : Acc) :
  exists new,
    allContacts (inferContacts domain a) = allContacts a ++ new
    /\ forallb (fun c => conf_eqb (confidence c) Inferred) new = true
    /\ length new <= length (allNamesNoEmail a).
Proof.
  unfold inferContacts.
  destruct (Infer.detectEmailPattern (allContacts a)) as [p|].
  - apply inferLoop_new.
  - exists []. rewrite app_nil_r. repeat split. simpl. lia.
Qed.

Lemma gather_homepage (site : Site) (base : string) (home : Extraction) :
  exists more,
    List.map email (allContacts (gather site base home))
    = firstOccurrences [] (List.map email (ex_contacts home)) ++ more.
Proof.
  unfold gather.
  set (a0 := addPage {| allContacts := []; allEmails := ∅; allNamesNoEmail := [] |} home).
  assert (List.map email (allContacts a0)
          = firstOccurrences [] (List.map email (ex_contacts home))) as H0.
  { subst a0. unfold addPage. cbn [allContacts].
    rewrite (addContacts_emails _ _ []); [reflexivity|].
    intros x. cbn [allEmails]. split; [intros H; exact (not_elem_of_empty x H) | intros []]. }
  destruct (addSubpages_prefix (subpages site) a0) as (n1 & H1).
  destruct (addWhois_prefix (addSubpages a0 (subpages site)) (whois site)) as (n2 & H2).
  destruct (inferContacts_prefix (domainOf base)
              (addWhois (addSubpages a0 (subpages site)) (whois site))) as (n3 & H3).
  exists (List.map email (n1 ++ n2 ++ n3)).
  rewrite H3, H2, H1, <- H0, <- List.map_app, <- !app_assoc. reflexivity.
Qed.

(** X16: the contacts of an enriched business begin with the addresses of
    the homepage, each once, in the order in which the homepage gives them
    first; the pages, the registrant and the inference only add behind
    them.  Without a website, without a URL from [resolveUrl] that is not
    empty, or without a homepage there are no contacts, and the MX cache is
    left as it is. *)
Theorem enrichBusiness_homepage_first (b : Biz) (site : Site) (cache : gmap string bool) :
  match Js.truthy (website b), baseUrl site, homepage site with
  | true, Some (String _ _), Some home =>
      exists more,
        List.map email (fst (enrichBusiness b site cache))
        = firstOccurrences [] (List.map email (ex_contacts home)) ++ more
  | _, _, _ => enrichBusiness b site cache = ([], cache)
  end.
Proof.
  unfold enrichBusiness.
  destruct (Js.truthy (website b)); cbn [negb]; [|reflexivity].
  destruct (baseUrl site) as [[|b0 base]|]; cbn [Js.truthy negb]; try reflexivity.
  destruct (homepage site) as [home|]; [|reflexivity].
  rewrite verifyAll_emails. apply gather_homepage.
Qed.

End GatherFacts.

(** ** The dedup key and the accept loop *)

Section KeyFacts.

Import Sched SchedFacts.

Lemma bar_split (x x' y y' : string) :
  Shape.allChars notBar x = true -> Shape.allChars notBar x' = true ->
  x +:+ String "|" y = x' +:+ String "|" y' -> x = x' /\ y = y'.
Proof.
  revert x'. induction x as [|c x IH]; intros x' Hx Hx' E.
  - destruct x' as [|c' x'].
    + injection E as ->. split; reflexivity.
    + rewrite append_cons in E. injection E as <- _.
      cbn [Shape.allChars] in Hx'. discriminate.
  - destruct x' as [|c' x'].
    + rewrite append_cons in E. injection E as -> _.
      cbn [Shape.allChars] in Hx. discriminate.
    + rewrite !append_cons in E. injection E as -> E.
      cbn [Shape.allChars] in Hx, Hx'.
      apply andb_true_iff in Hx as [_ Hx]. apply andb_true_iff in Hx' as [_ Hx'].
      destruct (IH x' Hx Hx' E) as [-> ->]. split; reflexivity.
Qed.

Lemma lowerOrDigit_notBar (c : ascii) : isLowerOrDigit c = true -> notBar c = true.
Proof. destruct c as [[] [] [] [] [] [] [] []]; (reflexivity || discriminate). Qed.

Lemma lower_notBar (c : ascii) : Js.isLower c = true -> notBar c = true.
Proof. destruct c as [[] [] [] [] [] [] [] []]; (reflexivity || discriminate). Qed.

Lemma dedupKey_parts (b : Biz) :
  dedupKey b = keyName b +:+ String "|" (keyCity b +:+ String "|" (keyState b)).
Proof. reflexivity. Qed.

(** X17: two records have the same dedup key exactly when their names agree
    on the letters and digits, and their cities and states on the letters,
    all without regard to case: the separators cannot be confused with the
    parts they separate. *)
Theorem dedupKey_injective (a b : Biz) :
  dedupKey a = dedupKey b
  <-> keyName a = keyName b /\ keyCity a = keyCity b /\ keyState a = keyState b.
Proof.
  rewrite !dedupKey_parts. split.
  - intros E.
    assert (forall x, Shape.allChars notBar (keyName x) = true) as Hn
      by (intros x; apply (allChars_impl isLowerOrDigit);
          [apply lowerOrDigit_notBar | apply allChars_filter]).
    assert (forall x, Shape.allChars notBar (keyCity x) = true) as Hc
      by (intros x; apply (allChars_impl Js.isLower);
          [apply lower_notBar | apply allChars_filter]).
    destruct (bar_split _ _ _ _ (Hn a) (Hn b) E) as [E1 E2].
    destruct (bar_split _ _ _ _ (Hc a) (Hc b) E2) as [E3 E4].
    repeat split; assumption.
  - intros (-> & -> & ->). reflexivity.
Qed.

End KeyFacts.

Section AcceptFacts.

Import Sched SchedFacts.

Lemma countOf_insert (st : State) (cat : string) (c : nat) (a : list Biz)
    (g : gset string) (k : list Biz) :
  countOf {| allBiz := a; globalSeen := g; catCounts := <[ cat := c ]> (catCounts st);
             chunkBiz := k |} cat = c.
Proof. unfold countOf. simpl. rewrite lookup_insert_eq. reflexivity. Qed.

Lemma countOf_insert_ne (st : State) (cat other : string) (c : nat) (a : list Biz)
    (g : gset string) (k : list Biz) :
  cat <> other ->
  countOf {| allBiz := a; globalSeen := g; catCounts := <[ cat := c ]> (catCounts st);
             chunkBiz := k |} other = countOf st other.
Proof. intros H. unfold countOf. simpl. rewrite lookup_insert_ne by exact H. reflexivity. Qed.

(** what one work unit does to the state *)
Lemma acceptResults_account (maxPerCat : nat) (cat stKey : string)
    (results : list Biz) (st : State) :
  exists new,
    allBiz (acceptResults maxPerCat cat stKey results st) = allBiz st ++ new
    /\ chunkBiz (acceptResults maxPerCat cat stKey results st) = chunkBiz st ++ new
    /\ countOf (acceptResults maxPerCat cat stKey results st) cat
       = countOf st cat + length new
    /\ (forall other, cat <> other ->
          countOf (acceptResults maxPerCat cat stKey results st) other = countOf st other)
    /\ Forall (fun b => stateKey b = stKey) new
    /\ (countOf st cat < maxPerCat ->
        countOf (acceptResults maxPerCat cat stKey results st) cat <= maxPerCat).
Proof.
  revert st. induction results as [|biz rest IH]; intros st; cbn [acceptResults].
  - exists []. rewrite !app_nil_r. simpl.
    repeat split; [lia | constructor | lia].
  - cbv zeta. destruct (bool_decide (dedupKey biz ∈ globalSeen st)); [apply IH|].
    set (st' := {| allBiz := allBiz st ++ [tagState stKey biz];
                   globalSeen := {[ dedupKey biz ]} ∪ globalSeen st;
                   catCounts := <[ cat := countOf st cat + 1 ]> (catCounts st);
                   chunkBiz := chunkBiz st ++ [tagState stKey biz] |}).
    assert (countOf st' cat = countOf st cat + 1) as Hc by apply countOf_insert.
    assert (forall other, cat <> other -> countOf st' other = countOf st other) as Ho
      by (intros other H; apply countOf_insert_ne, H).
    destruct (Nat.leb maxPerCat (countOf st' cat)) eqn:E.
    + exists [tagState stKey biz]. simpl.
      repeat split; [exact Hc | exact Ho | constructor; [reflexivity | constructor] | lia].
    + apply Nat.leb_gt in E.
      destruct (IH st') as (new & H1 & H2 & H3 & H4 & H5 & H6).
      exists (tagState stKey biz :: new).
      split; [rewrite H1; subst st'; simpl; rewrite <- app_assoc; reflexivity|].
      split; [rewrite H2; subst st'; simpl; rewrite <- app_assoc; reflexivity|].
      split; [rewrite H3, Hc; simpl; lia|].
      split; [intros other Hne; rewrite H4, Ho by exact Hne; reflexivity|].
      split; [constructor; [reflexivity | exact H5]|].
      intros _. apply H6, E.
Qed.

(** X18: a work unit never takes a category beyond its quota when it starts
    below it; the records it accepts are appended to [allBiz] and to the
    chunk alike, tagged with the state of the unit, and the count of the
    category grows by their number while the other counts stay. *)
Theorem acceptResults_quota (maxPerCat : nat) (cat stKey : string)
    (results : list Biz) (st : State) :
  countOf st cat < maxPerCat ->
  countOf (acceptResults maxPerCat cat stKey results st) cat <= maxPerCat
  /\ exists new,
       allBiz (acceptResults maxPerCat cat stKey results st) = allBiz st ++ new
       /\ chunkBiz (acceptResults maxPerCat cat stKey results st) = chunkBiz st ++ new
       /\ countOf (acceptResults maxPerCat cat stKey results st) cat
          = countOf st cat + length new
       /\ (forall other, cat <> other ->
             countOf (acceptResults maxPerCat cat stKey results st) other
             = countOf st other)
       /\ Forall (fun b => stateKey b = stKey) new.
Proof.
  intros Hq.
  destruct (acceptResults_account maxPerCat cat stKey results st)
    as (new & H1 & H2 & H3 & H4 & H5 & H6).
  split; [apply H6, Hq|].
  exists new. repeat split; assumption.
Qed.

Lemma acceptResults_quota_witness :
  countOf (acceptResults 1 "plumber" "AZ" [Samples.p10a; Samples.p10b] freshState) "plumber"
  <= 1.
Proof.
  apply (acceptResults_quota 1 "plumber" "AZ" [Samples.p10a; Samples.p10b] freshState).
  vm_compute. lia.
Defined.

Lemma keyed_fresh : keyed freshState.
Proof. split; [constructor | reflexivity]. Qed.

Lemma acceptResults_keyed (maxPerCat : nat) (cat stKey : string)
    (results : list Biz) (st : State) :
  keyed st -> keyed (acceptResults maxPerCat cat stKey results st).
Proof.
  revert st. induction results as [|biz rest IH]; intros st Hk; cbn [acceptResults];
    [exact Hk|].
  cbv zeta. destruct (decide (dedupKey biz ∈ globalSeen st)) as [Hin|Hout].
  - rewrite bool_decide_eq_true_2 by exact Hin. apply IH, Hk.
  - rewrite bool_decide_eq_false_2 by exact Hout.
    set (st' := {| allBiz := allBiz st ++ [tagState stKey biz];
                   globalSeen := {[ dedupKey biz ]} ∪ globalSeen st;
                   catCounts := <[ cat := countOf st cat + 1 ]> (catCounts st);
                   chunkBiz := chunkBiz st ++ [tagState stKey biz] |}).
    assert (keyed st') as Hk'.
    { destruct Hk as [Hnd Hs]. subst st'. split; cbn [allBiz globalSeen].
      - rewrite List.map_app. cbn [List.map]. rewrite dedupKey_tagState.
        apply NoDup_app. split; [exact Hnd|]. split; [|apply NoDup_singleton].
        intros x Hx Hb. apply list_elem_of_In in Hb. destruct Hb as [Hb|[]]. subst x.
        apply Hout. rewrite Hs. apply elem_of_list_to_set, Hx.
      - rewrite List.map_app. cbn [List.map]. rewrite dedupKey_tagState, Hs.
        rewrite list_to_set_app_L. cbn [list_to_set].
        rewrite (right_id_L ∅ (∪)). apply (comm_L (∪)). }
    destruct (Nat.leb maxPerCat (countOf st' cat)); [exact Hk' | apply IH, Hk'].
Qed.

(** X19: the accept loop keeps the global dedup exact: when the seen-set
    holds the keys of the entities and no two entities share a key, then the
    same is true after any sequence of work units; it is true at the start
    of a fresh run. *)
Theorem replay_keeps_keys_distinct (maxPerCat : nat) (units : list Unit) (st : State) :
  keyed st -> keyed (replay maxPerCat units st).
Proof.
  revert st. induction units as [|u units IH]; intros st Hk; [exact Hk|].
  unfold replay in *. cbn [fold_left]. apply IH, acceptResults_keyed, Hk.
Qed.

Lemma replay_keeps_keys_distinct_witness :
  keyed (replay 1000 [mkUnit "plumber" "AZ" [Samples.p10a; Samples.p10b];
                      mkUnit "plumber" "OH" [Samples.p10a; Samples.sunrise]] freshState).
Proof. apply replay_keeps_keys_distinct, keyed_fresh. Defined.

End AcceptFacts.

(** ** The row buffer *)

Section SinkFacts.

Import Sched.

Lemma tryAppend_accepted (tab : string) (s : Sink) :
  accepting s ->
  trace (tryAppend tab s) = trace s ++ [SinkAppend tab (rowBuffer s)]
  /\ rowBuffer (tryAppend tab s) = [] /\ accepting (tryAppend tab s).
Proof.
  unfold accepting, tryAppend. destruct (outcomes s) as [|[|] os]; simpl; intros H.
  - repeat split.
  - repeat split. exact H.
  - discriminate.
Qed.

Lemma flushAll_idle (tabs : list string) (s : Sink) : rowBuffer s = [] -> flushAll tabs s = s.
Proof.
  revert s. induction tabs as [|t tabs IH]; intros s H; [reflexivity|].
  unfold flushAll in *. cbn [fold_left]. unfold flushRows at 2. rewrite H. apply IH, H.
Qed.

(** X20: when the sink accepts the request, a flush over the target tabs
    sends the whole buffer in one append to the first tab, whatever tabs the
    rows were pushed for, and nothing to the other tabs. *)
Theorem flushAll_first_tab (t : string) (tabs : list string) (s : Sink) :
  accepting s -> rowBuffer s <> [] ->
  trace (flushAll (t :: tabs) s) = trace s ++ [SinkAppend t (rowBuffer s)]
  /\ rowBuffer (flushAll (t :: tabs) s) = [].
Proof.
  intros Ha Hb. unfold flushAll. cbn [fold_left]. fold (flushAll tabs (flushRows t s)).
  assert (flushRows t s = tryAppend t s) as ->
    by (unfold flushRows; destruct (rowBuffer s); [congruence | reflexivity]).
  destruct (tryAppend_accepted t s Ha) as (H1 & H2 & _).
  rewrite (flushAll_idle tabs _ H2). split; [exact H1 | exact H2].
Qed.

Lemma flushAll_first_tab_witness :
  trace (flushAll ["Arizona"; "Ohio"]
           (mkSink [mkRow SchedSamples.plain1 None; mkRow Samples.p10b None] [] []))
  = [] ++ [SinkAppend "Arizona" [mkRow SchedSamples.plain1 None; mkRow Samples.p10b None]]
  /\ rowBuffer (flushAll ["Arizona"; "Ohio"]
           (mkSink [mkRow SchedSamples.plain1 None; mkRow Samples.p10b None] [] [])) = [].
Proof.
  apply (flushAll_first_tab "Arizona" ["Ohio"]
           (mkSink [mkRow SchedSamples.plain1 None; mkRow Samples.p10b None] [] [])).
  - reflexivity.
  - discriminate.
Defined.

Lemma tryAppend_outcomes (tab : string) (s : Sink) :
  forallb (fun o => o) (outcomes s) = true -> rowBuffer (tryAppend tab s) = [].
Proof. intros H. apply tryAppend_accepting, H. Qed.

(** X21: the sheet code loses and repeats no row: after [batchPushRows] the
    rows accepted so far followed by the buffer are what they were before,
    followed by the rows of the business, after [flushRows] they are
    unchanged, and this holds when appends fail; when the sink accepts the
    requests, the buffer stays shorter than the batch size. *)
Theorem sink_keeps_rows (tab : string) (o : Out) (s : Sink) :
  pushed (batchPushRows tab o s) = pushed s ++ toRows o
  /\ pushed (flushRows tab s) = pushed s
  /\ (forallb (fun o => o) (outcomes s) = false
      \/ length (rowBuffer (batchPushRows tab o s)) < batchSize).
Proof.
  split; [apply batchPushRows_pushed|]. split; [apply flushRows_pushed|].
  destruct (forallb (fun o => o) (outcomes s)) eqn:Ha; [right | left; reflexivity].
  unfold batchPushRows.
  cbn [rowBuffer].
  destruct (Nat.leb batchSize (length (rowBuffer s ++ toRows o))) eqn:E.
  - rewrite (tryAppend_outcomes tab
               {| rowBuffer := rowBuffer s ++ toRows o; trace := trace s;
                  outcomes := outcomes s |} Ha).
    unfold batchSize. simpl. lia.
  - apply Nat.leb_gt in E. exact E.
Qed.

End SinkFacts.

(** ** Discovery units *)

Section UnitFacts.

Import Breaker BreakerFacts.

Lemma discoverYelpSingle_account (r : Response) (n : Net) :
  yelpSkipped (snd (discoverYelpSingle r n)) + pageLoads (snd (discoverYelpSingle r n)) Yelp
  = S (yelpSkipped n + pageLoads n Yelp)
  /\ yelpConsecutiveFails (snd (discoverYelpSingle r n)) <= Nat.max 5 (yelpConsecutiveFails n)
  /\ (forall s, s <> Yelp ->
        pageLoads (snd (discoverYelpSingle r n)) s = pageLoads n s).
Proof.
  unfold discoverYelpSingle.
  destruct (Nat.leb 5 (yelpConsecutiveFails n)) eqn:E.
  - cbn [snd yelpSkipped pageLoads yelpConsecutiveFails].
    split; [lia | split; [lia | intros s _; reflexivity]].
  - apply Nat.leb_gt in E.
    assert (forall s, s <> Yelp -> pageLoads (load Yelp n) s = pageLoads n s) as Hs
      by (intros s Hne; destruct s; simpl; congruence).
    destruct r as [| |[|b l]]; cbn [snd yelpSkipped pageLoads yelpConsecutiveFails setFails load source_eqb];
      (split; [lia | split; [lia | exact Hs]]).
Qed.

(** X22: every Yelp work unit either loads one page or is counted as
    skipped, never both and never neither; the failure counter never goes
    beyond 5 once it is at most 5, and Yelp units leave the page loads of
    the other sources alone. *)
Theorem yelp_units_account (resps : list Response) (n : Net) :
  yelpSkipped (snd (runUnits Yelp resps n)) + pageLoads (snd (runUnits Yelp resps n)) Yelp
  = yelpSkipped n + pageLoads n Yelp + length resps
  /\ yelpConsecutiveFails (snd (runUnits Yelp resps n)) <= Nat.max 5 (yelpConsecutiveFails n)
  /\ (forall s, s <> Yelp -> pageLoads (snd (runUnits Yelp resps n)) s = pageLoads n s)
  /\ length (fst (runUnits Yelp resps n)) = length resps.
Proof.
  revert n. induction resps as [|r rest IH]; intros n; cbn [runUnits discoverSingle].
  - simpl. repeat split; lia.
  - destruct (discoverYelpSingle_account r n) as (A1 & A2 & A3).
    destruct (discoverYelpSingle r n) as [found n1]. cbn [snd] in A1, A2, A3.
    destruct (IH n1) as (B1 & B2 & B3 & B4).
    destruct (runUnits Yelp rest n1) as [others n2]. cbn [snd fst] in B1, B2, B3, B4 |- *.
    split; [simpl; lia|]. split; [lia|]. split.
    + intros s Hs. rewrite B3, A3 by exact Hs. reflexivity.
    + simpl. lia.
Qed.



Lemma yelpCities_bounds (max : nat) (resps : list Response) (st : YelpRun) :
  length (yr_biz st) <= max ->
  length (yr_biz (yelpCities max resps st)) <= max
  /\ yr_loads st <= yr_loads (yelpCities max resps st) <= yr_loads st + length resps.
Proof.
  revert st. induction resps as [|r rest IH]; intros st H; cbn [yelpCities].
  - simpl. lia.
  - destruct (Nat.leb max (length (yr_biz st)) || Nat.leb MAX_FAILS (yr_fails st));
      [simpl; lia|].
    destruct r as [| |found].
    + destruct (IH (mkYelpRun (yr_biz st) (S (yr_fails st)) (S (yr_loads st)) (yr_skipped st)) H)
        as [B1 B2]. cbn [yr_loads length] in *. split; [exact B1 | lia].
    + destruct (IH (mkYelpRun (yr_biz st) (S (yr_fails st)) (S (yr_loads st)) (yr_skipped st)) H)
        as [B1 B2]. cbn [yr_loads length] in *. split; [exact B1 | lia].
    + set (new := firstn (max - length (yr_biz st)) found).
      assert (length (yr_biz st ++ new) <= max) as Hn.
      { rewrite length_app. subst new. rewrite length_take. lia. }
      destruct (IH (mkYelpRun (yr_biz st ++ new)
                      (match new with [] => S (yr_fails st) | _ => 0 end)
                      (S (yr_loads st)) (yr_skipped st)) Hn) as [B1 B2].
      cbn [yr_loads length] in *. split; [exact B1 | lia].
Qed.

Lemma yelpCategories_bounds (max total : nat) (cats : list (list Response)) (st : YelpRun) :
  length (yr_biz st) <= max ->
  length (yr_biz (yelpCategories max total cats st)) <= max
  /\ yr_loads (yelpCategories max total cats st) <= yr_loads st + 5 * length cats.
Proof.
  revert st. induction cats as [|resps rest IH]; intros st H; cbn [yelpCategories].
  - simpl. lia.
  - destruct (Nat.leb MAX_FAILS (yr_fails st)); [simpl; lia|].
    cbv zeta.
    destruct (yelpCities_bounds max (firstn 5 resps) st H) as [B1 B2].
    rewrite length_take in B2.
    destruct (Nat.leb max (length (yr_biz (yelpCities max (firstn 5 resps) st)))).
    + split; [exact B1 | simpl; lia].
    + destruct (IH _ B1) as [C1 C2]. split; [exact C1 | simpl; lia].
Qed.

(** X24: [discoverYelp] never returns more than [max] businesses and never
    loads more than five pages for a category. *)
Theorem discoverYelp_bounds (max total : nat) (cats : list (list Response)) :
  length (yr_biz (discoverYelp max total cats)) <= max
  /\ yr_loads (discoverYelp max total cats) <= 5 * length cats.
Proof.
  unfold discoverYelp.
  destruct (yelpCategories_bounds max total cats (mkYelpRun [] 0 0 0)) as [H1 H2];
    [simpl; lia|].
  split; [exact H1 | exact H2].
Qed.

End UnitFacts.

(** ** The error log *)

Section ErrorLog.

Import Util.

Lemma takeStr_length (n : nat) (s : string) : String.length (takeStr n s) <= n.
Proof.
  revert s. induction n as [|n IH]; intros s; [simpl; lia|].
  destruct s as [|c s]; simpl; [lia|]. specialize (IH s). lia.
Qed.

Lemma logError_window (time source msg : string) (log : list ErrorEntry) :
  length log <= 20 ->
  logError time source msg log
  = drop (length log + 1 - 20) (log ++ [mkErrorEntry time source (takeStr 100 msg)]).
Proof.
  intros H. unfold logError. cbv zeta. rewrite length_app. cbn [length].
  destruct (Nat.ltb 20 (length log + 1)) eqn:E.
  - apply Nat.ltb_lt in E. replace (length log + 1 - 20) with 1 by lia.
    destruct log; reflexivity.
  - apply Nat.ltb_ge in E. replace (length log + 1 - 20) with 0 by lia. reflexivity.
Qed.

Lemma logErrors_window (calls : list (string * string * string)) (log : list ErrorEntry) :
  length log <= 20 ->
  logErrors calls log
  = drop (length log + length calls - 20) (log ++ List.map entryOf calls).
Proof.
  revert log. induction calls as [|c calls IH]; intros log H; unfold logErrors in *;
    cbn [fold_left List.map length].
  - rewrite app_nil_r. replace (length log + 0 - 20) with 0 by lia. reflexivity.
  - rewrite (logError_window _ _ _ log H). fold (entryOf c).
    rewrite IH.
    2:{ rewrite length_drop, length_app. cbn [length]. lia. }
    rewrite length_drop, length_app. cbn [length].
    destruct (le_lt_dec 20 (length log)) as [Hfull|Hless].
    + assert (length log = 20) as E by lia. rewrite E.
      replace (20 + 1 - 20) with 1 by lia.
      replace (20 + 1 - 1 + length calls - 20) with (length calls) by lia.
      replace (20 + S (length calls) - 20) with (S (length calls)) by lia.
      destruct log as [|x log]; [discriminate|].
      rewrite <- app_comm_cons. cbn [drop]. rewrite drop_0, <- app_assoc.
      rewrite <- (app_comm_cons log). reflexivity.
    + replace (length log + 1 - 20) with 0 by lia. rewrite drop_0.
      rewrite <- app_assoc. cbn [app]. f_equal. lia.
Qed.

(** X25: the error log is a window on the last 20 errors: after any series
    of calls of [logError] on an empty log it holds the entries of the last
    20 calls, oldest first, and every message is cut to 100 code units. *)
Theorem logError_keeps_last_20 (calls : list (string * string * string)) :
  logErrors calls [] = drop (length calls - 20) (List.map entryOf calls)
  /\ length (logErrors calls []) = Nat.min 20 (length calls)
  /\ Forall (fun e => String.length (err_msg e) <= 100) (logErrors calls []).
Proof.
  assert (logErrors calls [] = drop (length calls - 20) (List.map entryOf calls)) as H
    by (rewrite logErrors_window by (simpl; lia); reflexivity).
  split; [exact H|]. rewrite H. split.
  - rewrite length_drop, length_map. lia.
  - apply Forall_drop, Forall_forall. intros e He.
    apply list_elem_of_In, in_map_iff in He as (c & <- & _).
    apply takeStr_length.
Qed.

End ErrorLog.

(** ** Resolving a website to a URL *)

Section ResolveUrl.

Import Util.

Lemma stripSlashes_end (s : string) : endsWithSlash (stripSlashes s) = false.
Proof.
  induction s as [|c r IH]; [reflexivity|]. cbn [stripSlashes].
  destruct (stripSlashes r) as [|d t] eqn:E.
  - destruct (Ascii.eqb c "/") eqn:Ec; [reflexivity | simpl; exact Ec].
  - exact IH.
Qed.

Lemma probeAll_spec (get : string -> Probe) (clean : string) (pres : list string) :
  match probeAll get clean pres with
  | Some u => endsWithSlash u = false
              /\ existsb (fun pre => match get (pre +:+ clean) with
                                     | Throws => false
                                     | Ok _ => true
                                     end) pres = true
  | None => forallb (fun pre => match get (pre +:+ clean) with
                                | Throws => true
                                | Ok _ => false
                                end) pres = true
  end.
Proof.
  induction pres as [|pre rest IH]; cbn [probeAll existsb forallb]; [reflexivity|].
  destruct (get (pre +:+ clean)) as [|[[|c u]|]].
  - destruct (probeAll get clean rest); exact IH.
  - split; [apply stripSlashes_end | reflexivity].
  - split; [apply stripSlashes_end | reflexivity].
  - split; [apply stripSlashes_end | reflexivity].
Qed.

(** X26: [resolveUrl] never returns a URL that ends with a slash; it
    returns a URL exactly when one of the four requests, [https://www.],
    [https://], [http://www.] and [http://] before the cleaned domain, does
    not throw. *)
Theorem resolveUrl_result (get : string -> Probe) (domain : string) :
  let clean := stripLastSlash (Js.stripPrefix "www." (ER.stripScheme domain)) in
  match resolveUrl get domain with
  | Some u => endsWithSlash u = false
              /\ existsb (fun pre => match get (pre +:+ clean) with
                                     | Throws => false
                                     | Ok _ => true
                                     end) prefixes = true
  | None => forallb (fun pre => match get (pre +:+ clean) with
                                | Throws => true
                                | Ok _ => false
                                end) prefixes = true
  end.
Proof. intros clean. unfold resolveUrl. fold clean. apply probeAll_spec. Qed.

End ResolveUrl.

(** ** The website step *)

Section WebsiteStep.

Import Finder.

Lemma prefix_empty (s : string) : String.prefix "" s = true.
Proof. destruct s; reflexivity. Qed.

Lemma prefix_of_empty (s : string) : String.prefix s "" = true -> s = "".
Proof. destruct s; [reflexivity | discriminate]. Qed.

Lemma prefix_beforeChar (f : ascii -> ascii) (sep : ascii) (h s : string) :
  String.prefix s (Js.map f (Js.beforeChar sep h)) = true ->
  String.prefix s (Js.map f h) = true.
Proof.
  revert s. induction h as [|c r IH]; intros s H; [exact H|].
  cbn [Js.beforeChar] in H. destruct (Ascii.eqb c sep).
  - apply prefix_of_empty in H. subst s. apply prefix_empty.
  - cbn [Js.map] in H |- *. destruct s as [|a s]; [reflexivity|].
    cbn [String.prefix] in H |- *. destruct (ascii_dec a (f c)); [apply IH, H | exact H].
Qed.

Lemma includes_beforeChar (f : ascii -> ascii) (sep : ascii) (s h : string) :
  Enrich.includes s (Js.map f (Js.beforeChar sep h)) = true ->
  Enrich.includes s (Js.map f h) = true.
Proof.
  induction h as [|c r IH]; intros H; [exact H|].
  cbn [Js.beforeChar] in H. destruct (Ascii.eqb c sep) eqn:E.
  - cbn [Js.map Enrich.includes] in H. rewrite orb_false_r in H.
    apply prefix_of_empty in H. subst s.
    cbn [Js.map Enrich.includes]. unfold Js.startsWith. rewrite prefix_empty. reflexivity.
  - assert (String.prefix s (Js.map f (Js.beforeChar sep (String c r))) = true
            \/ Enrich.includes s (Js.map f (Js.beforeChar sep r)) = true) as [Hp|Hi].
    { cbn [Js.beforeChar]. rewrite E. cbn [Js.map Enrich.includes] in H.
      apply orb_true_iff in H. exact H. }
    + apply prefix_beforeChar in Hp. cbn [Js.map Enrich.includes] in *.
      unfold Js.startsWith. rewrite Hp. reflexivity.
    + cbn [Js.map Enrich.includes]. rewrite (IH Hi). apply orb_true_r.
Qed.

Lemma denied_beforeChar (deny : list string) (h : string) :
  denied deny h = false -> denied deny (Js.beforeChar "?" h) = false.
Proof.
  unfold denied. intros H. induction deny as [|s deny IH]; [reflexivity|].
  cbn [existsb] in H |- *. apply orb_false_iff in H as [H1 H2].
  rewrite (IH H2), orb_false_r.
  destruct (Enrich.includes s (Js.toLowerCase (Js.beforeChar "?" h))) eqn:E; [|reflexivity].
  apply includes_beforeChar in E. unfold Js.toLowerCase in H1. congruence.
Qed.

Lemma denyGoogle_in_denyDdg (h : string) :
  denied denyDdg h = false -> denied denyGoogle h = false.
Proof.
  unfold denied, denyDdg, denyGoogle. cbn [existsb].
  destruct (Enrich.includes "google." (Js.toLowerCase h)); [discriminate|].
  destruct (Enrich.includes "duckduckgo" (Js.toLowerCase h)); [discriminate|].
  intros H. exact H.
Qed.

Lemma beforeChar_length (sep : ascii) (h : string) :
  String.length (Js.beforeChar sep h) <= String.length h.
Proof.
  induction h as [|c r IH]; [simpl; lia|]. cbn [Js.beforeChar].
  destruct (Ascii.eqb c sep); simpl; lia.
Qed.

Lemma beforeChar_free (sep : ascii) (h : string) :
  Shape.allChars (fun c => negb (Ascii.eqb c sep)) (Js.beforeChar sep h) = true.
Proof.
  induction h as [|c r IH]; [reflexivity|]. cbn [Js.beforeChar].
  destruct (Ascii.eqb c sep) eqn:E; [reflexivity|].
  cbn [Shape.allChars]. rewrite E, IH. reflexivity.
Qed.

Lemma beforeChar_http (h : string) :
  Js.startsWith "http" h = true -> Js.startsWith "http" (Js.beforeChar "?" h) = true.
Proof.
  unfold Js.startsWith.
  destruct h as [|c1 [|c2 [|c3 [|c4 r]]]]; cbn [String.prefix]; try discriminate.
  - destruct (ascii_dec "h" c1); discriminate.
  - destruct (ascii_dec "h" c1); [|discriminate]. destruct (ascii_dec "t" c2); discriminate.
  - destruct (ascii_dec "h" c1); [|discriminate]. destruct (ascii_dec "t" c2); [|discriminate].
    destruct (ascii_dec "t" c3); discriminate.
  - destruct (ascii_dec "h" c1) as [<-|]; [|discriminate].
    destruct (ascii_dec "t" c2) as [<-|]; [|discriminate].
    destruct (ascii_dec "t" c3) as [<-|]; [|discriminate].
    destruct (ascii_dec "p" c4) as [<-|]; [|discriminate].
    intros _. cbn. apply prefix_empty.
Qed.

Lemma http_truthy (w : string) : Js.startsWith "http" w = true -> Js.truthy w = true.
Proof. destruct w; [discriminate | reflexivity]. Qed.

(** what a link that the step may take leaves in [biz.website] *)
Lemma eligible_website (deny : list string) (h : string) :
  eligible deny h = true ->
  Js.startsWith "http" (Js.beforeChar "?" h) = true
  /\ denied deny (Js.beforeChar "?" h) = false
  /\ String.length (Js.beforeChar "?" h) < 200
  /\ Shape.allChars (fun c => negb (Ascii.eqb c "?")) (Js.beforeChar "?" h) = true.
Proof.
  unfold eligible. intros H.
  apply andb_true_iff in H as [H H3]. apply andb_true_iff in H as [H1 H2].
  apply negb_true_iff in H2. apply Nat.ltb_lt in H3.
  split; [apply beforeChar_http, H1|].
  split; [apply denied_beforeChar, H2|].
  split; [pose proof (beforeChar_length "?" h); lia | apply beforeChar_free].
Qed.

Lemma ddgStep_set (w h : string) : Js.truthy w = true -> ddgStep w h = w.
Proof. intros H. unfold ddgStep. rewrite H. reflexivity. Qed.

Lemma googleStep_set (w h : string) : Js.truthy w = true -> googleStep w h = w.
Proof. intros H. unfold googleStep. rewrite H. reflexivity. Qed.

Lemma fold_set (step : string -> string -> string) (hrefs : list string) (w : string) :
  (forall h, step w h = w) -> fold_left step hrefs w = w.
Proof.
  intros H. induction hrefs as [|h rest IH]; [reflexivity|].
  cbn [fold_left]. rewrite H. exact IH.
Qed.

Lemma ddgStep_empty (h : string) :
  ddgStep "" h = if eligible denyDdg h then Js.beforeChar "?" h else "".
Proof.
  unfold ddgStep, eligible. cbn [Js.truthy].
  destruct (Js.startsWith "http" h), (denied denyDdg h),
    (Nat.ltb (String.length h) 200); reflexivity.
Qed.

Lemma googleStep_empty (h : string) :
  googleStep "" h = if eligible denyGoogle h then Js.beforeChar "?" h else "".
Proof.
  unfold googleStep, eligible. cbn [Js.truthy].
  destruct (Js.startsWith "http" h), (denied denyGoogle h),
    (Nat.ltb (String.length h) 200); reflexivity.
Qed.

Lemma fold_first (deny : list string) (step : string -> string -> string)
    (hrefs : list string) :
  (forall w h, Js.truthy w = true -> step w h = w) ->
  (forall h, step "" h = if eligible deny h then Js.beforeChar "?" h else "") ->
  fold_left step hrefs ""
  = match List.find (eligible deny) hrefs with
    | Some h => Js.beforeChar "?" h
    | None => ""
    end.
Proof.
  intros Hset Hempty. induction hrefs as [|h rest IH]; [reflexivity|].
  cbn [fold_left List.find]. rewrite Hempty.
  destruct (eligible deny h) eqn:E; [|exact IH].
  apply fold_set. intros h'. apply Hset, http_truthy.
  apply (eligible_website deny h E).
Qed.

Lemma ddgPass_set (links : list Link) (w : string) :
  Js.truthy w = true -> ddgPass links w = Done w.
Proof.
  revert w. induction links as [|[h|] rest IH]; intros w Hw; cbn [ddgPass].
  - reflexivity.
  - rewrite (ddgStep_set w h Hw). apply IH, Hw.
  - rewrite Hw. apply IH, Hw.
Qed.

(** the pass over the DuckDuckGo links: the first eligible link before the
    first malformed link sets the website; without one the pass ends in the
    exception of the first malformed link *)
Lemma ddgPass_first (links : list Link) :
  ddgPass links ""
  = match List.find (eligible denyDdg) (decodedPrefix links) with
    | Some h => Done (Js.beforeChar "?" h)
    | None => if intact links then Done "" else Thrown ""
    end.
Proof.
  induction links as [|[h|] rest IH]; cbn [ddgPass decodedPrefix List.find].
  - reflexivity.
  - rewrite ddgStep_empty. destruct (eligible denyDdg h) eqn:E.
    + apply ddgPass_set, http_truthy. apply (eligible_website denyDdg h E).
    + exact IH.
  - reflexivity.
Qed.

(** X27: the website step leaves a website that is set alone.  For a
    business without one it takes the first link of the DuckDuckGo page,
    among those before the first link whose target cannot be decoded, that
    starts with [http], matches no fragment of the deny pattern and is
    shorter than 200.  When there is none and a link cannot be decoded, the
    step ends without a website and without the Google page; otherwise it
    takes the first such link of the Google page.  The link is cut at its
    first question mark. *)
Theorem findWebsite_first_eligible (ddg : option (list Link))
    (google : option (list string)) (website : string) :
  findWebsite ddg google website
  = if Js.truthy website then website
    else
      let fromGoogle := match google ≫= List.find (eligible denyGoogle) with
                        | Some h => Js.beforeChar "?" h
                        | None => ""
                        end in
      match ddg with
      | None => fromGoogle
      | Some links =>
          match List.find (eligible denyDdg) (decodedPrefix links) with
          | Some h => Js.beforeChar "?" h
          | None => if intact links then fromGoogle else ""
          end
      end.
Proof.
  unfold findWebsite. destruct (Js.truthy website) eqn:Hw.
  - assert (match ddg with
            | Some links => ddgPass links website
            | None => Done website
            end = Done website) as ->.
    { destruct ddg as [links|]; [|reflexivity]. apply ddgPass_set, Hw. }
    rewrite Hw. reflexivity.
  - destruct website; [|discriminate]. cbv zeta.
    assert (fold_left googleStep (default [] google) ""
            = match google ≫= List.find (eligible denyGoogle) with
              | Some h => Js.beforeChar "?" h
              | None => ""
              end) as Hg.
    { destruct google as [hrefs|]; [|reflexivity].
      apply (fold_first denyGoogle googleStep hrefs googleStep_set googleStep_empty). }
    assert (match google with
            | Some hrefs => fold_left googleStep hrefs ""
            | None => ""
            end = fold_left googleStep (default [] google) "") as Hd
      by (destruct google; reflexivity).
    destruct ddg as [links|].
    + rewrite ddgPass_first.
      destruct (List.find (eligible denyDdg) (decodedPrefix links)) as [h|] eqn:Ed.
      * apply List.find_some in Ed as [_ He].
        destruct (eligible_website denyDdg h He) as (H1 & _).
        rewrite (http_truthy _ H1). reflexivity.
      * destruct (intact links); [|reflexivity].
        cbn [Js.truthy negb]. rewrite Hd. exact Hg.
    + cbn [Js.truthy negb]. rewrite Hd. exact Hg.
Qed.

(** X28: a website found by the website step starts with [http], is
    shorter than 200 code units, holds no question mark and matches no
    fragment of the deny pattern, whichever search page it came from. *)
Theorem findWebsite_never_denied (ddg : option (list Link)) (google : option (list string)) :
  let w := findWebsite ddg google "" in
  w = ""
  \/ (Js.startsWith "http" w = true
      /\ denied denyGoogle w = false
      /\ String.length w < 200
      /\ Shape.allChars (fun c => negb (Ascii.eqb c "?")) w = true).
Proof.
  intros w. subst w. unfold findWebsite.
  assert (forall hrefs,
            fold_left googleStep hrefs "" = ""
            \/ exists h, eligible denyGoogle h = true
                         /\ fold_left googleStep hrefs "" = Js.beforeChar "?" h) as Hg.
  { intros hrefs.
    rewrite (fold_first denyGoogle googleStep hrefs googleStep_set googleStep_empty).
    destruct (List.find (eligible denyGoogle) hrefs) as [h|] eqn:E; [right | left; reflexivity].
    exists h. split; [apply (List.find_some _ _ E) | reflexivity]. }
  assert (forall w, w = "" \/ (exists h, eligible denyGoogle h = true /\ w = Js.beforeChar "?" h)
                    -> w = ""
                       \/ (Js.startsWith "http" w = true
                           /\ denied denyGoogle w = false
                           /\ String.length w < 200
                           /\ Shape.allChars (fun c => negb (Ascii.eqb c "?")) w = true)) as Hfin.
  { intros w [->|(h & He & ->)]; [left; reflexivity | right].
    apply (eligible_website denyGoogle h He). }
  set (fromGoogle := if negb (Js.truthy "")
                     then match google with
                          | Some hrefs => fold_left googleStep hrefs ""
                          | None => ""
                          end
                     else "").
  assert (fromGoogle = ""
          \/ (Js.startsWith "http" fromGoogle = true
              /\ denied denyGoogle fromGoogle = false
              /\ String.length fromGoogle < 200
              /\ Shape.allChars (fun c => negb (Ascii.eqb c "?")) fromGoogle = true))
    as Hgoogle.
  { subst fromGoogle. cbn [Js.truthy negb]. destruct google as [gl|]; [|left; reflexivity].
    apply Hfin, Hg. }
  destruct ddg as [links|]; [|exact Hgoogle].
  rewrite ddgPass_first.
  destruct (List.find (eligible denyDdg) (decodedPrefix links)) as [h|] eqn:Ed.
  - apply List.find_some in Ed as [_ He].
    destruct (eligible_website denyDdg h He) as (H1 & H2 & H3 & H4).
    rewrite (http_truthy _ H1). cbn [negb]. right.
    split; [exact H1|]. split; [apply denyGoogle_in_denyDdg, H2|].
    split; [exact H3 | exact H4].
  - destruct (intact links); [exact Hgoogle | left; reflexivity].
Qed.

End WebsiteStep.

(** ** The discovery loop of a category turn *)

Section TurnFacts.

Import Sched Turn.

(** X29: the discovery loop of a turn moves the cursor of its category
    forward only, by the number of work units it has consumed, and the state
    it leaves is the one obtained by accepting, in order, the results of the
    consumed units whose call returned: a unit whose call threw lies before
    the cursor and is not run again, a unit reached after a stop request
    lies at the cursor. *)
Theorem discoverTurn_cursor (maxPerCat chunkSize : nat) (cat : string)
    (stopped : nat -> bool) (i : nat) (work : list Work) (st : State) :
  let r := discoverTurn maxPerCat chunkSize cat stopped i work st i in
  i <= snd r <= i + length work
  /\ fst r = replay maxPerCat (unitsOf cat (take (snd r - i) work)) st
  /\ (forall w rest, work = w :: rest ->
        Nat.ltb (length (chunkBiz st)) chunkSize = true -> stopped i = false ->
        i < snd r)
  /\ (stopped i = true -> r = (st, i)).
Proof.
  revert i st. induction work as [|w rest IH]; intros i st; cbn [discoverTurn].
  - cbn [fst snd length]. rewrite Nat.sub_diag.
    split; [lia|]. split; [reflexivity|]. split; [discriminate | reflexivity].
  - destruct (Nat.leb chunkSize (length (chunkBiz st))) eqn:Ec.
    { cbn [fst snd length]. rewrite Nat.sub_diag.
      split; [lia|]. split; [reflexivity|]. split; [|reflexivity].
      intros _ _ _ Hlt. apply Nat.leb_le in Ec. apply Nat.ltb_lt in Hlt. lia. }
    destruct (stopped i) eqn:Es.
    { cbn [fst snd length]. rewrite Nat.sub_diag.
      split; [lia|]. split; [reflexivity|]. split; [discriminate | reflexivity]. }
    destruct (w_results w) as [results|] eqn:Er.
    + cbv zeta.
      destruct (Nat.leb maxPerCat
                  (countOf (acceptResults maxPerCat cat (w_stKey w) results st) cat)).
      * cbn [fst snd length].
        replace (S i - i) with 1 by lia.
        cbn [take unitsOf]. rewrite Er. cbn [replay fold_left u_cat u_stKey u_results].
        split; [lia|]. split; [reflexivity|]. split; [intros; lia | discriminate].
      * destruct (IH (S i) (acceptResults maxPerCat cat (w_stKey w) results st))
          as (Hb & Hs & _).
        cbv zeta in Hb, Hs. cbn [length].
        split; [lia|]. split; [|split; [intros; lia | discriminate]].
        rewrite Hs.
        replace (snd (discoverTurn maxPerCat chunkSize cat stopped (S i) rest
                        (acceptResults maxPerCat cat (w_stKey w) results st) (S i)) - i)
          with (S (snd (discoverTurn maxPerCat chunkSize cat stopped (S i) rest
                          (acceptResults maxPerCat cat (w_stKey w) results st) (S i)) - S i))
          by lia.
        cbn [take unitsOf]. rewrite Er. reflexivity.
    + destruct (IH (S i) st) as (Hb & Hs & _).
      cbv zeta in Hb, Hs. cbn [length].
      split; [lia|]. split; [|split; [intros; lia | discriminate]].
      rewrite Hs.
      replace (snd (discoverTurn maxPerCat chunkSize cat stopped (S i) rest st (S i)) - i)
        with (S (snd (discoverTurn maxPerCat chunkSize cat stopped (S i) rest st (S i)) - S i))
        by lia.
      cbn [take unitsOf]. rewrite Er. reflexivity.
Qed.

End TurnFacts.

(** ** The tabs of the output step *)

Section TabFacts.

Import Sched Tabs.

Lemma isStateKey_cases (k : string) :
  isStateKey k = true -> k = "AZ" \/ k = "NV" \/ k = "OH" \/ k = "ID" \/ k = "WA".
Proof.
  unfold isStateKey, STATES. cbn [existsb fst]. intros H.
  repeat (apply orb_true_iff in H as [H|H]; [apply String.eqb_eq in H; auto 6|]).
  discriminate.
Qed.

Lemma guessIn_named (s : string) : Js.truthy (guessIn STATES s) = true.
Proof.
  unfold STATES. cbn [guessIn].
  repeat match goal with
         | |- context [String.eqb ?a s] => destruct (String.eqb a s); [reflexivity|]
         end.
  reflexivity.
Qed.

(** X30: with the tables of [run], a record tagged with a state key of
    [STATES] that is among the target states is written to a tab that the
    flush loops of the output step flush; a record without state key is
    written to the tab of its state name or to [Other]; a record is left out
    of the sheet only when it carries a key that [STATES] does not have. *)
Theorem tagged_record_has_target_tab (targetKeys : list string)
    (enrich : Biz -> option Out) (stopped : nat -> bool) (b : Biz) :
  let env := engineEnv targetKeys enrich stopped in
  hasTab env b = negb (Js.truthy (stateKey b)) || isStateKey (stateKey b)
  /\ (forall k, In k targetKeys -> isStateKey k = true ->
        exists tab, tabFor env (tagState k b) = Some tab
                    /\ Js.truthy tab = true /\ In tab (targetTabs env)).
Proof.
  intros env. split.
  - unfold hasTab, tabFor. subst env. cbn [engineEnv tabOf Sched.guessStateTab].
    destruct (Js.truthy (stateKey b)) eqn:Ht; cbn [negb orb].
    + unfold isStateKey, STATES. cbn [tabOfKey existsb fst].
      repeat match goal with
             | |- context [String.eqb ?a (stateKey b)] =>
                 destruct (String.eqb a (stateKey b)); [reflexivity|]
             end.
      reflexivity.
    + unfold guessStateTab. pose proof (guessIn_named (Js.toLowerCase (state b))) as H.
      destruct (guessIn STATES (Js.toLowerCase (state b))); [discriminate | reflexivity].
  - intros k Hin Hk.
    assert (exists tab, tabOfKey STATES k = Some tab /\ Js.truthy tab = true
                        /\ Js.truthy k = true) as (tab & Ht & Hn & Hkt).
    { destruct (isStateKey_cases k Hk) as [-> | [-> | [-> | [-> | ->]]]];
        eexists; (split; [reflexivity | split; reflexivity]). }
    exists tab. unfold tabFor. subst env.
    cbn [engineEnv tabOf targetTabs tagState stateKey]. rewrite Hkt.
    split; [exact Ht|]. split; [exact Hn|].
    apply list_elem_of_In, list_elem_of_omap. exists k.
    split; [apply list_elem_of_In, Hin | exact Ht].
Qed.

End TabFacts.
